(** * reqx: credential refresh and failure recovery coordinators

    A shallow embedding of the [reqx] package of r3dpixel/toolkit
    (auth.go, interceptor.go, client.go) together with the one helper of
    [stringsx] it calls, and the properties of the refresh and recovery
    protocols established on it; then the other blank tests of
    [stringsx], the settings and the error cause of client.go, and the
    identity manager of [cred] that serves as identity reader.

    Conventions.
    - A Go [string] is a byte sequence: [String.string].
    - [time.Time] is an instant of the wall clock, counted in nanoseconds
      from the zero instant [time.Time{}] (January 1, year 1, UTC), with no
      bound on the years it can hold; [time.Duration] is a signed count of
      nanoseconds.
    - A Go [error] is its message; [nil] is [None].
    - A body run under a mutex that is released when the body ends
      ([tokenMu], [interceptorStore.mu]) is one atomic step.  [refreshMu],
      which is held across several such steps, is a boolean of the store.
    - Calls that leave the package (the identity reader, the refresh
      function, the interceptor, the JWT parser, the system clock) are
      functions over an explicit external state, and the calls made are
      recorded as events of the step that makes them. *)

From Stdlib Require Import ZArith Lia Ascii String List Bool.
From stdpp Require Import base option list gmap strings pretty.

Set Warnings "-register-all".
Local Open Scope Z_scope.

(** ** Time *)

Module Time.

Definition Time := Z.
Definition Duration := Z.

(** [time.Time{}] *)
Definition zero : Time := 0.

(** [t.Add(d)] *)
Definition Add (t : Time) (d : Duration) : Time := t + d.

(** [t.Before(u)] *)
Definition Before (t u : Time) : bool := t <? u.

(** [t.IsZero()] *)
Definition IsZero (t : Time) : bool := t =? zero.

Definition Nanosecond : Duration := 1.
Definition Second : Duration := 1000000000.
Definition Minute : Duration := 60 * Second.
Definition Hour : Duration := 60 * Minute.

(** A [time.Duration] is an int64. *)
Definition is_duration (d : Duration) : Prop := - 2 ^ 63 <= d < 2 ^ 63.

(** January 1, 1970 UTC, the origin of the system's wall clock. *)
Definition unixEpoch : Time := 62135596800 * Second.

(** What [time.Now()] can read: the wall clock does not run before its
    own origin. *)
Definition is_wall_clock (t : Time) : Prop := unixEpoch <= t.

End Time.
Import Time.

(** A Go [error] value, by its message. *)
Definition error := string.

(** ** stringsx.IsBlank *)

(** The two standard-library functions behind [range] over a string and
    [unicode.IsSpace]. *)
Class Unicode := {
  rune : Type;
  (** [utf8.DecodeRuneInString]: the first rune and its width in bytes *)
  DecodeRuneInString : string -> rune * nat;
  (** [unicode.IsSpace] *)
  unicode_IsSpace : rune -> bool
}.

Module stringsx.
Section stringsx.
Context `{Unicode}.

Definition byte_val (c : ascii) : Z := Z.of_N (N_of_ascii c).

(** [utf8.RuneSelf] *)
Definition RuneSelf : Z := 128.

(** [asciiSpace]: 1 at '\t', '\n', '\v', '\f', '\r' and ' ', else 0 *)
Definition asciiSpace (c : ascii) : Z :=
  let v := byte_val c in
  if (v =? 9) || (v =? 10) || (v =? 11) || (v =? 12) || (v =? 13) || (v =? 32)
  then 1 else 0.

(** [for _, r := range value]: one rune per turn, at least one byte
    consumed per turn. *)
Fixpoint isBlankUnicode_from (turns : nat) (value : string) : bool :=
  match turns, value with
  | O, _ => true
  | _, EmptyString => true
  | S turns', String _ _ =>
      let '(r, width) := DecodeRuneInString value in
      if negb (unicode_IsSpace r) then false
      else isBlankUnicode_from turns'
             (String.substring (Nat.max 1 width) (String.length value) value)
  end.

Definition isBlankUnicode (value : string) : bool :=
  isBlankUnicode_from (String.length value) value.

(** The loop of [IsBlank], from byte [i] on: [value] is what is left. *)
Fixpoint IsBlank_loop (value : string) : bool :=
  match value with
  | EmptyString => true
  | String c rest =>
      if RuneSelf <=? byte_val c then isBlankUnicode value
      else if asciiSpace c =? 0 then false
      else IsBlank_loop rest
  end.

Definition IsBlank (value : string) : bool :=
  if (String.length value =? 0)%nat then true else IsBlank_loop value.

End stringsx.
End stringsx.

(** ** The bearer-token decoder *)

(** golang-jwt, as far as [extractTokenExpiration] uses it. *)
Inductive ClaimsOf (M : Type) : Type :=
  | MapClaims (m : M)
  | OtherClaims.
Arguments MapClaims {M} m.
Arguments OtherClaims {M}.

Class Jwt := {
  claims_map : Type;
  (** [jwtParser.ParseUnverified(tokenString, jwt.MapClaims{})]: the claims
      of the parsed token, or the parse error *)
  ParseUnverified : string -> ClaimsOf claims_map + error;
  (** [claims.GetExpirationTime()]: the [exp] claim, [nil] when absent, or
      an error when it is not a date *)
  GetExpirationTime : claims_map -> option Time + error
}.

Section decode.
Context `{Unicode} `{Jwt}.

(** auth.go, [extractTokenExpiration] *)
Definition extractTokenExpiration (tokenString : string) : Time :=
  if stringsx.IsBlank tokenString then Time.zero
  else
    match ParseUnverified tokenString with
    | inr _ => Time.zero
    | inl parsedClaims =>
        match parsedClaims with
        | OtherClaims => Time.zero
        | MapClaims claims =>
            match GetExpirationTime claims with
            | inr _ => Time.zero
            | inl None => Time.zero
            | inl (Some exp) => exp
            end
        end
    end.

End decode.

(** ** Programs made of atomic steps *)

Section Prog.
Context {W Ev : Type}.

(** A program is finished, or offers one atomic step on the shared
    state: the step is not enabled ([None], a lock that is taken), or
    gives the new state, the calls it made and the rest of the program. *)
Inductive Prog (R : Type) : Type :=
  | Ret (r : R)
  | Atom (f : W -> option (W * list Ev * Prog R)).
Arguments Ret {R} r.
Arguments Atom {R} f.

Fixpoint bind {A B} (p : Prog A) (k : A -> Prog B) : Prog B :=
  match p with
  | Ret a => k a
  | Atom f =>
      Atom (fun w =>
              match f w with
              | None => None
              | Some (w', evs, p') => Some (w', evs, bind p' k)
              end)
  end.

(** An atomic step that is always enabled. *)
Definition atomic {A} (f : W -> W * list Ev * A) : Prog A :=
  Atom (fun w => let '(w', evs, a) := f w in Some (w', evs, Ret a)).

(** An atomic step that waits until [f] is enabled. *)
Definition await (f : W -> option W) : Prog unit :=
  Atom (fun w => match f w with
                 | None => None
                 | Some w' => Some (w', [], Ret tt)
                 end).

(** One caller alone: every step is taken as soon as the one before
    ended.  [None] when a step is never enabled. *)
Fixpoint run {R} (p : Prog R) (w : W) : option (W * list Ev * R) :=
  match p with
  | Ret r => Some (w, [], r)
  | Atom f =>
      match f w with
      | None => None
      | Some (w', evs, p') =>
          match run p' w' with
          | None => None
          | Some (w'', evs', r) => Some (w'', evs ++ evs', r)
          end
      end
  end.

(** One caller among others: before its [k]-th step the rest of the
    system has changed the shared state by [envs !! k] (not at all when
    the list has run out). *)
Fixpoint run_among {R} (envs : list (W -> W)) (p : Prog R) (w : W)
  : option (W * list Ev * R) :=
  match p with
  | Ret r => Some (w, [], r)
  | Atom f =>
      match f (hd id envs w) with
      | None => None
      | Some (w', evs, p') =>
          match run_among (tl envs) p' w' with
          | None => None
          | Some (w'', evs', r) => Some (w'', evs ++ evs', r)
          end
      end
  end.

(** Several callers at once: the shared state and what is left of each
    caller's program.  One move of the system is one atomic step of one
    caller, or a change [env] that the rest of the world may make (the
    clock going on). *)
Record Pool (R : Type) := mkPool {
  shared : W;
  threads : list (Prog R)
}.
Arguments mkPool {R} shared threads.
Arguments shared {R} _.
Arguments threads {R} _.

Inductive pool_step {R} (env : W -> W -> Prop)
  : Pool R -> list Ev -> Pool R -> Prop :=
  | step_thread (P : Pool R) (i : nat) f w' evs p' :
      threads P !! i = Some (Atom f) ->
      f (shared P) = Some (w', evs, p') ->
      pool_step env P evs (mkPool w' (<[i := p']> (threads P)))
  | step_env (P : Pool R) w' :
      env (shared P) w' ->
      pool_step env P [] (mkPool w' (threads P)).

(** A run of the system, with all the calls made, in order. *)
Inductive pool_steps {R} (env : W -> W -> Prop)
  : Pool R -> list Ev -> Pool R -> Prop :=
  | steps_refl P : pool_steps env P [] P
  | steps_snoc P evs Q evs' Q' :
      pool_steps env P evs Q ->
      pool_step env Q evs' Q' ->
      pool_steps env P (evs ++ evs') Q'.

(** Caller [i] takes its next step, when it has one that is enabled. *)
Definition fire {R} (i : nat) (P : Pool R) : option (Pool R * list Ev) :=
  match threads P !! i with
  | Some (Atom f) =>
      match f (shared P) with
      | Some (w', evs, p') => Some (mkPool w' (<[i := p']> (threads P)), evs)
      | None => None
      end
  | _ => None
  end.

(** The callers step in the order [turns] gives. *)
Fixpoint schedule {R} (turns : list nat) (P : Pool R)
  : option (Pool R * list Ev) :=
  match turns with
  | [] => Some (P, [])
  | i :: rest =>
      match fire i P with
      | None => None
      | Some (P', evs) =>
          match schedule rest P' with
          | None => None
          | Some (Q, evs') => Some (Q, evs ++ evs')
          end
      end
  end.

(** What a caller has returned, once it has. *)
Definition returned {R} (p : Prog R) : option R :=
  match p with
  | Ret r => Some r
  | Atom _ => None
  end.

(** A caller that can take its next step now. *)
Definition enabled {R} (p : Prog R) (w : W) : bool :=
  match p with
  | Ret _ => false
  | Atom f => match f w with Some _ => true | None => false end
  end.

(** The longest run a caller can make. *)
Inductive steps_left {R} : Prog R -> nat -> Prop :=
  | left_ret r n : steps_left (Ret r) n
  | left_atom f n :
      (forall w w' evs p', f w = Some (w', evs, p') -> steps_left p' n) ->
      steps_left (Atom f) (S n).

(** Every step the program can take from a state in [Inv] ends in [Inv]. *)
Inductive keeps (Inv : W -> Prop) {R} : Prog R -> Prop :=
  | keeps_ret r : keeps Inv (Ret r)
  | keeps_atom f :
      (forall w w' evs p', Inv w -> f w = Some (w', evs, p') -> Inv w') ->
      (forall w w' evs p', Inv w -> f w = Some (w', evs, p') -> keeps Inv p') ->
      keeps Inv (Atom f).

End Prog.

Arguments Prog : clear implicits.
Arguments Pool : clear implicits.
Arguments Ret {W Ev R} r.
Arguments Atom {W Ev R} f.
Arguments mkPool {W Ev R} shared threads.
Arguments shared {W Ev R} _.
Arguments threads {W Ev R} _.

(** [x ← p; k] and [p;; k] sequence programs. *)
#[export] Instance Prog_ret {W Ev} : MRet (Prog W Ev) := fun A r => Ret r.
#[export] Instance Prog_bind {W Ev} : MBind (Prog W Ev) := fun A B k p => bind p k.

(** ** auth.go: the refreshable token store *)

(** [cred.Identity] *)
Record Identity := mkIdentity {
  User : string;
  Secret : string
}.

(** The calls a store makes to its collaborators. *)
Inductive AuthEvent :=
  | IdentityGet
  | RefreshToken (identity : Identity).

Section auth.
Context `{Unicode} `{Jwt}.
(** The state of what lies outside the package: the credential store and
    the token service. *)
Context {E : Type}.

(** [refreshableAuthStore].  [identityReader] stands for
    [identityReader.Get] and [refreshTokenFunc] for the call
    [refreshTokenFunc(as.client, identity)]; [tokenMu] is the atomicity of
    the steps below. *)
Record refreshableAuthStore := mkStore {
  identityReader : E -> E * (Identity + error);
  refreshTokenFunc : E -> Identity -> E * (string + error);
  authRefreshBuffer : Duration;
  token : string;
  tokenExpiration : Time;
  refreshMu : bool
}.

(** [newRefreshableAuthStore] *)
Definition newRefreshableAuthStore
    (identityReader : E -> E * (Identity + error))
    (refreshTokenFunc : E -> Identity -> E * (string + error))
    (authRefreshBuffer : Duration) : refreshableAuthStore :=
  {| identityReader := identityReader;
     refreshTokenFunc := refreshTokenFunc;
     authRefreshBuffer := authRefreshBuffer;
     token := EmptyString;
     tokenExpiration := Time.zero;
     refreshMu := false |}.

(** [getTokenAndCheckExpiryAt] *)
Definition getTokenAndCheckExpiryAt (as_ : refreshableAuthStore) (t : Time)
  : string * bool :=
  (token as_,
   Time.Before (tokenExpiration as_) (Time.Add t (authRefreshBuffer as_))).

(** [getBearerToken] *)
Definition getBearerToken (as_ : refreshableAuthStore) : string := token as_.

(** [getTokenExpiration] *)
Definition getTokenExpiration (as_ : refreshableAuthStore) : Time :=
  tokenExpiration as_.

(** [setBearerToken] *)
Definition setBearerToken (as_ : refreshableAuthStore) (token : string)
  : refreshableAuthStore :=
  {| identityReader := identityReader as_;
     refreshTokenFunc := refreshTokenFunc as_;
     authRefreshBuffer := authRefreshBuffer as_;
     token := token;
     tokenExpiration := extractTokenExpiration token;
     refreshMu := refreshMu as_ |}.

Definition set_refreshMu (as_ : refreshableAuthStore) (held : bool)
  : refreshableAuthStore :=
  {| identityReader := identityReader as_;
     refreshTokenFunc := refreshTokenFunc as_;
     authRefreshBuffer := authRefreshBuffer as_;
     token := token as_;
     tokenExpiration := tokenExpiration as_;
     refreshMu := held |}.

(** What a call on the store can see and change: the system clock, the
    outside and the store. *)
Record World := mkWorld {
  clock : Time;
  outside : E;
  store : refreshableAuthStore
}.

Definition with_store (w : World) (as_ : refreshableAuthStore) : World :=
  {| clock := clock w; outside := outside w; store := as_ |}.

Definition with_clock (w : World) (t : Time) : World :=
  {| clock := t; outside := outside w; store := store w |}.

Local Abbreviation AuthProg := (Prog World AuthEvent).

(** [time.Now()] *)
Definition time_Now : AuthProg Time :=
  atomic (fun w => (w, [], clock w)).

(** [as.getTokenAndCheckExpiryAt(t)], under [tokenMu.RLock] *)
Definition as_getTokenAndCheckExpiryAt (t : Time) : AuthProg (string * bool) :=
  atomic (fun w => (w, [], getTokenAndCheckExpiryAt (store w) t)).

(** [as.getBearerToken()], under [tokenMu.RLock] *)
Definition as_getBearerToken : AuthProg string :=
  atomic (fun w => (w, [], getBearerToken (store w))).

(** [as.getTokenExpiration()], under [tokenMu.RLock] *)
Definition as_getTokenExpiration : AuthProg Time :=
  atomic (fun w => (w, [], getTokenExpiration (store w))).

(** [as.setBearerToken(token)], under [tokenMu.Lock] *)
Definition as_setBearerToken (token : string) : AuthProg unit :=
  atomic (fun w => (with_store w (setBearerToken (store w) token), [], tt)).

(** [as.refreshMu.Lock()]: waits while another caller holds it *)
Definition refreshMu_Lock : AuthProg unit :=
  await (fun w => if refreshMu (store w) then None
                  else Some (with_store w (set_refreshMu (store w) true))).

(** [as.refreshMu.Unlock()] *)
Definition refreshMu_Unlock : AuthProg unit :=
  atomic (fun w => (with_store w (set_refreshMu (store w) false), [], tt)).

(** [as.identityReader.Get()] *)
Definition as_identityReader_Get : AuthProg (Identity + error) :=
  atomic (fun w =>
            let '(o, r) := identityReader (store w) (outside w) in
            ({| clock := clock w; outside := o; store := store w |},
             [IdentityGet], r)).

(** [as.refreshTokenFunc(as.client, identity)] *)
Definition as_refreshTokenFunc (identity : Identity) : AuthProg (string + error) :=
  atomic (fun w =>
            let '(o, r) := refreshTokenFunc (store w) (outside w) identity in
            ({| clock := clock w; outside := o; store := store w |},
             [RefreshToken identity], r)).

(** [getValidToken], lines 63 to 100, cut where another goroutine can run
    in between; the blocks follow the source from its end to its start. *)

(** [return], with the deferred [as.refreshMu.Unlock()] *)
Definition unlock_return (r : string * option error)
  : AuthProg (string * option error) :=
  refreshMu_Unlock;; mret r.

(** [as.setBearerToken(token)] and the [return] after it *)
Definition store_return (token : string) (r : string * option error)
  : AuthProg (string * option error) :=
  as_setBearerToken token;; unlock_return r.

(** lines 90 to 99: refresh the token *)
Definition refresh_with (identity : Identity)
  : AuthProg (string * option error) :=
  r ← as_refreshTokenFunc identity;
  match r with
  | inr err => store_return EmptyString (EmptyString, Some err)
  | inl newToken => store_return newToken (newToken, None)
  end.

(** lines 83 to 88: get the identity *)
Definition get_identity : AuthProg (string * option error) :=
  r ← as_identityReader_Get;
  match r with
  | inr err => store_return EmptyString (EmptyString, Some err)
  | inl identity => refresh_with identity
  end.

(** lines 77 to 81: check again after acquiring the lock *)
Definition check_again (now : Time) : AuthProg (string * option error) :=
  '(token, isExpired) ← as_getTokenAndCheckExpiryAt now;
  if negb isExpired then unlock_return (token, None)
  else get_identity.

(** lines 73 to 75: lock the refresh mutex *)
Definition lock_refresh (now : Time) : AuthProg (string * option error) :=
  refreshMu_Lock;; check_again now.

(** lines 67 to 71: get the token and check if expired *)
Definition check_first (now : Time) : AuthProg (string * option error) :=
  '(token, isExpired) ← as_getTokenAndCheckExpiryAt now;
  if negb isExpired then mret (token, None)
  else lock_refresh now.

(** [refreshableAuthStore.getValidToken] *)
Definition getValidToken : AuthProg (string * option error) :=
  now ← time_Now;
  check_first now.

End auth.

Arguments refreshableAuthStore : clear implicits.
Arguments World : clear implicits.

(** ** The request builder of the HTTP engine *)

(** [req.Request], as far as the package writes to it.  [Payload] is what
    an interceptor's [Apply] may set (headers, cookies); a closure handed to
    the engine is kept as the data it closes over. *)
Inductive RetryCondition :=
  (** [func(resp, err) bool { return store.shouldIntercept(resp, err) }],
      for the store registered under the label *)
  | InterceptCondition (label : string).

Inductive RetryHook :=
  (** the hook of [Client.IR], for the store registered under the label *)
  | RecoverHook (label : string).

Record Request {Payload Response : Type} := mkRequest {
  payload : Payload;
  bearerAuthToken : option string;
  retryCount : option Z;
  afterResponse : list (Response -> option error);
  retryConditions : list RetryCondition;
  retryHooks : list RetryHook
}.
Arguments Request : clear implicits.
Arguments mkRequest {Payload Response}.

Section request.
Context {Payload Response : Type}.
Local Abbreviation Req := (Request Payload Response).

(** [r.OnAfterResponse(m)] *)
Definition OnAfterResponse (r : Req) (m : Response -> option error) : Req :=
  mkRequest (payload r) (bearerAuthToken r) (retryCount r)
            (afterResponse r ++ [m]) (retryConditions r) (retryHooks r).

(** [r.SetBearerAuthToken(token)] *)
Definition SetBearerAuthToken (r : Req) (token : string) : Req :=
  mkRequest (payload r) (Some token) (retryCount r)
            (afterResponse r) (retryConditions r) (retryHooks r).

(** [r.SetRetryCount(count)] *)
Definition SetRetryCount (r : Req) (count : Z) : Req :=
  mkRequest (payload r) (bearerAuthToken r) (Some count)
            (afterResponse r) (retryConditions r) (retryHooks r).

(** [r.AddRetryCondition(c)] *)
Definition AddRetryCondition (r : Req) (c : RetryCondition) : Req :=
  mkRequest (payload r) (bearerAuthToken r) (retryCount r)
            (afterResponse r) (retryConditions r ++ [c]) (retryHooks r).

(** [r.AddRetryHook(h)] *)
Definition AddRetryHook (r : Req) (h : RetryHook) : Req :=
  mkRequest (payload r) (bearerAuthToken r) (retryCount r)
            (afterResponse r) (retryConditions r) (retryHooks r ++ [h]).

(** The engine's contract for the hooks of [OnAfterResponse]: they run on
    the response in order, and the first error one of them returns is the
    error of the send. *)
Fixpoint first_error (hooks : list (Response -> option error)) (resp : Response)
  : option error :=
  match hooks with
  | [] => None
  | m :: rest =>
      match m resp with
      | Some err => Some err
      | None => first_error rest resp
      end
  end.

Definition send_error (r : Req) (resp : Response) : option error :=
  first_error (afterResponse r) resp.

End request.

(** ** interceptor.go *)

Definition defaultMaxRetries : Z := 1.

(** [Interceptor]: the four methods, over the state [I] of the
    implementation and of whatever [Recover] reaches through the client.
    A response that may be [nil] is an [option]. *)
Class Interceptor (I Payload Response : Type) := {
  ShouldIntercept : I -> option Response -> option error -> bool;
  Recover : I -> option Response -> I * option error;
  (** the request [r] points to, once [Apply(r)] has returned *)
  Apply : I -> Request Payload Response -> Request Payload Response;
  MaxRetries : I -> Z
}.

(** The calls a store makes to its interceptor. *)
Inductive InterceptEvent :=
  | RecoverCall
  | ApplyCall.

Section interceptor.
Context {I Payload Response : Type} `{Interceptor I Payload Response}.
Local Abbreviation Req := (Request Payload Response).

(** [interceptorStore]; [generation] is a uint64, [mu] the atomicity of the
    methods. *)
Record interceptorStore := mkInterceptorStore {
  interceptor : I;
  generation : Z
}.

(** [newInterceptorStore] *)
Definition newInterceptorStore (interceptor : I) : interceptorStore :=
  {| interceptor := interceptor; generation := 0 |}.

(** [shouldIntercept] *)
Definition shouldIntercept (s : interceptorStore) (resp : option Response)
    (err : option error) : bool :=
  ShouldIntercept (interceptor s) resp err.

(** [getGeneration] *)
Definition getGeneration (s : interceptorStore) : Z := generation s.

(** [recover]: the store left behind, the calls made and the error
    returned *)
Definition recover (s : interceptorStore) (resp : option Response) (genBefore : Z)
  : interceptorStore * list InterceptEvent * option error :=
  if negb (generation s =? genBefore) then (s, [], None)
  else
    let '(i, err) := Recover (interceptor s) resp in
    match err with
    | None =>
        ({| interceptor := i; generation := (generation s + 1) mod 2 ^ 64 |},
         [RecoverCall], None)
    | Some _ =>
        ({| interceptor := i; generation := generation s |}, [RecoverCall], err)
    end.

(** [apply] *)
Definition apply (s : interceptorStore) (r : Req) : Req :=
  Apply (interceptor s) r.

(** [maxRetries] *)
Definition maxRetries (s : interceptorStore) : Z :=
  let max := MaxRetries (interceptor s) in
  if max <=? 0 then defaultMaxRetries else max.

Local Abbreviation StoreProg := (Prog interceptorStore InterceptEvent).

(** The methods as steps of a request's goroutine. *)
Definition store_getGeneration : StoreProg Z :=
  atomic (fun s => (s, [], getGeneration s)).

Definition store_apply (r : Req) : StoreProg Req :=
  atomic (fun s => (s, [ApplyCall], apply s r)).

Definition store_maxRetries : StoreProg Z :=
  atomic (fun s => (s, [], maxRetries s)).

Definition store_recover (resp : option Response) (genBefore : Z)
  : StoreProg (option error) :=
  atomic (fun s => recover s resp genBefore).

(** What the closures of one intercepted request share: the request and
    the captured generation. *)
Record Intercepted := mkIntercepted {
  request : Req;
  initGen : Z
}.

(** client.go, [Client.IR], lines 188 to 204: the retry hook *)
Definition retryHook (st : Intercepted) (resp : option Response)
    (err : option error) : StoreProg Intercepted :=
  currentGen ← store_getGeneration;
  if negb (currentGen =? initGen st) then
    r ← store_apply (request st);
    mret {| request := r; initGen := currentGen |}
  else
    recoverErr ← store_recover resp currentGen;
    match recoverErr with
    | None =>
        r ← store_apply (request st);
        gen ← store_getGeneration;
        mret {| request := r; initGen := gen |}
    | Some _ => mret st
    end.

(** The methods of a store, as the calls made on it.  Each runs under
    [mu] from start to end, so the calls of all goroutines on one store come
    one after the other. *)
Inductive StoreOp :=
  | OpShouldIntercept (resp : option Response) (err : option error)
  | OpGetGeneration
  | OpRecover (resp : option Response) (genBefore : Z)
  | OpApply (r : Req)
  | OpMaxRetries.

(** The store a call leaves behind. *)
Definition do_op (s : interceptorStore) (op : StoreOp) : interceptorStore :=
  match op with
  | OpRecover resp genBefore => (recover s resp genBefore).1.1
  | _ => s
  end.

Definition do_ops (s : interceptorStore) (ops : list StoreOp) : interceptorStore :=
  fold_left do_op ops s.

(** The call is a [recover] that does not skip and in which
    [Interceptor.Recover] returns no error. *)
Definition recovers (s : interceptorStore) (op : StoreOp) : bool :=
  match op with
  | OpRecover resp genBefore =>
      (generation s =? genBefore)
      && match (Recover (interceptor s) resp).2 with
         | None => true
         | Some _ => false
         end
  | _ => false
  end.

(** How many of the calls recover. *)
Fixpoint recoveries (s : interceptorStore) (ops : list StoreOp) : nat :=
  match ops with
  | [] => O
  | op :: rest =>
      ((if recovers s op then 1 else 0) + recoveries (do_op s op) rest)%nat
  end.

End interceptor.

Arguments interceptorStore : clear implicits.
Arguments Intercepted : clear implicits.
Arguments StoreOp : clear implicits.

(** ** client.go: the registries *)

Definition defaultAuthRefreshBuffer : Duration := 2 * Time.Minute.

(** [Options], the field the stores depend on *)
Record Options := mkOptions {
  AuthRefreshBuffer : Duration
}.

Section client.
Context `{Unicode} `{Jwt}.
Context {E I Payload Response : Type} `{Interceptor I Payload Response}.
Local Abbreviation Req := (Request Payload Response).

(** [authStore] and its two implementations *)
Inductive authStore :=
  | tokenAuthStore (t : string)
  | refreshableStore (as_ : refreshableAuthStore E).

(** [newTokenAuthStore] *)
Definition newTokenAuthStore (token : string) : authStore := tokenAuthStore token.

(** [Client].  Of the engine's client, [blank] is the payload of a new
    request. *)
Record Client := mkClient {
  blank : Payload;
  client_authRefreshBuffer : Duration;
  auths : gmap string authStore;
  interceptors : gmap string (interceptorStore I)
}.

(** [NewClient] *)
Definition NewClient (blank : Payload) (opts : Options) : Client :=
  let buffer :=
    if AuthRefreshBuffer opts <=? 0 then defaultAuthRefreshBuffer
    else AuthRefreshBuffer opts in
  {| blank := blank;
     client_authRefreshBuffer := buffer;
     auths := ∅;
     interceptors := ∅ |}.

(** [RegisterAuth] *)
Definition RegisterAuth (c : Client) (serviceLabel : string)
    (identityReader : E -> E * (Identity + error))
    (refreshFunc : E -> Identity -> E * (string + error)) : Client :=
  {| blank := blank c;
     client_authRefreshBuffer := client_authRefreshBuffer c;
     auths := <[serviceLabel :=
                  refreshableStore
                    (newRefreshableAuthStore identityReader refreshFunc
                                             (client_authRefreshBuffer c))]>
                (auths c);
     interceptors := interceptors c |}.

(** [RegisterToken] *)
Definition RegisterToken (c : Client) (serviceLabel : string) (token : string)
  : Client :=
  {| blank := blank c;
     client_authRefreshBuffer := client_authRefreshBuffer c;
     auths := <[serviceLabel := newTokenAuthStore token]> (auths c);
     interceptors := interceptors c |}.

(** [UnregisterAuth] *)
Definition UnregisterAuth (c : Client) (serviceLabel : string) : Client :=
  {| blank := blank c;
     client_authRefreshBuffer := client_authRefreshBuffer c;
     auths := delete serviceLabel (auths c);
     interceptors := interceptors c |}.

(** [RegisterInterceptor] *)
Definition RegisterInterceptor (c : Client) (label : string) (interceptor : I)
  : Client :=
  {| blank := blank c;
     client_authRefreshBuffer := client_authRefreshBuffer c;
     auths := auths c;
     interceptors := <[label := newInterceptorStore interceptor]> (interceptors c) |}.

(** [UnregisterInterceptor] *)
Definition UnregisterInterceptor (c : Client) (label : string) : Client :=
  {| blank := blank c;
     client_authRefreshBuffer := client_authRefreshBuffer c;
     auths := auths c;
     interceptors := delete label (interceptors c) |}.

(** [R]: a new request of the engine's client, with nothing set on it yet *)
Definition R (c : Client) : Req := mkRequest (blank c) None None [] [] [].

(** [authStore.getValidToken] of either implementation, for one caller
    alone at the instant [now] of the clock: the store and the outside left
    behind, the calls made and the result.  [None] when the refresh lock is
    never released. *)
Definition authStore_getValidToken (a : authStore) (now : Time) (o : E)
  : option (authStore * E * list AuthEvent * (string * option error)) :=
  match a with
  | tokenAuthStore t => Some (a, o, [], (t, None))
  | refreshableStore as_ =>
      match run getValidToken {| clock := now; outside := o; store := as_ |} with
      | None => None
      | Some (w, evs, r) => Some (refreshableStore (store w), outside w, evs, r)
      end
  end.

(** [Client.AR]: the request, and the client and the outside left behind *)
Definition AR (c : Client) (now : Time) (o : E) (serviceLabel : string)
  : option (Req * Client * E * list AuthEvent) :=
  match auths c !! serviceLabel with
  | None =>
      Some (OnAfterResponse (R c)
              (fun _ => Some ("auth manager for service " +:+ serviceLabel
                              +:+ " does not exist")),
            c, o, [])
  | Some authManager =>
      match authStore_getValidToken authManager now o with
      | None => None
      | Some (authManager', o', evs, (token, err)) =>
          let c' := {| blank := blank c;
                       client_authRefreshBuffer := client_authRefreshBuffer c;
                       auths := <[serviceLabel := authManager']> (auths c);
                       interceptors := interceptors c |} in
          match err with
          | Some e => Some (OnAfterResponse (R c) (fun _ => Some e), c', o', evs)
          | None => Some (SetBearerAuthToken (R c) token, c', o', evs)
          end
      end
  end.

(** [Client.IR], for one caller alone: the request, and the generation its
    closures captured (none for a request wired to fail) *)
Definition IR (c : Client) (label : string) : Req * option Z :=
  match interceptors c !! label with
  | None =>
      (OnAfterResponse (R c)
         (fun _ => Some ("interceptor " +:+ label +:+ " does not exist")),
       None)
  | Some store =>
      let r := apply store (R c) in
      let r := SetRetryCount r (maxRetries store) in
      let initGen := getGeneration store in
      let r := AddRetryCondition r (InterceptCondition label) in
      let r := AddRetryHook r (RecoverHook label) in
      (r, Some initGen)
  end.

End client.

Arguments authStore : clear implicits.
Arguments Client : clear implicits.

(** ** Stand-ins for the collaborators, to run the definitions on *)

Module Sample.

(** Every byte is a rune of width one; the spaces above ASCII are NEL and
    NBSP. *)
#[local] Instance unicode : Unicode := {|
  rune := Z;
  DecodeRuneInString := fun s =>
    match s with
    | EmptyString => (65533, 0%nat)
    | String c _ => (stringsx.byte_val c, 1%nat)
    end;
  unicode_IsSpace := fun r => (r =? 133) || (r =? 160)
|}.

Fixpoint digits (s : string) (acc : Z) : option Z :=
  match s with
  | EmptyString => Some acc
  | String c rest =>
      let v := stringsx.byte_val c - 48 in
      if (0 <=? v) && (v <=? 9) then digits rest (10 * acc + v) else None
  end.

(** A token is the letter J followed by its expiration in decimal, or by
    nothing when it carries no expiration. *)
#[local] Instance jwt : Jwt := {|
  claims_map := option Time;
  ParseUnverified := fun s =>
    match s with
    | String "J"%char EmptyString => inl (MapClaims None)
    | String "J"%char rest =>
        match digits rest 0 with
        | Some exp => inl (MapClaims (Some exp))
        | None => inr "token is malformed"%string
        end
    | _ => inr "token is malformed"%string
    end;
  GetExpirationTime := fun m => inl m
|}.

Definition identity : Identity :=
  {| User := "testuser"; Secret := "testsecret" |}.

(** The outside counts the refreshes it has served. *)
Definition reader_ok (n : nat) : nat * (Identity + error) := (n, inl identity).

Definition reader_fails (n : nat) : nat * (Identity + error) :=
  (n, inr "credential not found"%string).

Definition refresh_to (tok : string) (n : nat) (_ : Identity)
  : nat * (string + error) := (S n, inl tok).

Definition refresh_fails (n : nat) (_ : Identity) : nat * (string + error) :=
  (S n, inr "failed to refresh"%string).

(** October 31, 2026, 00:00 UTC *)
Definition today : Time := Time.unixEpoch + 1793404800 * Time.Second.

(** expires one hour after [today] *)
Definition token_1h : string := "J63929005200000000000".
(** expires thirty seconds after [today] *)
Definition token_30s : string := "J63929001630000000000".
(** expires exactly two minutes after [today] *)
Definition token_2m : string := "J63929001720000000000".
(** expires two minutes and one second after [today] *)
Definition token_121s : string := "J63929001721000000000".

Definition store_with (reader : nat -> nat * (Identity + error))
    (refresh : nat -> Identity -> nat * (string + error)) (tok : string)
  : refreshableAuthStore nat :=
  setBearerToken (newRefreshableAuthStore reader refresh (2 * Time.Minute)) tok.

Definition world_with (reader : nat -> nat * (Identity + error))
    (refresh : nat -> Identity -> nat * (string + error)) (tok : string)
  : World nat :=
  {| clock := today; outside := 0%nat; store := store_with reader refresh tok |}.

(** An interceptor that holds a session number, renewed by [Recover] unless
    the service is down; a response is its status code. *)
Record session := mkSession {
  number : nat;
  down : bool
}.

#[local] Instance session_interceptor : Interceptor session nat Z := {|
  ShouldIntercept := fun _ resp _ =>
    match resp with Some 403 => true | _ => false end;
  Recover := fun i _ =>
    if down i then (i, Some "recovery failed"%string)
    else ({| number := S (number i); down := false |}, None);
  Apply := fun i r =>
    mkRequest (number i) (bearerAuthToken r) (retryCount r)
              (afterResponse r) (retryConditions r) (retryHooks r);
  MaxRetries := fun _ => 0
|}.

Definition blank_request : Request nat Z := mkRequest 0%nat None None [] [] [].

Definition intercepted (gen : Z) : Intercepted nat Z :=
  {| request := blank_request; initGen := gen |}.

Definition session_store (n : nat) (is_down : bool) (gen : Z) : interceptorStore session :=
  {| interceptor := {| number := n; down := is_down |}; generation := gen |}.

End Sample.

(** ** The vocabulary of the properties *)

Section vocabulary.
Context `{Unicode} `{Jwt} {E : Type}.

(** The instant before which a cached expiration counts as stale, for a
    call that enters when the clock shows [clock w]. *)
Definition deadline (w : World E) : Time :=
  Time.Add (clock w) (authRefreshBuffer (store w)).

(** The credential fetch, or else the refresh with the credential fetched,
    answers with the error [err]. *)
Definition refresh_fails_with (w : World E) (err : error) : Prop :=
  match identityReader (store w) (outside w) with
  | (_, inr e) => e = err
  | (o, inl identity) =>
      match refreshTokenFunc (store w) o identity with
      | (_, inr e) => e = err
      | (_, inl _) => False
      end
  end.


(** The cache of a store: a token that is not empty comes with the
    expiration decoded from it. *)
Definition cache_inv (as_ : refreshableAuthStore E) : Prop :=
  token as_ <> EmptyString ->
  tokenExpiration as_ = extractTokenExpiration (token as_).

(** The methods of a store, as calls that goroutines make at once. *)
Inductive StoreCall :=
  | CallGetValidToken
  | CallGetTokenAndCheckExpiryAt (t : Time)
  | CallGetBearerToken
  | CallGetTokenExpiration
  | CallSetBearerToken (token : string).

Definition call_prog (c : StoreCall) : Prog (World E) AuthEvent unit :=
  match c with
  | CallGetValidToken => getValidToken;; mret tt
  | CallGetTokenAndCheckExpiryAt t => as_getTokenAndCheckExpiryAt t;; mret tt
  | CallGetBearerToken => as_getBearerToken;; mret tt
  | CallGetTokenExpiration => as_getTokenExpiration;; mret tt
  | CallSetBearerToken token => as_setBearerToken token
  end.

(** What goes on around the callers: the clock and the outside change, the
    store does not. *)
Definition around (w w' : World E) : Prop := store w' = store w.

End vocabulary.

(** *** The program points of [getValidToken] *)

Section points.
Context `{Unicode} `{Jwt} {E : Type}.

(** Where a caller of [getValidToken] stands, with the values it holds. *)
Inductive Point :=
  | AtEntry
  | AtFirstCheck (now : Time)
  | AtLock (now : Time)
  | AtSecondCheck (now : Time)
  | AtIdentity
  | AtRefresh (identity : Identity)
  | AtStore (token : string) (r : string * option error)
  | AtUnlock (r : string * option error)
  | AtDone (r : string * option error).

(** What is left of [getValidToken] at a point. *)
Definition code (pt : Point) : Prog (World E) AuthEvent (string * option error) :=
  match pt with
  | AtEntry => getValidToken
  | AtFirstCheck now => check_first now
  | AtLock now => lock_refresh now
  | AtSecondCheck now => check_again now
  | AtIdentity => get_identity
  | AtRefresh identity => refresh_with identity
  | AtStore token r => store_return token r
  | AtUnlock r => unlock_return r
  | AtDone r => Ret r
  end.

(** The step from a point to the next. *)
Definition next (pt : Point) (w : World E)
  : option (World E * list AuthEvent * Point) :=
  match pt with
  | AtEntry => Some (w, [], AtFirstCheck (clock w))
  | AtFirstCheck now =>
      let '(token, isExpired) := getTokenAndCheckExpiryAt (store w) now in
      Some (w, [], if negb isExpired then AtDone (token, None) else AtLock now)
  | AtLock now =>
      if refreshMu (store w) then None
      else Some (with_store w (set_refreshMu (store w) true), [], AtSecondCheck now)
  | AtSecondCheck now =>
      let '(token, isExpired) := getTokenAndCheckExpiryAt (store w) now in
      Some (w, [], if negb isExpired then AtUnlock (token, None) else AtIdentity)
  | AtIdentity =>
      let '(o, r) := identityReader (store w) (outside w) in
      Some ({| clock := clock w; outside := o; store := store w |}, [IdentityGet],
            match r with
            | inr err => AtStore EmptyString (EmptyString, Some err)
            | inl cred => AtRefresh cred
            end)
  | AtRefresh cred =>
      let '(o, r) := refreshTokenFunc (store w) (outside w) cred in
      Some ({| clock := clock w; outside := o; store := store w |},
            [RefreshToken cred],
            match r with
            | inr err => AtStore EmptyString (EmptyString, Some err)
            | inl newToken => AtStore newToken (newToken, None)
            end)
  | AtStore token r =>
      Some (with_store w (setBearerToken (store w) token), [], AtUnlock r)
  | AtUnlock r =>
      Some (with_store w (set_refreshMu (store w) false), [], AtDone r)
  | AtDone _ => None
  end.

(** The points between [refreshMu.Lock()] and [refreshMu.Unlock()]. *)
Definition holds (pt : Point) : bool :=
  match pt with
  | AtSecondCheck _ | AtIdentity | AtRefresh _ | AtStore _ _ | AtUnlock _ => true
  | AtEntry | AtFirstCheck _ | AtLock _ | AtDone _ => false
  end.

(** The steps a caller at a point is from returning, at most. *)
Definition remaining (pt : Point) : nat :=
  match pt with
  | AtEntry => 8
  | AtFirstCheck _ => 7
  | AtLock _ => 6
  | AtSecondCheck _ => 5
  | AtIdentity => 4
  | AtRefresh _ => 3
  | AtStore _ _ => 2
  | AtUnlock _ => 1
  | AtDone _ => 0
  end.

(** How far a store is with its one refresh. *)
Inductive Phase :=
  | Stale
  | Refreshing (newToken : string)
  | Refreshed (newToken : string).

End points.

(** The calls of the refresh function among the calls made. *)
Fixpoint refreshes (evs : list AuthEvent) : nat :=
  match evs with
  | [] => O
  | RefreshToken _ :: rest => S (refreshes rest)
  | IdentityGet :: rest => refreshes rest
  end.

Section herd.
Context `{Unicode} `{Jwt} {E : Type}.

(** Around the callers the clock and the outside change, the clock staying
    between [lo] and [hi]; the store does not. *)
Definition around_within (lo hi : Time) (w w' : World E) : Prop :=
  store w' = store w /\ lo <= clock w' <= hi.

(** The credential fetch always succeeds. *)
Definition reader_succeeds (as_ : refreshableAuthStore E) : Prop :=
  forall o, exists o' identity, identityReader as_ o = (o', inl identity).

(** The refresh always succeeds, with a token that stays fresh for every
    caller that enters up to the instant [hi]. *)
Definition refresh_succeeds (as_ : refreshableAuthStore E) (hi : Time) : Prop :=
  forall o identity, exists o' newToken,
    refreshTokenFunc as_ o identity = (o', inl newToken)
    /\ Time.Add hi (authRefreshBuffer as_) <= extractTokenExpiration newToken.

(** What a caller at a point may hold, by how far the refresh is. *)
Definition ok_point (lo hi : Time) (ph : Phase) (pt : Point) : Prop :=
  match pt with
  | AtEntry => True
  | AtFirstCheck now | AtLock now => lo <= now <= hi
  | AtSecondCheck now =>
      lo <= now <= hi /\ (ph = Stale \/ exists tok, ph = Refreshed tok)
  | AtIdentity | AtRefresh _ => ph = Stale
  | AtStore tok r => ph = Refreshing tok /\ r = (tok, None)
  | AtUnlock r | AtDone r => exists tok, ph = Refreshed tok /\ r = (tok, None)
  end.

(** The state of the callers of one store that found it stale: [as0] is
    the store they started from, [pts] where each of them stands, [holder]
    the one that holds the refresh lock. *)
Record herd_inv (as0 : refreshableAuthStore E) (lo hi : Time)
    (ph : Phase) (holder : option nat)
    (pts : list Point) (w : World E) (evs : list AuthEvent) : Prop := {
  inv_reader : identityReader (store w) = identityReader as0;
  inv_refresh : refreshTokenFunc (store w) = refreshTokenFunc as0;
  inv_buffer : authRefreshBuffer (store w) = authRefreshBuffer as0;
  inv_clock : lo <= clock w <= hi;
  inv_lock : refreshMu (store w) = bool_decide (is_Some holder);
  inv_holder : forall i pt, pts !! i = Some pt ->
                 (holds pt = true <-> holder = Some i);
  inv_holder_in : forall i, holder = Some i -> is_Some (pts !! i);
  inv_cache :
    match ph with
    | Stale | Refreshing _ => tokenExpiration (store w) = tokenExpiration as0
    | Refreshed tok =>
        token (store w) = tok
        /\ tokenExpiration (store w) = extractTokenExpiration tok
    end;
  inv_new :
    match ph with
    | Stale => True
    | Refreshing tok | Refreshed tok =>
        Time.Add hi (authRefreshBuffer as0) <= extractTokenExpiration tok
        /\ exists o identity o',
             refreshTokenFunc as0 o identity = (o', inl tok)
    end;
  inv_refreshing : forall tok, ph = Refreshing tok -> is_Some holder;
  inv_count :
    refreshes evs = match ph with Stale => O | _ => 1%nat end;
  inv_points : forall i pt, pts !! i = Some pt -> ok_point lo hi ph pt
}.

End herd.

(** Single flight without a condition on the refresh: however the callers
    that find the cache stale are scheduled, the refresh function is called
    at most once and the callers that return all return one token. *)
Definition single_flight_unconditional : Prop :=
  forall (U : Unicode) (J : Jwt) (E : Type) (w0 : World E) (N : nat) evs Q,
    refreshMu (store w0) = false ->
    tokenExpiration (store w0) < deadline w0 ->
    pool_steps around (mkPool w0 (replicate N getValidToken)) evs Q ->
    (refreshes evs <= 1)%nat
    /\ exists newToken, forall i r,
         threads Q !! i = Some (Ret r) -> r = (newToken, None).

(** The staleness rule with the boundary on the stale side: a cached
    expiration exactly at the deadline would start a refresh. *)
Definition stale_at_the_deadline : Prop :=
  forall (U : Unicode) (J : Jwt) (E : Type) (w : World E),
    refreshMu (store w) = false ->
    (deadline w < tokenExpiration (store w) ->
     run getValidToken w = Some (w, [], (token (store w), None)))
    /\ (tokenExpiration (store w) <= deadline w ->
        exists w' evs r, run getValidToken w = Some (w', IdentityGet :: evs, r)).

(** * Further code of the packages *)

(** ** stringsx: the other blank tests *)

Section blank.
Context `{Unicode}.

(** [IsAsciiSpace] *)
Definition IsAsciiSpace (c : ascii) : bool := stringsx.asciiSpace c =? 1.

(** [IsNotBlank] *)
Definition IsNotBlank (value : string) : bool := negb (stringsx.IsBlank value).

(** [IsBlankPtr]; a [*string] is an [option], [nil] is [None] *)
Definition IsBlankPtr (ptr : option string) : bool :=
  match ptr with
  | None => true
  | Some value => stringsx.IsBlank value
  end.

(** [IsNotBlankPtr] *)
Definition IsNotBlankPtr (ptr : option string) : bool := negb (IsBlankPtr ptr).

(** [UpdateIfExists]: what [ptr] points to afterwards *)
Definition UpdateIfExists (ptr : option string) (value : string) : option string :=
  match ptr with
  | Some old => if IsNotBlank value then Some value else Some old
  | None => None
  end.

End blank.

(** Every byte of the string passes the test. *)
Fixpoint all_bytes (test : ascii -> bool) (s : string) : bool :=
  match s with
  | EmptyString => true
  | String c rest => test c && all_bytes test rest
  end.

(** A byte below [utf8.RuneSelf]. *)
Definition is_ascii (c : ascii) : bool := stringsx.byte_val c <? stringsx.RuneSelf.

(** ** The refresh lock, whatever the collaborators answer *)

Section lock.
Context `{Unicode} `{Jwt} {E : Type}.

(** What a caller at a point holds, against the cache. *)
Definition pt_sound (w : World E) (pt : Point) : Prop :=
  match pt with
  | AtStore tok r => r.1 = tok /\ (is_Some r.2 -> tok = EmptyString)
  | AtUnlock r =>
      token (store w) = r.1
      /\ (is_Some r.2 ->
          r.1 = EmptyString /\ tokenExpiration (store w) = Time.zero)
  | AtDone r => is_Some r.2 -> r.1 = EmptyString
  | _ => True
  end.

(** The state of the callers of one store: [pts] where each of them stands,
    [holder] the one that holds the refresh lock. *)
Record lock_inv (holder : option nat) (pts : list Point) (w : World E) : Prop := {
  lock_held : refreshMu (store w) = bool_decide (is_Some holder);
  lock_holder : forall i pt, pts !! i = Some pt ->
                  (holds pt = true <-> holder = Some i);
  lock_holder_in : forall i, holder = Some i -> is_Some (pts !! i);
  lock_sound : forall i pt, pts !! i = Some pt -> pt_sound w pt
}.

End lock.

(** ** The calls on a client *)

Section client_calls.
Context `{Unicode} `{Jwt}.
Context {E I Payload Response : Type} `{Interceptor I Payload Response}.

(** The methods of a [Client] that write to it, as calls made one after the
    other.  An [AR] is made at an instant of the clock and on the outside as
    it is then. *)
Inductive ClientCall :=
  | CallRegisterAuth (serviceLabel : string)
      (identityReader : E -> E * (Identity + error))
      (refreshFunc : E -> Identity -> E * (string + error))
  | CallRegisterToken (serviceLabel : string) (token : string)
  | CallUnregisterAuth (serviceLabel : string)
  | CallRegisterInterceptor (label : string) (interceptor : I)
  | CallUnregisterInterceptor (label : string)
  | CallAR (serviceLabel : string) (now : Time) (o : E).

(** The client a call leaves behind. *)
Definition do_call (c : Client E I Payload) (call : ClientCall) : Client E I Payload :=
  match call with
  | CallRegisterAuth l reader refresh => RegisterAuth c l reader refresh
  | CallRegisterToken l token => RegisterToken c l token
  | CallUnregisterAuth l => UnregisterAuth c l
  | CallRegisterInterceptor l i => RegisterInterceptor c l i
  | CallUnregisterInterceptor l => UnregisterInterceptor c l
  | CallAR l now o =>
      match AR (Response:=Response) c now o l with
      | Some (_, c', _, _) => c'
      | None => c
      end
  end.

Definition do_calls (c : Client E I Payload) (calls : list ClientCall)
  : Client E I Payload :=
  fold_left do_call calls c.

(** The label of the auth registry a call writes to, and the label of the
    interceptor registry. *)
Definition auth_label (call : ClientCall) : option string :=
  match call with
  | CallRegisterAuth l _ _ | CallRegisterToken l _ | CallUnregisterAuth l
  | CallAR l _ _ => Some l
  | CallRegisterInterceptor _ _ | CallUnregisterInterceptor _ => None
  end.

Definition interceptor_label (call : ClientCall) : option string :=
  match call with
  | CallRegisterInterceptor l _ | CallUnregisterInterceptor l => Some l
  | _ => None
  end.

(** What the caller of [AR] sees: the request, the outside left behind and
    the calls made. *)
Definition AR_view (c : Client E I Payload) (now : Time) (o : E) (label : string)
  : option (Request Payload Response * E * list AuthEvent) :=
  match AR c now o label with
  | Some (r, _, o', evs) => Some (r, o', evs)
  | None => None
  end.

(** The stores of the auth registry as the methods of the client leave
    them. *)
Definition registry_ok (c : Client E I Payload) : Prop :=
  0 < client_authRefreshBuffer c
  /\ forall label as_,
       auths c !! label = Some (refreshableStore as_) ->
       authRefreshBuffer as_ = client_authRefreshBuffer c
       /\ refreshMu as_ = false
       /\ tokenExpiration as_ = extractTokenExpiration (token as_).

End client_calls.

Arguments ClientCall : clear implicits.

(** ** client.go: the settings of the engine and the cause of an error *)

(** [Options], the fields [newRetryClient] hands to the engine after it has
    put the defaults in *)
Record RetryOptions := mkRetryOptions {
  RetryCount : Z;
  MinBackoff : Duration;
  MaxBackoff : Duration;
  Timeout : Duration
}.

Definition defaultRetryCount : Z := 4.
Definition defaultMinBackoff : Duration := 10 * 1000000.
Definition defaultMaxBackoff : Duration := 500 * 1000000.
Definition defaultTimeout : Duration := 10 * Time.Second.

(** [newRetryClient], lines 238 to 259: what [SetTimeout],
    [SetCommonRetryCount] and [SetCommonRetryBackoffInterval] receive *)
Definition newRetryClient (opts : RetryOptions) : RetryOptions :=
  let opts := if RetryCount opts <? 0
              then mkRetryOptions defaultRetryCount (MinBackoff opts)
                                  (MaxBackoff opts) (Timeout opts)
              else opts in
  let opts := if MinBackoff opts <=? 0
              then mkRetryOptions (RetryCount opts) defaultMinBackoff
                                  (MaxBackoff opts) (Timeout opts)
              else opts in
  let opts := if MaxBackoff opts <=? 0
              then mkRetryOptions (RetryCount opts) (MinBackoff opts)
                                  defaultMaxBackoff (Timeout opts)
              else opts in
  let opts := if Timeout opts <=? 0
              then mkRetryOptions (RetryCount opts) (MinBackoff opts)
                                  (MaxBackoff opts) defaultTimeout
              else opts in
  opts.

(** [req.Response], as far as [responseErrorCause] reads it.  The struct
    embeds a [*http.Response], whose [StatusCode] and [Body] are read
    through the embedding, and points to its [*req.Request]; either
    pointer may be nil, and a read through a nil pointer panics.
    [IsErrorState()] and [GetContentType()] are methods of the engine:
    their results are taken as given. *)
Record RequestLine := mkRequestLine {
  Method : string;
  RawURL : string
}.

Record HttpPart := mkHttpPart {
  StatusCode : Z;
  hasBody : bool
}.

Record HttpResponse := mkHttpResponse {
  Err : option error;
  Http : option HttpPart;
  IsErrorState : bool;
  GetContentType : string;
  OfRequest : option RequestLine
}.

Definition JsonApplicationContentType : string := "application/json".
Definition ErrResponseNil : error := "response is nil".
Definition ErrResponseBodyNil : error := "response body is nil".

(** What a call comes to: it returns an error or nil, or it panics on a
    nil pointer. *)
Inductive Outcome :=
  | Returns (e : option error)
  | Panics.

(** [rawURL] *)
Definition rawURL (req : option RequestLine) : string :=
  match req with
  | None => EmptyString
  | Some r => RawURL r
  end.

(** [responseErrorCause].  The arguments of [fmt.Errorf] are evaluated
    from left to right: [response.Request.Method] first. *)
Definition responseErrorCause (response : option HttpResponse) (err : option error)
  : Outcome :=
  match err, response with
  | Some e, _ => Returns (Some e)
  | None, None => Returns (Some ErrResponseNil)
  | None, Some r =>
      match Err r with
      | Some e => Returns (Some e)
      | None =>
          if IsErrorState r then
            match OfRequest r, Http r with
            | Some request, Some http =>
                Returns (Some ("error request " +:+ Method request +:+ " "
                               +:+ rawURL (OfRequest r) +:+ " with status "
                               +:+ pretty (StatusCode http)))
            | _, _ => Panics
            end
          else if String.eqb (GetContentType r) JsonApplicationContentType then
            match Http r with
            | Some http =>
                if negb (hasBody http) then Returns (Some ErrResponseBodyNil)
                else Returns None
            | None => Panics
            end
          else Returns None
      end
  end.

(** ** The retry hooks of several requests on one store *)

(** How many times [Interceptor.Recover] was called. *)
Fixpoint recover_calls (evs : list InterceptEvent) : nat :=
  match evs with
  | [] => O
  | RecoverCall :: rest => S (recover_calls rest)
  | ApplyCall :: rest => recover_calls rest
  end.

Section hooks.
Context {I Payload Response : Type} `{Interceptor I Payload Response}.
Local Abbreviation Req := (Request Payload Response).
Local Abbreviation Hooked := (Intercepted Payload Response).

(** The hooks a request runs, one failed attempt after the other, each on
    what the one before left. *)
Fixpoint run_hooks (attempts : list (option Response * option error))
    (st : Hooked) (s : interceptorStore I)
  : option (interceptorStore I * list InterceptEvent * Hooked) :=
  match attempts with
  | [] => Some (s, [], st)
  | (resp, err) :: rest =>
      match run (retryHook st resp err) s with
      | None => None
      | Some (s1, evs1, st1) =>
          match run_hooks rest st1 s1 with
          | None => None
          | Some (s2, evs2, st2) => Some (s2, evs1 ++ evs2, st2)
          end
      end
  end.

(** Where a goroutine is in [retryHook]: before each of its calls on the
    store, with the locals it holds. *)
Inductive HookPoint :=
  | HookEntry (st : Hooked) (resp : option Response)
  | HookApplyOnly (st : Hooked) (currentGen : Z)
  | HookRecover (st : Hooked) (resp : option Response) (currentGen : Z)
  | HookReapply (st : Hooked)
  | HookReread (r : Req)
  | HookDone (st : Hooked).

(** What is left of [retryHook] at a point. *)
Definition hook_code (pt : HookPoint)
  : Prog (interceptorStore I) InterceptEvent Hooked :=
  match pt with
  | HookEntry st resp => retryHook st resp None
  | HookApplyOnly st currentGen =>
      r ← store_apply (request st);
      mret {| request := r; initGen := currentGen |}
  | HookRecover st resp currentGen =>
      recoverErr ← store_recover resp currentGen;
      match recoverErr with
      | None =>
          r ← store_apply (request st);
          gen ← store_getGeneration;
          mret {| request := r; initGen := gen |}
      | Some _ => mret st
      end
  | HookReapply st =>
      r ← store_apply (request st);
      gen ← store_getGeneration;
      mret {| request := r; initGen := gen |}
  | HookReread r =>
      gen ← store_getGeneration;
      mret {| request := r; initGen := gen |}
  | HookDone st => Ret st
  end.

(** The step a point takes on a store: the store left, the calls made and
    the point reached. *)
Definition hook_next (pt : HookPoint) (s : interceptorStore I)
  : interceptorStore I * list InterceptEvent * HookPoint :=
  match pt with
  | HookEntry st resp =>
      let currentGen := getGeneration s in
      (s, [], if negb (currentGen =? initGen st)
              then HookApplyOnly st currentGen
              else HookRecover st resp currentGen)
  | HookApplyOnly st currentGen =>
      (s, [ApplyCall], HookDone {| request := apply s (request st);
                                   initGen := currentGen |})
  | HookRecover st resp currentGen =>
      let '(s', evs, recoverErr) := recover s resp currentGen in
      (s', evs, match recoverErr with
                | None => HookReapply st
                | Some _ => HookDone st
                end)
  | HookReapply st => (s, [ApplyCall], HookReread (apply s (request st)))
  | HookReread r => (s, [], HookDone {| request := r; initGen := getGeneration s |})
  | HookDone st => (s, [], HookDone st)
  end.

(** What the points of the goroutines may be, for hooks that all started
    from the baseline [g], before and after the recovery. *)
Definition ok_hook (g : Z) (recovered : bool) (pt : HookPoint) : Prop :=
  match pt with
  | HookEntry st _ => initGen st = g
  | HookApplyOnly _ currentGen =>
      recovered = true /\ currentGen = (g + 1) mod 2 ^ 64
  | HookRecover st _ currentGen => currentGen = g
  | HookReapply _ => recovered = true
  | HookReread _ => recovered = true
  | HookDone st => recovered = true /\ initGen st = (g + 1) mod 2 ^ 64
  end.

Record hook_inv (good : I -> Prop) (g : Z) (recovered : bool)
    (pts : list HookPoint) (s : interceptorStore I) (evs : list InterceptEvent)
  : Prop := {
  hook_good : good (interceptor s);
  hook_generation : generation s = if recovered then (g + 1) mod 2 ^ 64 else g;
  hook_calls : recover_calls evs = if recovered then 1%nat else 0%nat;
  hook_points : forall i pt, pts !! i = Some pt -> ok_hook g recovered pt
}.

(** What other goroutines may do to the store meanwhile: anything that
    leaves the generation and keeps the interceptor able to recover. *)
Definition same_generation (good : I -> Prop) (s s' : interceptorStore I) : Prop :=
  generation s' = generation s /\ (good (interceptor s) -> good (interceptor s')).

End hooks.

(** ** cred: the identity manager and the names of the environment *)

Module cred.

Definition userKey : string := "username".
Definition secretKey : string := "password".

(** [IdentityPayload]: a field that is [nil] is [None] *)
Record IdentityPayload := mkIdentityPayload {
  payloadUser : option string;
  payloadSecret : option string
}.

(** [IdentityProvider]: the methods over the state [S] of the storage
    (the keyring, the environment) *)
Class IdentityProvider (S : Type) := {
  providerCredLabel : S -> string;
  providerGet : S -> string -> S * (string + error);
  providerSet : S -> string -> string -> S * option error;
  providerDelete : S -> string -> S * option error
}.

Section manager.
Context {S : Type} `{IdentityProvider S}.

(** [manager.SetAll] *)
Definition SetAll (s : S) (identity : Identity) : S * option error :=
  let '(s1, err) := providerSet s userKey (User identity) in
  match err with
  | Some e => (s1, Some e)
  | None => providerSet s1 secretKey (Secret identity)
  end.

(** [manager.Set] *)
Definition SetPayload (s : S) (payload : IdentityPayload) : S * option error :=
  let '(s1, err) :=
    match payloadUser payload with
    | Some user => providerSet s userKey user
    | None => (s, None)
    end in
  match err, payloadSecret payload with
  | None, Some secret => providerSet s1 secretKey secret
  | _, _ => (s1, err)
  end.

(** [manager.SetUser] *)
Definition SetUser (s : S) (user : string) : S * option error :=
  providerSet s userKey user.

(** [manager.SetSecret] *)
Definition SetSecret (s : S) (secret : string) : S * option error :=
  providerSet s secretKey secret.

(** [manager.Get]; [Identity{}] is returned with an error, of which only
    the error is kept *)
Definition Get (s : S) : S * (Identity + error) :=
  let '(s1, user) := providerGet s userKey in
  match user with
  | inr err => (s1, inr err)
  | inl user =>
      let '(s2, secret) := providerGet s1 secretKey in
      match secret with
      | inr err => (s2, inr err)
      | inl secret => (s2, inl {| User := user; Secret := secret |})
      end
  end.

(** [manager.GetUser] *)
Definition GetUser (s : S) : S * (string + error) := providerGet s userKey.

(** [manager.GetSecret] *)
Definition GetSecret (s : S) : S * (string + error) := providerGet s secretKey.

(** [manager.Delete] *)
Definition Delete (s : S) : S * option error :=
  let '(s1, err) := providerDelete s userKey in
  match err with
  | Some e => (s1, Some e)
  | None => providerDelete s1 secretKey
  end.

(** [manager.CredLabel] *)
Definition CredLabel (s : S) : string := providerCredLabel s.

(** A provider that behaves as a key-value storage whose contents are
    [content]: a read changes nothing and gives the value stored, or an
    error when there is none; a write and a removal that return no error
    have been done. *)
Record key_value_store (content : S -> gmap string string) : Prop := {
  get_keeps : forall s k, content (providerGet s k).1 = content s;
  get_found : forall s k v,
    content s !! k = Some v -> (providerGet s k).2 = inl v;
  get_missing : forall s k,
    content s !! k = None -> exists e, (providerGet s k).2 = inr e;
  set_done : forall s k v,
    (providerSet s k v).2 = None ->
    content (providerSet s k v).1 = <[k := v]> (content s);
  delete_done : forall s k,
    (providerDelete s k).2 = None ->
    content (providerDelete s k).1 = delete k (content s)
}.

End manager.

(** [strings.ToUpper]: on a string of ASCII bytes the letters [a] to [z]
    are moved to [A] to [Z]; on any other string the runes are mapped
    through the Unicode tables. *)
Class UnicodeCase := {
  MapToUpper : string -> string
}.

Definition upper_byte (c : ascii) : ascii :=
  if (97 <=? stringsx.byte_val c) && (stringsx.byte_val c <=? 122)
  then ascii_of_N (N_of_ascii c - 32)
  else c.

Fixpoint upper_bytes (s : string) : string :=
  match s with
  | EmptyString => EmptyString
  | String c rest => String (upper_byte c) (upper_bytes rest)
  end.

Definition ToUpper `{UnicodeCase} (s : string) : string :=
  if all_bytes is_ascii s then upper_bytes s else MapToUpper s.

(** env.go, [toEnvVarName] *)
Definition toEnvVarName `{UnicodeCase} (credLabel key : string) : string :=
  ToUpper (credLabel +:+ String "_" key).

End cred.

(** Stand-ins for the storage and the tables of letter case. *)
Module SampleCred.

(** A storage that is a map; a value that is not there is an error. *)
#[local] Instance map_provider : cred.IdentityProvider (gmap string string) := {|
  cred.providerCredLabel := fun _ => "service"%string;
  cred.providerGet := fun s k =>
    match s !! k with
    | Some v => (s, inl v)
    | None => (s, inr "secret not found in keyring"%string)
    end;
  cred.providerSet := fun s k v => (<[k := v]> s, None);
  cred.providerDelete := fun s k => (delete k s, None)
|}.

#[local] Instance unicode_case : cred.UnicodeCase := {|
  cred.MapToUpper := fun s => s
|}.

End SampleCred.

(** * Properties *)

(** ** Programs *)

Section prog_facts.
Context {W Ev : Type}.

(** Induction on a program, through the step it offers. *)
Lemma Prog_step_ind {R} (P : Prog W Ev R -> Prop) :
  (forall r, P (Ret r)) ->
  (forall f, (forall w w' evs p', f w = Some (w', evs, p') -> P p') -> P (Atom f)) ->
  forall p, P p.
Proof.
  intros Hret Hatom. fix IH 1. intros [r | f].
  - apply Hret.
  - apply Hatom. intros w.
    destruct (f w) as [[[w1 evs1] p1] | ]; intros w' evs p' Heq.
    + injection Heq as <- <- <-. apply IH.
    + discriminate.
Qed.

Lemma run_among_nil {R} (p : Prog W Ev R) (w : W) : run_among [] p w = run p w.
Proof.
  revert w. induction p as [r | f IH] using Prog_step_ind; intros w; cbn.
  - reflexivity.
  - destruct (f w) as [[[w1 evs1] p1] | ] eqn:Hf; [ | reflexivity ].
    rewrite (IH _ _ _ _ Hf). reflexivity.
Qed.

End prog_facts.

(** ** The token store, one caller alone *)

Section auth_facts.
Context `{Unicode} `{Jwt} {E : Type}.
Implicit Types (w : World E).

Lemma Before_lt (t u : Time) : Time.Before t u = true <-> t < u.
Proof. unfold Time.Before. apply Z.ltb_lt. Qed.

Lemma Before_ge (t u : Time) : Time.Before t u = false <-> u <= t.
Proof. unfold Time.Before. rewrite Z.ltb_ge. reflexivity. Qed.

Lemma setBearerToken_unlocked (as_ : refreshableAuthStore E) tok :
  refreshMu as_ = false ->
  set_refreshMu (setBearerToken (set_refreshMu as_ true) tok) false
  = setBearerToken as_ tok.
Proof. intros Hf. unfold setBearerToken, set_refreshMu. cbn. rewrite Hf. reflexivity. Qed.

Lemma set_refreshMu_unlocked (as_ : refreshableAuthStore E) :
  refreshMu as_ = false -> set_refreshMu (set_refreshMu as_ true) false = as_.
Proof. intros Hf. destruct as_. cbn in *. subst. reflexivity. Qed.

(** The fast path. *)
Lemma run_fresh w :
  deadline w <= tokenExpiration (store w) ->
  run getValidToken w = Some (w, [], (token (store w), None)).
Proof.
  intros Hd. apply Before_ge in Hd. unfold deadline in Hd.
  unfold getValidToken, check_first. cbn. rewrite Hd. reflexivity.
Qed.

(** The slow path, by what the collaborators answer. *)
Lemma run_stale w :
  tokenExpiration (store w) < deadline w ->
  refreshMu (store w) = false ->
  run getValidToken w =
  match identityReader (store w) (outside w) with
  | (o, inr err) =>
      Some ({| clock := clock w; outside := o;
               store := setBearerToken (store w) EmptyString |},
            [IdentityGet], (EmptyString, Some err))
  | (o, inl identity) =>
      match refreshTokenFunc (store w) o identity with
      | (o', inr err) =>
          Some ({| clock := clock w; outside := o';
                   store := setBearerToken (store w) EmptyString |},
                [IdentityGet; RefreshToken identity], (EmptyString, Some err))
      | (o', inl newToken) =>
          Some ({| clock := clock w; outside := o';
                   store := setBearerToken (store w) newToken |},
                [IdentityGet; RefreshToken identity], (newToken, None))
      end
  end.
Proof.
  intros Hd Hf. apply Before_lt in Hd. unfold deadline in Hd.
  unfold getValidToken, check_first, lock_refresh, check_again, get_identity,
    refresh_with, store_return, unlock_return.
  cbn. rewrite Hd. cbn. rewrite Hf. cbn. rewrite Hd. cbn.
  destruct (identityReader (store w) (outside w)) as [o [identity | err]]; cbn.
  - destruct (refreshTokenFunc (store w) o identity) as [o' [newToken | err]]; cbn;
      rewrite (setBearerToken_unlocked _ _ Hf); reflexivity.
  - rewrite (setBearerToken_unlocked _ _ Hf). reflexivity.
Qed.

(** The zero instant is before every deadline a wall clock and an int64
    buffer can give. *)
Lemma zero_is_stale w :
  Time.is_wall_clock (clock w) ->
  Time.is_duration (authRefreshBuffer (store w)) ->
  Time.zero < deadline w.
Proof.
  unfold Time.is_wall_clock, Time.is_duration, deadline, Time.Add, Time.zero,
    Time.unixEpoch, Time.Second.
  intros Hc Hd. lia.
Qed.

Lemma getValidToken_staleness_aux (w : World E) :
  tokenExpiration (store w) < deadline w ->
  refreshMu (store w) = false ->
  exists w' evs r, run getValidToken w = Some (w', IdentityGet :: evs, r).
Proof.
  intros Hd Hf. rewrite (run_stale w Hd Hf).
  destruct (identityReader (store w) (outside w)) as [o [identity | err]].
  - destruct (refreshTokenFunc (store w) o identity) as [o' [newToken | err]];
      eexists _, _, _; reflexivity.
  - eexists _, _, _; reflexivity.
Qed.

End auth_facts.

(** ** Invariants of a pool *)

Section pool_facts.
Context {W Ev : Type}.

Lemma keeps_bind (Inv : W -> Prop) {A B} (p : Prog W Ev A) (k : A -> Prog W Ev B) :
  keeps Inv p -> (forall a, keeps Inv (k a)) -> keeps Inv (bind p k).
Proof.
  intros Hp Hk. induction p as [r | f IH] using Prog_step_ind; cbn.
  - apply Hk.
  - inversion Hp as [ | f' Hinv Hrest]; subst.
    apply keeps_atom; intros w w' evs p' Hw Hstep;
      destruct (f w) as [[[w1 evs1] p1] | ] eqn:Hf; try discriminate;
      injection Hstep as <- <- <-.
    + eapply Hinv; eauto.
    + eapply IH; eauto.
Qed.

Lemma keeps_atomic (Inv : W -> Prop) {A} (f : W -> W * list Ev * A) :
  (forall w, Inv w -> Inv (f w).1.1) -> keeps Inv (atomic f).
Proof.
  intros Hf. apply keeps_atom; intros w w' evs p' Hw Hstep;
    specialize (Hf w Hw); destruct (f w) as [[w1 evs1] a];
    injection Hstep as <- <- <-.
  - exact Hf.
  - apply keeps_ret.
Qed.

Lemma keeps_await (Inv : W -> Prop) (f : W -> option W) :
  (forall w w', Inv w -> f w = Some w' -> Inv w') -> keeps Inv (await (Ev:=Ev) f).
Proof.
  intros Hf. apply keeps_atom; intros w w' evs p' Hw Hstep;
    destruct (f w) as [w1 | ] eqn:Hfw; try discriminate;
    injection Hstep as <- <- <-.
  - eapply Hf; eauto.
  - apply keeps_ret.
Qed.

Lemma keeps_step (Inv : W -> Prop) (env : W -> W -> Prop) {R}
    (P : Pool W Ev R) evs Q :
  (forall w w', Inv w -> env w w' -> Inv w') ->
  Inv (shared P) -> Forall (keeps Inv) (threads P) ->
  pool_step env P evs Q ->
  Inv (shared Q) /\ Forall (keeps Inv) (threads Q).
Proof.
  intros Henv Hw Hts Hstep. destruct Hstep as [P i f w' evs p' Hi Hf | P w' He]; cbn.
  - assert (Hk : keeps Inv (Atom f)).
    { eapply (proj1 (Forall_lookup _ _)); eauto. }
    inversion Hk as [ | f' Hinv Hrest]; subst. split.
    + eapply Hinv; eauto.
    + apply Forall_insert; [ exact Hts | eapply Hrest; eauto ].
  - split; [ eapply Henv; eauto | exact Hts ].
Qed.

Lemma keeps_steps (Inv : W -> Prop) (env : W -> W -> Prop) {R}
    (P : Pool W Ev R) evs Q :
  (forall w w', Inv w -> env w w' -> Inv w') ->
  Inv (shared P) -> Forall (keeps Inv) (threads P) ->
  pool_steps env P evs Q ->
  Inv (shared Q) /\ Forall (keeps Inv) (threads Q).
Proof.
  intros Henv Hw Hts Hsteps. induction Hsteps as [ | P evs Q evs' Q' _ IH Hstep].
  - split; assumption.
  - destruct (IH Hw Hts) as [HwQ HtQ]. eapply keeps_step; eauto.
Qed.

End pool_facts.

(** ** The staleness rule *)

Section staleness.
Context `{Unicode} `{Jwt} {E : Type}.
Implicit Types (w : World E).

(** C2 (as the code has it).  A call to [getValidToken] by one caller, the
    refresh lock being free.  The expiration in the cache is the one decoded
    from the cached token when that was stored (the cache invariant).  When
    it is at or after the instant read at entry plus the refresh buffer, the
    cached token is returned, nothing is changed and neither the identity
    reader nor the refresh function is called; when it is strictly before,
    the call fetches the credential, and calls the refresh function with it
    exactly when the fetch succeeds. *)
Theorem getValidToken_staleness w :
  refreshMu (store w) = false ->
  (deadline w <= tokenExpiration (store w) ->
   run getValidToken w = Some (w, [], (token (store w), None)))
  /\ (tokenExpiration (store w) < deadline w ->
      exists w' evs r,
        run getValidToken w = Some (w', IdentityGet :: evs, r)
        /\ match identityReader (store w) (outside w) with
           | (_, inl identity) => evs = [RefreshToken identity]
           | (_, inr _) => evs = []
           end).
Proof.
  intros Hf. split; intros Hd.
  - apply run_fresh, Hd.
  - rewrite (run_stale w Hd Hf).
    destruct (identityReader (store w) (outside w)) as [o [identity | err]].
    + destruct (refreshTokenFunc (store w) o identity) as [o' [newToken | err]];
        eexists _, _, _; split; reflexivity.
    + eexists _, _, _; split; reflexivity.
Qed.

(** C3.  A call that finds the cache stale and the refresh lock free, and
    whose credential fetch or refresh answers with an error: the call
    returns the empty token and that error, and leaves the cached token
    empty, the cached expiration at the zero instant and the lock free; a
    later call, at any instant of the wall clock, fetches the credential
    again. *)
Theorem failed_refresh_clears_cache w err :
  refreshMu (store w) = false ->
  tokenExpiration (store w) < deadline w ->
  Time.is_duration (authRefreshBuffer (store w)) ->
  refresh_fails_with w err ->
  exists w' evs,
    run getValidToken w = Some (w', evs, (EmptyString, Some err))
    /\ token (store w') = EmptyString
    /\ tokenExpiration (store w') = Time.zero
    /\ refreshMu (store w') = false
    /\ forall t, Time.is_wall_clock t ->
         exists w'' evs' r,
           run getValidToken (with_clock w' t) = Some (w'', IdentityGet :: evs', r).
Proof.
  intros Hf Hd Hbuf Hfail. rewrite (run_stale w Hd Hf).
  unfold refresh_fails_with in Hfail.
  assert (Hnext : forall o t, Time.is_wall_clock t ->
            exists w'' evs' r,
              run getValidToken
                  (with_clock {| clock := clock w; outside := o;
                                 store := setBearerToken (store w) EmptyString |} t)
              = Some (w'', IdentityGet :: evs', r)).
  { intros o t Ht.
    set (w1 := with_clock _ t).
    assert (Hs : tokenExpiration (store w1) < deadline w1).
    { apply (zero_is_stale w1); [exact Ht | exact Hbuf]. }
    assert (Hf1 : refreshMu (store w1) = false) by exact Hf.
    destruct (getValidToken_staleness_aux w1 Hs Hf1) as (w'' & evs' & r & Hrun).
    eauto. }
  destruct (identityReader (store w) (outside w)) as [o [identity | e]].
  - destruct (refreshTokenFunc (store w) o identity) as [o' [newToken | e]];
      [ contradiction | subst e ].
    eexists _, _. repeat split; try reflexivity; try exact Hf. apply Hnext.
  - subst e. eexists _, _. repeat split; try reflexivity; try exact Hf. apply Hnext.
Qed.

End staleness.

(** ** Tokens without a decodable expiration *)

Section decoding.
Context `{Unicode} `{Jwt} {E : Type}.


(** C10.  A call that runs among others, which change the clock, the
    outside and the store before each of its steps ([e0] before the clock is
    read, [e1] before the first check, [e2] before the lock is taken, [e3]
    before the check under the lock).  Both checks compare the cached
    expiration they find with the one instant read at entry plus the
    buffer: whatever the clock shows by then, a cache found fresh against
    the entry instant is returned, at the first check or under the lock,
    without a call to the collaborators, and a cache found stale against it
    under the lock starts the credential fetch. *)
Theorem both_checks_use_the_entry_instant (e0 e1 e2 e3 : World E -> World E)
    (w : World E) :
  let w0 := e0 w in
  let now := clock w0 in
  let w1 := e1 w0 in
  let w2 := e2 w1 in
  let w3 := e3 (with_store w2 (set_refreshMu (store w2) true)) in
  (Time.Add now (authRefreshBuffer (store w1)) <= tokenExpiration (store w1) ->
   run_among [e0; e1; e2; e3] getValidToken w
   = Some (w1, [], (token (store w1), None)))
  /\ (tokenExpiration (store w1) < Time.Add now (authRefreshBuffer (store w1)) ->
      refreshMu (store w2) = false ->
      (Time.Add now (authRefreshBuffer (store w3)) <= tokenExpiration (store w3) ->
       run_among [e0; e1; e2; e3] getValidToken w
       = Some (with_store w3 (set_refreshMu (store w3) false), [],
               (token (store w3), None)))
      /\ (tokenExpiration (store w3) < Time.Add now (authRefreshBuffer (store w3)) ->
          exists w' evs r,
            run_among [e0; e1; e2; e3] getValidToken w
            = Some (w', IdentityGet :: evs, r))).
Proof.
  cbv zeta. split.
  - intros Hd. apply Before_ge in Hd.
    unfold getValidToken, check_first. cbn. rewrite Hd. reflexivity.
  - intros Hd Hf. apply Before_lt in Hd. split.
    + intros Hd3. apply Before_ge in Hd3.
      unfold getValidToken, check_first, lock_refresh, check_again, unlock_return.
      cbn. rewrite Hd. cbn. rewrite Hf. cbn. rewrite Hd3. reflexivity.
    + intros Hd3. apply Before_lt in Hd3.
      unfold getValidToken, check_first, lock_refresh, check_again, get_identity,
        refresh_with, store_return, unlock_return.
      cbn. rewrite Hd. cbn. rewrite Hf. cbn. rewrite Hd3. cbn.
      match goal with
      | |- context [identityReader ?s ?o] =>
          destruct (identityReader s o) as [o1 [identity | err]]
      end; cbn.
      * match goal with
        | |- context [refreshTokenFunc ?s ?o ?i] =>
            destruct (refreshTokenFunc s o i) as [o2 [newToken | err]]
        end; cbn; eexists _, _, _; reflexivity.
      * eexists _, _, _; reflexivity.
Qed.

(** ** The cache invariant *)

Lemma cache_inv_setBearerToken (as_ : refreshableAuthStore E) (tok : string) :
  cache_inv (setBearerToken as_ tok).
Proof. intros _. reflexivity. Qed.

Lemma cache_inv_set_refreshMu (as_ : refreshableAuthStore E) (held : bool) :
  cache_inv as_ -> cache_inv (set_refreshMu as_ held).
Proof. intros Hc. exact Hc. Qed.

Local Abbreviation Cached := (fun w : World E => cache_inv (store w)).

Lemma keeps_unlock_return r : keeps Cached (unlock_return r).
Proof.
  apply keeps_bind; [ | intros; apply keeps_ret ].
  apply keeps_atomic. intros w Hw. exact Hw.
Qed.

Lemma keeps_store_return tok r : keeps Cached (store_return tok r).
Proof.
  apply keeps_bind; [ | intros; apply keeps_unlock_return ].
  apply keeps_atomic. intros w Hw. apply cache_inv_setBearerToken.
Qed.

Lemma keeps_getValidToken : keeps Cached getValidToken.
Proof.
  apply keeps_bind; [ apply keeps_atomic; intros w Hw; exact Hw | intros now ].
  apply keeps_bind; [ apply keeps_atomic; intros w Hw; exact Hw | intros [tok exp] ].
  destruct (negb exp); [ apply keeps_ret | ].
  apply keeps_bind.
  { apply keeps_await. intros w w' Hw Hstep.
    destruct (refreshMu (store w)); [ discriminate | ].
    injection Hstep as <-. exact Hw. }
  intros _.
  apply keeps_bind; [ apply keeps_atomic; intros w Hw; exact Hw | intros [tok' exp'] ].
  destruct (negb exp'); [ apply keeps_unlock_return | ].
  apply keeps_bind.
  { apply keeps_atomic. intros w Hw.
    destruct (identityReader (store w) (outside w)) as [o r]. exact Hw. }
  intros [identity | err]; [ | apply keeps_store_return ].
  apply keeps_bind.
  { apply keeps_atomic. intros w Hw.
    destruct (refreshTokenFunc (store w) (outside w) identity) as [o r]. exact Hw. }
  intros [newToken | err]; apply keeps_store_return.
Qed.

Lemma keeps_call (c : StoreCall) : keeps Cached (call_prog c).
Proof.
  destruct c; cbn [call_prog].
  - apply keeps_bind; [ apply keeps_getValidToken | intros; apply keeps_ret ].
  - apply keeps_bind; [ | intros; apply keeps_ret ].
    apply keeps_atomic. intros w Hw. exact Hw.
  - apply keeps_bind; [ | intros; apply keeps_ret ].
    apply keeps_atomic. intros w Hw. exact Hw.
  - apply keeps_bind; [ | intros; apply keeps_ret ].
    apply keeps_atomic. intros w Hw. exact Hw.
  - apply keeps_atomic. intros w Hw. apply cache_inv_setBearerToken.
Qed.

(** C4.  A new store satisfies the cache invariant, and so does every
    state that goroutines calling the methods of the store reach from a
    state that satisfies it, in whatever order their steps are taken and
    however the clock and the outside change in between: whenever the
    cached token is not empty, the cached expiration is the value
    [extractTokenExpiration] gives on that token (the zero instant for a
    token it cannot decode). *)
Theorem cache_invariant :
  (forall reader refresh buffer,
      cache_inv (newRefreshableAuthStore (E:=E) reader refresh buffer))
  /\ forall (w : World E) (calls : list StoreCall) evs Q,
       cache_inv (store w) ->
       pool_steps around (mkPool w (map call_prog calls)) evs Q ->
       cache_inv (store (shared Q)).
Proof.
  split.
  - intros reader refresh buffer Hne. cbn in Hne. congruence.
  - intros w calls evs Q Hw Hsteps.
    refine (proj1 (keeps_steps Cached around (mkPool w (map call_prog calls)) evs Q _ Hw _ Hsteps)).
    + intros w1 w2 H1 He. unfold around in He. cbn. rewrite He. exact H1.
    + cbn. apply Forall_forall. intros p Hp.
      apply list_elem_of_In, in_map_iff in Hp. destruct Hp as (c & <- & _).
      apply keeps_call.
Qed.

End decoding.

(** ** The generation counter *)

Section generation.
Context {I Payload Response : Type} `{Interceptor I Payload Response}.
Implicit Types (s : interceptorStore I) (op : StoreOp Payload Response).

Lemma do_op_generation s op :
  0 <= generation s -> generation s + 1 < 2 ^ 64 ->
  generation (do_op s op)
  = generation s + (if recovers s op then 1 else 0).
Proof.
  intros Hlo Hhi. destruct op as [resp err | | resp genBefore | r | ]; cbn;
    try lia.
  unfold recover.
  destruct (generation s =? genBefore); cbn; [ | lia ].
  destruct (Recover (interceptor s) resp) as [i [e | ]]; cbn; [ lia | ].
  rewrite Z.mod_small; lia.
Qed.

Lemma do_ops_generation ops : forall s,
  0 <= generation s ->
  generation s + Z.of_nat (length ops) < 2 ^ 64 ->
  generation (do_ops s ops) = generation s + Z.of_nat (recoveries s ops)
  /\ (recoveries s ops <= length ops)%nat.
Proof.
  induction ops as [ | op rest IH]; intros s Hlo Hhi; cbn [do_ops fold_left recoveries].
  - split; [ lia | reflexivity ].
  - cbn [length] in Hhi.
    assert (Hop := do_op_generation s op Hlo ltac:(lia)).
    destruct (IH (do_op s op)) as [Hg Hn].
    + rewrite Hop. destruct (recovers s op); lia.
    + rewrite Hop. destruct (recovers s op); lia.
    + fold (do_ops (do_op s op) rest). rewrite Hg, Hop. cbn [length].
      destruct (recovers s op); split; lia.
Qed.

Lemma do_ops_app s ops ops' : do_ops s (ops ++ ops') = do_ops (do_ops s ops) ops'.
Proof. unfold do_ops. apply fold_left_app. Qed.

(** C5.  The calls made on a store, by whatever goroutines, come one after
    the other, each under [mu]; fewer than 2^64 of them are made, the
    counter being a uint64.  The generation of a new store is 0; after the
    calls it is the number of them that recovered (a [recover] that did not
    skip and in which [Interceptor.Recover] returned no error); and each
    call leaves the generation one higher when it recovers and as it was
    otherwise (any other method, a [recover] that skips, a [recover] in
    which [Interceptor.Recover] fails), so that the generation never goes
    down. *)
Theorem generation_counts_recoveries (i : I) (ops : list (StoreOp Payload Response)) :
  Z.of_nat (length ops) < 2 ^ 64 ->
  generation (newInterceptorStore i) = 0
  /\ generation (do_ops (newInterceptorStore i) ops)
     = Z.of_nat (recoveries (newInterceptorStore i) ops)
  /\ forall before op after, ops = before ++ op :: after ->
       let s := do_ops (newInterceptorStore i) before in
       generation (do_op s op) = generation s + (if recovers s op then 1 else 0)
       /\ generation s <= generation (do_op s op).
Proof.
  intros Hlen. split; [ reflexivity | split ].
  - destruct (do_ops_generation ops (newInterceptorStore i)) as [Hg _]; cbn; try lia.
    rewrite Hg. cbn. lia.
  - intros before op after -> s.
    rewrite length_app in Hlen. cbn [length] in Hlen.
    destruct (do_ops_generation before (newInterceptorStore i)) as [Hg Hn];
      cbn [generation newInterceptorStore]; try lia.
    fold s in Hg. cbn [generation newInterceptorStore] in Hg.
    assert (Hop := do_op_generation s op ltac:(lia) ltac:(lia)).
    rewrite Hop. destruct (recovers s op); split; lia.
Qed.

(** ** The retry hook *)

Implicit Types (st : Intercepted Payload Response).

(** C6.  The retry hook of an intercepted request, run among other
    goroutines that change the store before each of its steps ([e0] before
    the hook reads the generation, [e1] before its next call on the store,
    [e2] and [e3] before the calls after [recover]).  The hook ends, and
    [Interceptor.Recover] is called in it only if the generation equals the
    request's baseline both at the hook's read and when [recover] holds the
    lock.  When the generation read differs from the baseline, the hook
    only calls [apply], on the current store, and takes the generation it
    read as the new baseline; when it differs only under the lock, the hook
    again only calls [apply] and takes the generation it reads afterwards
    as the new baseline. *)
Theorem recover_only_at_the_baseline
    (e0 e1 e2 e3 : interceptorStore I -> interceptorStore I)
    s st (resp : option Response) (err : option error) :
  let s1 := e0 s in
  let s2 := e1 s1 in
  exists s' evs st',
    run_among [e0; e1; e2; e3] (retryHook st resp err) s = Some (s', evs, st')
    /\ (In RecoverCall evs ->
        generation s1 = initGen st /\ generation s2 = initGen st)
    /\ (generation s1 <> initGen st ->
        evs = [ApplyCall] /\ s' = s2
        /\ request st' = apply s2 (request st)
        /\ initGen st' = generation s1)
    /\ (generation s1 = initGen st -> generation s2 <> initGen st ->
        evs = [ApplyCall] /\ s' = e3 (e2 s2)
        /\ request st' = apply (e2 s2) (request st)
        /\ initGen st' = generation (e3 (e2 s2))).
Proof.
  cbv zeta. unfold retryHook. cbn.
  unfold getGeneration at 1.
  destruct (generation (e0 s) =? initGen st) eqn:Hread; cbn.
  - apply Z.eqb_eq in Hread. unfold recover, getGeneration. rewrite Hread.
    destruct (generation (e1 (e0 s)) =? initGen st) eqn:Hlock; cbn.
    + apply Z.eqb_eq in Hlock.
      destruct (Recover (interceptor (e1 (e0 s))) resp) as [i [e | ]]; cbn;
        eexists _, _, _; (split; [ reflexivity | ]);
        repeat split; auto; intros; congruence.
    + apply Z.eqb_neq in Hlock.
      eexists _, _, _; split; [ reflexivity | ].
      split; [ | split ].
      * cbn. intros [Hin | []]. discriminate.
      * intros Hne. congruence.
      * intros _ _. repeat split.
  - apply Z.eqb_neq in Hread.
    eexists _, _, _; split; [ reflexivity | ].
    split; [ | split ].
    + cbn. intros [Hin | []]. discriminate.
    + intros _. repeat split.
    + intros Heq. congruence.
Qed.

(** C7.  The generation equals the request's baseline and
    [Interceptor.Recover] fails with [e].  Then [recover] returns [e] to
    the hook and leaves the generation as it was; the hook, which has no
    error to return, ends without a call to [apply] and with the request
    and its baseline as they were; and on the store left behind, the hook
    of any request with that baseline calls [Interceptor.Recover] again. *)
Theorem failed_recovery_is_tried_again s st (resp : option Response)
    (err : option error) (e : error) :
  generation s = initGen st ->
  (Recover (interceptor s) resp).2 = Some e ->
  let s' := {| interceptor := (Recover (interceptor s) resp).1;
               generation := generation s |} in
  recover s resp (initGen st) = (s', [RecoverCall], Some e)
  /\ run (retryHook st resp err) s = Some (s', [RecoverCall], st)
  /\ forall st2 (resp2 : option Response) (err2 : option error),
       initGen st2 = initGen st ->
       exists s'' evs st'',
         run (retryHook st2 resp2 err2) s' = Some (s'', RecoverCall :: evs, st'').
Proof.
  intros Hgen Hfail s'.
  assert (Hrec : recover s resp (initGen st) = (s', [RecoverCall], Some e)).
  { unfold recover. rewrite Hgen, Z.eqb_refl. cbn.
    subst s'. destruct (Recover (interceptor s) resp) as [i o]. cbn in *.
    subst o. rewrite Hgen. reflexivity. }
  split; [ exact Hrec | split ].
  - unfold retryHook. cbn. unfold getGeneration.
    rewrite Hgen, Z.eqb_refl. cbn. rewrite Hrec. reflexivity.
  - intros st2 resp2 err2 Hbase.
    unfold retryHook. cbn. unfold getGeneration. cbn.
    rewrite Hbase, Hgen, Z.eqb_refl. cbn.
    unfold recover. cbn. rewrite Hgen, Z.eqb_refl. cbn.
    destruct (Recover (Recover (interceptor s) resp).1 resp2) as [i [e2 | ]]; cbn;
      eexists _, _, _; reflexivity.
Qed.

End generation.

(** ** Unknown labels *)

Section labels.
Context `{Unicode} `{Jwt}.
Context {E I Payload Response : Type} `{Interceptor I Payload Response}.

(** C8.  For a label that is not in the registry, [AR] and [IR] return a
    request: [AR] ends, calls no collaborator and leaves the client and the
    outside as they were, and [IR] captures no generation.  The request is
    a new one with a single response hook, which fails on every response
    with the error that names the label; so the send fails with that
    error. *)
Theorem unknown_label_fails_at_send (c : Client E I Payload)
    (now : Time) (o : E) (label : string) :
  (auths c !! label = None ->
   exists hook : Response -> option error,
     AR c now o label = Some (OnAfterResponse (R c) hook, c, o, [])
     /\ forall resp,
          hook resp = Some ("auth manager for service " +:+ label +:+ " does not exist")
          /\ send_error (OnAfterResponse (R c) hook) resp
             = Some ("auth manager for service " +:+ label +:+ " does not exist"))
  /\ (interceptors c !! label = None ->
      exists hook : Response -> option error,
        IR c label = (OnAfterResponse (R c) hook, None)
        /\ forall resp,
             hook resp = Some ("interceptor " +:+ label +:+ " does not exist")
             /\ send_error (OnAfterResponse (R c) hook) resp
                = Some ("interceptor " +:+ label +:+ " does not exist")).
Proof.
  split; intros Hnone.
  - unfold AR. rewrite Hnone. eexists. split; [ reflexivity | ].
    intros resp. split; reflexivity.
  - unfold IR. rewrite Hnone. eexists. split; [ reflexivity | ].
    intros resp. split; reflexivity.
Qed.

End labels.

(** ** Many callers at once *)

Section herd_facts.
Context `{Unicode} `{Jwt} {E : Type}.
Implicit Types (w : World E) (pt : Point) (pts : list Point).

(** The blocks of [getValidToken] step as the points say. *)
Lemma code_next pt f w :
  code pt = Atom f ->
  f w = (fun '(w', evs, pt') => (w', evs, code pt')) <$> next pt w.
Proof.
  intros Hc. destruct pt as [ | now | now | now | | identity | tok r | r | r];
    cbn in Hc; try discriminate; injection Hc as <-; cbn.
  - reflexivity.
  - destruct (Time.Before _ _); reflexivity.
  - destruct (refreshMu (store w)); reflexivity.
  - destruct (Time.Before _ _); reflexivity.
  - destruct (identityReader (store w) (outside w)) as [o [identity | err]];
      reflexivity.
  - destruct (refreshTokenFunc (store w) (outside w) identity) as [o [tok | err]];
      reflexivity.
  - reflexivity.
  - reflexivity.
Qed.

Lemma code_returned pt r : code (E:=E) pt = Ret r -> pt = AtDone r.
Proof.
  destruct pt; cbn; intros Hc; try discriminate. congruence.
Qed.

End herd_facts.

Section herd_inv_facts.
Context `{Unicode} `{Jwt} {E : Type}.
Implicit Types (w : World E) (pt : Point) (pts : list Point) (ph : Phase).

Lemma refreshes_app (evs evs' : list AuthEvent) :
  refreshes (evs ++ evs') = (refreshes evs + refreshes evs')%nat.
Proof.
  induction evs as [ | [ | identity] evs IH]; cbn; [ reflexivity | exact IH | ].
  rewrite IH. reflexivity.
Qed.

Lemma lookup_insert_cases pts i pt' j q :
  <[i := pt']> pts !! j = Some q ->
  (j = i /\ q = pt') \/ (j <> i /\ pts !! j = Some q).
Proof.
  intros Hq. apply list_lookup_insert_Some in Hq.
  destruct Hq as [(-> & -> & _) | (Hne & Hq)]; [ left | right ]; auto.
Qed.

Lemma holder_same pts (holder : option nat) i pt pt' :
  pts !! i = Some pt -> holds pt' = holds pt ->
  (forall j q, pts !! j = Some q -> (holds q = true <-> holder = Some j)) ->
  forall j q, <[i := pt']> pts !! j = Some q ->
              (holds q = true <-> holder = Some j).
Proof.
  intros Hi Hh Hold j q Hq.
  destruct (lookup_insert_cases _ _ _ _ _ Hq) as [[-> ->] | [Hne Hj]].
  - rewrite Hh. apply Hold, Hi.
  - apply Hold, Hj.
Qed.

Lemma holder_in_insert pts (holder : option nat) i pt' :
  (forall j, holder = Some j -> is_Some (pts !! j)) ->
  forall j, holder = Some j -> is_Some (<[i := pt']> pts !! j).
Proof.
  intros Hin j Hj. apply lookup_lt_is_Some. rewrite length_insert.
  apply lookup_lt_is_Some, Hin, Hj.
Qed.

Lemma points_insert (P : Point -> Prop) pts i pt' :
  (forall j q, pts !! j = Some q -> P q) -> P pt' ->
  forall j q, <[i := pt']> pts !! j = Some q -> P q.
Proof.
  intros Hold Hnew j q Hq.
  destruct (lookup_insert_cases _ _ _ _ _ Hq) as [[-> ->] | [Hne Hj]]; eauto.
Qed.

(** A caller outside the lock is not concerned by the phase, as long as no
    one has returned. *)
Lemma ok_point_phase lo hi ph ph' pt :
  ok_point lo hi ph pt -> holds pt = false ->
  (forall tok, ph <> Refreshed tok) -> ok_point lo hi ph' pt.
Proof.
  destruct pt; cbn; intros Hok Hh Hph; try discriminate; try exact Hok.
  destruct Hok as (tok & -> & _). exfalso. eapply Hph. reflexivity.
Qed.

Lemma others_outside pts (holder : option nat) i j q :
  (forall j q, pts !! j = Some q -> (holds q = true <-> holder = Some j)) ->
  holder = Some i -> j <> i -> pts !! j = Some q -> holds q = false.
Proof.
  intros Hold Hi Hne Hq. destruct (holds q) eqn:Hh; [ | reflexivity ].
  apply (Hold j q Hq) in Hh. congruence.
Qed.

Lemma points_change lo hi ph ph' pts (holder : option nat) i pt' :
  (forall j q, pts !! j = Some q -> (holds q = true <-> holder = Some j)) ->
  holder = Some i ->
  (forall tok, ph <> Refreshed tok) ->
  (forall j q, pts !! j = Some q -> ok_point lo hi ph q) ->
  ok_point lo hi ph' pt' ->
  forall j q, <[i := pt']> pts !! j = Some q -> ok_point lo hi ph' q.
Proof.
  intros Hold Hi Hph Hok Hnew j q Hq.
  destruct (lookup_insert_cases _ _ _ _ _ Hq) as [[-> ->] | [Hne Hj]].
  - exact Hnew.
  - eapply ok_point_phase; [ eapply Hok, Hj | | exact Hph ].
    eapply others_outside; eauto.
Qed.

(** One step of one caller keeps the invariant. *)
Lemma herd_step (as0 : refreshableAuthStore E) lo hi ph holder pts w evs
    i pt w' evs' pt' :
  reader_succeeds as0 -> refresh_succeeds as0 hi ->
  tokenExpiration as0 < Time.Add lo (authRefreshBuffer as0) ->
  herd_inv as0 lo hi ph holder pts w evs ->
  pts !! i = Some pt ->
  next pt w = Some (w', evs', pt') ->
  exists ph' holder',
    herd_inv as0 lo hi ph' holder' (<[i := pt']> pts) w' (evs ++ evs').
Proof.
  intros Hreader Hrefresh Hstale Hinv Hi Hnext.
  pose proof (inv_points _ _ _ _ _ _ _ _ Hinv i pt Hi) as Hok.
  pose proof (inv_holder _ _ _ _ _ _ _ _ Hinv i pt Hi) as Hhold.
  destruct Hinv as [Hrd Hrf Hbuf Hclk Hlock Hholder Hhin Hcache Hnew Hrefr Hcount Hpts].
  destruct pt as [ | now | now | now | | identity | tok r | r | r]; cbn in Hnext.
  - (* entry *)
    injection Hnext as <- <- <-. exists ph, holder.
    rewrite app_nil_r. split; try assumption.
    + eapply holder_same; eauto.
    + apply holder_in_insert, Hhin.
    + apply points_insert; [ exact Hpts | exact Hclk ].
  - (* first check *)
    injection Hnext as <- <- <-. exists ph, holder.
    rewrite app_nil_r. cbn in Hok. split; try assumption.
    + eapply holder_same; eauto. destruct (negb _); reflexivity.
    + apply holder_in_insert, Hhin.
    + apply points_insert; [ exact Hpts | ].
      unfold Time.Before, Time.Add in *. rewrite Hbuf.
      destruct ph as [ | tok | tok].
      * rewrite Hcache. destruct (Z.ltb_spec (tokenExpiration as0) (now + authRefreshBuffer as0)); cbn; lia.
      * rewrite Hcache. destruct (Z.ltb_spec (tokenExpiration as0) (now + authRefreshBuffer as0)); cbn; lia.
      * destruct Hcache as [Htok Hexp]. rewrite Hexp.
        destruct (Z.ltb_spec (extractTokenExpiration tok) (now + authRefreshBuffer as0)); cbn; [ lia | ].
        exists tok. rewrite Htok. split; reflexivity.
  - (* lock *)
    destruct (refreshMu (store w)) eqn:Hmu; [ discriminate | ].
    injection Hnext as <- <- <-.
    assert (Hnone : holder = None).
    { destruct holder; [ | reflexivity ]. rewrite bool_decide_eq_true_2 in Hlock by eauto. discriminate. }
    subst holder. exists ph, (Some i). rewrite app_nil_r. split; cbn; try assumption.
    + reflexivity.
    + intros j q Hq.
      destruct (lookup_insert_cases _ _ _ _ _ Hq) as [[-> ->] | [Hne Hj]].
      * cbn. split; reflexivity.
      * split.
        -- intros Hh. apply (Hholder j q Hj) in Hh. discriminate.
        -- intros [= Heq]. congruence.
    + intros j [= <-]. apply lookup_lt_is_Some. rewrite length_insert.
      apply lookup_lt_is_Some. eauto.
    + intros tok Htok. eauto.
    + apply points_insert; [ exact Hpts | ]. cbn. split; [ exact Hok | ].
      destruct ph as [ | tok | tok]; [ left; reflexivity | | right; eauto ].
      destruct (Hrefr tok eq_refl) as [k Hk]. discriminate.
  - (* second check *)
    injection Hnext as <- <- <-. exists ph, holder.
    rewrite app_nil_r. cbn in Hok. destruct Hok as [Hnow Hph].
    split; try assumption.
    + eapply holder_same; eauto. destruct (negb _); reflexivity.
    + apply holder_in_insert, Hhin.
    + apply points_insert; [ exact Hpts | ].
      unfold Time.Before, Time.Add in *. rewrite Hbuf.
      destruct Hph as [-> | [tok ->]].
      * rewrite Hcache. destruct (Z.ltb_spec (tokenExpiration as0) (now + authRefreshBuffer as0)); cbn; [ reflexivity | lia ].
      * destruct Hcache as [Htok Hexp]. rewrite Hexp.
        destruct (Z.ltb_spec (extractTokenExpiration tok) (now + authRefreshBuffer as0)); cbn; [ lia | ].
        exists tok. rewrite Htok. split; reflexivity.
  - (* identity *)
    cbn in Hok. subst ph. rewrite Hrd in Hnext.
    destruct (Hreader (outside w)) as (o' & identity & Hget). rewrite Hget in Hnext.
    injection Hnext as <- <- <-. exists Stale, holder. split; cbn; try assumption.
    + eapply holder_same; eauto.
    + apply holder_in_insert, Hhin.
    + rewrite refreshes_app, Hcount. reflexivity.
    + apply points_insert; [ exact Hpts | reflexivity ].
  - (* refresh *)
    cbn in Hok. subst ph. rewrite Hrf in Hnext.
    destruct (Hrefresh (outside w) identity) as (o' & newToken & Hcall & Hfresh).
    rewrite Hcall in Hnext. injection Hnext as <- <- <-.
    exists (Refreshing newToken), holder. split; cbn; try assumption.
    + eapply holder_same; eauto.
    + apply holder_in_insert, Hhin.
    + split; [ exact Hfresh | eauto ].
    + intros tok _. destruct Hhold as [Hh _]. rewrite (Hh eq_refl). eauto.
    + rewrite refreshes_app, Hcount. reflexivity.
    + eapply points_change; eauto.
      * apply Hhold. reflexivity.
      * discriminate.
      * cbn. split; reflexivity.
  - (* store *)
    cbn in Hok. destruct Hok as [-> ->].
    injection Hnext as <- <- <-. exists (Refreshed tok), holder.
    rewrite app_nil_r. split; cbn; try assumption.
    + eapply holder_same; eauto.
    + apply holder_in_insert, Hhin.
    + split; reflexivity.
    + discriminate.
    + eapply points_change; eauto.
      * apply Hhold. reflexivity.
      * discriminate.
      * cbn. eauto.
  - (* unlock *)
    cbn in Hok. destruct Hok as (tok & -> & ->).
    injection Hnext as <- <- <-. exists (Refreshed tok), None.
    rewrite app_nil_r. split; cbn; try assumption.
    + reflexivity.
    + intros j q Hq.
      destruct (lookup_insert_cases _ _ _ _ _ Hq) as [[-> ->] | [Hne Hj]].
      * cbn. split; discriminate.
      * split; [ | discriminate ].
        intros Hh. apply (Hholder j q Hj) in Hh.
        destruct Hhold as [Hme _]. rewrite (Hme eq_refl) in Hh. congruence.
    + discriminate.
    + discriminate.
    + apply points_insert; [ exact Hpts | ]. cbn. eauto.
  - discriminate.
Qed.

End herd_inv_facts.

Section pool_runs.
Context {W Ev R : Type}.
Implicit Types (P Q : Pool W Ev R).

Lemma steps_cons (env : W -> W -> Prop) P evs Q evs' Q' :
  pool_step env P evs Q -> pool_steps env Q evs' Q' ->
  pool_steps env P (evs ++ evs') Q'.
Proof.
  intros Hstep Hsteps. induction Hsteps as [Q | Q evs1 Q1 evs2 Q2 _ IH Hlast].
  - rewrite app_nil_r. rewrite <- (app_nil_l evs).
    eapply steps_snoc; [ apply steps_refl | exact Hstep ].
  - rewrite app_assoc. eapply steps_snoc; [ apply IH, Hstep | exact Hlast ].
Qed.

(** A caller that runs alone to its end, as a run of the pool. *)
Lemma run_in_pool (env : W -> W -> Prop) (p : Prog W Ev R) :
  forall w (ts : list (Prog W Ev R)) i w' evs r,
    ts !! i = Some p ->
    run p w = Some (w', evs, r) ->
    pool_steps env (mkPool w ts) evs (mkPool w' (<[i := Ret r]> ts)).
Proof.
  induction p as [r0 | f IH] using Prog_step_ind; intros w ts i w' evs r Hi Hrun;
    cbn in Hrun.
  - injection Hrun as <- <- <-. rewrite list_insert_id by exact Hi.
    apply steps_refl.
  - destruct (f w) as [[[w1 evs1] p1] | ] eqn:Hf; [ | discriminate ].
    destruct (run p1 w1) as [[[w2 evs2] r2] | ] eqn:Hrun1; [ | discriminate ].
    injection Hrun as <- <- <-.
    eapply steps_cons.
    + apply (step_thread env (mkPool w ts) i f w1 evs1 p1); [ exact Hi | exact Hf ].
    + cbn. rewrite <- (list_insert_insert_eq ts i (Ret r2) p1).
      eapply IH; [ exact Hf | | exact Hrun1 ].
      apply list_lookup_insert_eq. eapply lookup_lt_Some, Hi.
Qed.

(** A schedule that can be followed is a run of the pool. *)
Lemma schedule_steps (env : W -> W -> Prop) (turns : list nat) :
  forall P Q evs,
    schedule turns P = Some (Q, evs) -> pool_steps env P evs Q.
Proof.
  induction turns as [ | i rest IH]; intros P Q evs Hs; cbn in Hs.
  - injection Hs as <- <-. apply steps_refl.
  - destruct (fire i P) as [[P' evs1] | ] eqn:Hfire; [ | discriminate ].
    destruct (schedule rest P') as [[Q' evs2] | ] eqn:Hrest; [ | discriminate ].
    injection Hs as <- <-.
    eapply steps_cons; [ | apply IH, Hrest ].
    unfold fire in Hfire.
    destruct (threads P !! i) as [[r | f] | ] eqn:Hi; try discriminate.
    destruct (f (shared P)) as [[[w' evs'] p'] | ] eqn:Hf; [ | discriminate ].
    injection Hfire as <- <-.
    apply (step_thread env P i f w' evs' p' Hi Hf).
Qed.

End pool_runs.

Section herd_runs.
Context `{Unicode} `{Jwt} {E : Type}.
Implicit Types (w : World E) (pt : Point) (pts : list Point) (ph : Phase).

Lemma herd_env (as0 : refreshableAuthStore E) lo hi ph holder pts w evs w' :
  herd_inv as0 lo hi ph holder pts w evs ->
  around_within lo hi w w' ->
  herd_inv as0 lo hi ph holder pts w' evs.
Proof.
  intros [Hrd Hrf Hbuf Hclk Hlock Hholder Hhin Hcache Hnew Hrefr Hcount Hpts] [Hst Hc].
  split; try assumption; rewrite Hst; assumption.
Qed.

Lemma herd_init w0 lo hi (N : nat) :
  refreshMu (store w0) = false ->
  lo <= clock w0 <= hi ->
  herd_inv (store w0) lo hi Stale None (replicate N AtEntry) w0 [].
Proof.
  intros Hmu Hclk. split; try reflexivity; try assumption.
  - intros i pt Hi. apply lookup_replicate in Hi. destruct Hi as [-> _].
    cbn. split; discriminate.
  - discriminate.
  - discriminate.
  - intros i pt Hi. apply lookup_replicate in Hi. destruct Hi as [-> _].
    exact Logic.I.
Qed.

(** The invariant holds in every state the callers reach. *)
Lemma herd_steps w0 lo hi (N : nat) evs Q :
  refreshMu (store w0) = false ->
  lo <= clock w0 <= hi ->
  tokenExpiration (store w0) < Time.Add lo (authRefreshBuffer (store w0)) ->
  reader_succeeds (store w0) ->
  refresh_succeeds (store w0) hi ->
  pool_steps (around_within lo hi) (mkPool w0 (replicate N getValidToken)) evs Q ->
  exists ph holder pts,
    threads Q = code <$> pts
    /\ herd_inv (store w0) lo hi ph holder pts (shared Q) evs.
Proof.
  intros Hmu Hclk Hstale Hreader Hrefresh Hsteps.
  remember (mkPool w0 (replicate N getValidToken)) as P eqn:HP.
  induction Hsteps as [P | P evs Q evs' Q' Hsteps IH Hstep].
  - subst P. exists Stale, None, (replicate N AtEntry). split.
    + cbn. rewrite fmap_replicate. reflexivity.
    + apply herd_init; assumption.
  - destruct (IH HP) as (ph & holder & pts & Hts & Hinv). clear IH.
    destruct Hstep as [Q i f w' evs' p' Hi Hf | Q w' Henv]; cbn.
    + rewrite Hts, list_lookup_fmap in Hi.
      destruct (pts !! i) as [pt | ] eqn:Hpt; [ | discriminate ].
      cbn in Hi. injection Hi as Hcode.
      rewrite (code_next pt f (shared Q) Hcode) in Hf.
      destruct (next pt (shared Q)) as [[[w1 evs1] pt'] | ] eqn:Hnext; [ | discriminate ].
      cbn in Hf. injection Hf as <- <- <-.
      destruct (herd_step _ _ _ _ _ _ _ _ _ _ _ _ _ Hreader Hrefresh Hstale Hinv Hpt Hnext)
        as (ph' & holder' & Hinv').
      exists ph', holder', (<[i := pt']> pts). split; [ | exact Hinv' ].
      rewrite Hts, list_fmap_insert. reflexivity.
    + rewrite app_nil_r. exists ph, holder, pts. split; [ exact Hts | ].
      eapply herd_env; eauto.
Qed.

Lemma next_remaining pt w w' evs pt' :
  next pt w = Some (w', evs, pt') -> (remaining pt' < remaining pt)%nat.
Proof.
  destruct pt as [ | now | now | now | | identity | tok r | r | r]; cbn; intros Hn.
  - injection Hn as <- <- <-. cbn. lia.
  - injection Hn as <- <- <-. destruct (negb _); cbn; lia.
  - destruct (refreshMu (store w)); [ discriminate | ].
    injection Hn as <- <- <-. cbn. lia.
  - injection Hn as <- <- <-. destruct (negb _); cbn; lia.
  - destruct (identityReader (store w) (outside w)) as [o [identity | err]];
      injection Hn as <- <- <-; cbn; lia.
  - destruct (refreshTokenFunc (store w) (outside w) identity) as [o [tok | err]];
      injection Hn as <- <- <-; cbn; lia.
  - injection Hn as <- <- <-. cbn. lia.
  - injection Hn as <- <- <-. cbn. lia.
  - discriminate.
Qed.

Lemma steps_left_code (n : nat) : forall pt,
  (remaining pt <= n)%nat -> steps_left (code (E:=E) pt) n.
Proof.
  induction n as [ | n IH]; intros pt Hle.
  - destruct pt; cbn in Hle; try lia. apply left_ret.
  - destruct (code (E:=E) pt) as [r | f] eqn:Hcode; [ apply left_ret | ].
    apply left_atom. intros w w' evs p' Hf.
    rewrite (code_next pt f w Hcode) in Hf.
    destruct (next pt w) as [[[w1 evs1] pt'] | ] eqn:Hnext; [ | discriminate ].
    cbn in Hf. injection Hf as <- <- <-.
    apply IH. apply next_remaining in Hnext. lia.
Qed.

Lemma enabled_code pt w :
  is_Some (next pt w) -> enabled (code pt) w = true.
Proof.
  intros [[[w' evs] pt'] Hnext].
  destruct (code (E:=E) pt) as [r | f] eqn:Hcode.
  - apply code_returned in Hcode. subst pt. discriminate.
  - cbn. rewrite (code_next pt f w Hcode), Hnext. reflexivity.
Qed.

(** Outside the lock every caller that has not returned can step once the
    lock is free; under the lock its holder always can. *)
Lemma next_enabled pt w :
  (holds pt = true \/ refreshMu (store w) = false) ->
  (forall r, pt <> AtDone r) ->
  is_Some (next pt w).
Proof.
  intros Hfree Hnot.
  destruct pt as [ | now | now | now | | identity | tok r | r | r]; cbn; eauto.
  - destruct Hfree as [Hh | ->]; [ discriminate | eauto ].
  - destruct (identityReader (store w) (outside w)) as [o r]. eauto.
  - destruct (refreshTokenFunc (store w) (outside w) identity) as [o r]. eauto.
  - exfalso. eapply Hnot. reflexivity.
Qed.

End herd_runs.

Section single_flight.
Context `{Unicode} `{Jwt} {E : Type}.

(** C1 (as the code has it).  [N] goroutines call [getValidToken] on one
    store at once; the refresh lock is free, the clock stays between [lo]
    and [hi] while they run, the cached expiration is stale for every
    instant of that span, the credential fetch succeeds and the refresh
    function succeeds with a token that is fresh for every instant of that
    span.  Then, however the steps of the callers are interleaved: the
    refresh function is called at most once; the callers that have returned
    have all returned one token, without an error, and it is the token the
    one call of the refresh function gave, now in the cache; as long as a
    caller has not returned, some caller can take a step; and every caller
    is at most eight steps of its own from returning. *)
Theorem single_flight (w0 : World E) (lo hi : Time) (N : nat) evs Q :
  refreshMu (store w0) = false ->
  lo <= clock w0 <= hi ->
  tokenExpiration (store w0) < Time.Add lo (authRefreshBuffer (store w0)) ->
  reader_succeeds (store w0) ->
  refresh_succeeds (store w0) hi ->
  pool_steps (around_within lo hi) (mkPool w0 (replicate N getValidToken)) evs Q ->
  (refreshes evs <= 1)%nat
  /\ (exists newToken, forall i r,
         threads Q !! i = Some (Ret r) ->
         r = (newToken, None)
         /\ token (store (shared Q)) = newToken
         /\ refreshes evs = 1%nat
         /\ exists o identity o',
              refreshTokenFunc (store w0) o identity = (o', inl newToken))
  /\ ((exists i p, threads Q !! i = Some p /\ returned p = None) ->
      exists i p, threads Q !! i = Some p /\ enabled p (shared Q) = true)
  /\ Forall (fun p => steps_left p 8) (threads Q).
Proof.
  intros Hmu Hclk Hstale Hreader Hrefresh Hsteps.
  destruct (herd_steps w0 lo hi N evs Q Hmu Hclk Hstale Hreader Hrefresh Hsteps)
    as (ph & holder & pts & Hts & Hinv).
  split; [ | split; [ | split ] ].
  - rewrite (inv_count _ _ _ _ _ _ _ _ Hinv). destruct ph; lia.
  - exists (match ph with Refreshed tok => tok | _ => EmptyString end).
    intros i r Hi. rewrite Hts, list_lookup_fmap in Hi.
    destruct (pts !! i) as [pt | ] eqn:Hpt; [ | discriminate ].
    cbn in Hi. injection Hi as Hcode. apply code_returned in Hcode. subst pt.
    destruct (inv_points _ _ _ _ _ _ _ _ Hinv i _ Hpt) as (tok & -> & ->).
    split; [ reflexivity | ].
    split; [ exact (proj1 (inv_cache _ _ _ _ _ _ _ _ Hinv)) | ].
    split; [ exact (inv_count _ _ _ _ _ _ _ _ Hinv) | ].
    exact (proj2 (inv_new _ _ _ _ _ _ _ _ Hinv)).
  - intros (i & p & Hi & Hret).
    rewrite Hts, list_lookup_fmap in Hi.
    destruct (pts !! i) as [pt | ] eqn:Hpt; [ | discriminate ].
    cbn in Hi. injection Hi as <-.
    assert (Hnot : forall r, pt <> AtDone r).
    { intros r ->. discriminate. }
    destruct holder as [k | ] eqn:Hholder.
    + destruct (inv_holder_in _ _ _ _ _ _ _ _ Hinv k eq_refl) as [q Hq].
      exists k, (code q). split.
      * rewrite Hts, list_lookup_fmap, Hq. reflexivity.
      * apply enabled_code, next_enabled.
        -- left. apply (inv_holder _ _ _ _ _ _ _ _ Hinv k q Hq). reflexivity.
        -- intros r ->.
           pose proof (proj2 (inv_holder _ _ _ _ _ _ _ _ Hinv k _ Hq) eq_refl).
           discriminate.
    + exists i, (code pt). split.
      * rewrite Hts, list_lookup_fmap, Hpt. reflexivity.
      * apply enabled_code, next_enabled; [ right | exact Hnot ].
        rewrite (inv_lock _ _ _ _ _ _ _ _ Hinv). reflexivity.
  - rewrite Hts. apply Forall_fmap, Forall_forall. intros pt _. cbn.
    apply steps_left_code. destruct pt; cbn; lia.
Qed.

End single_flight.

(** ** The properties on the stand-ins *)

Section on_samples.
#[local] Existing Instances Sample.unicode Sample.jwt Sample.session_interceptor.

Local Ltac by_computation :=
  first [ vm_compute; reflexivity
        | vm_compute; let Hc := fresh in intro Hc; discriminate Hc ].

Example extract_1h :
  extractTokenExpiration Sample.token_1h = Sample.today + Time.Hour.
Proof. reflexivity. Qed.

Example extract_empty : extractTokenExpiration EmptyString = Time.zero.
Proof. reflexivity. Qed.

Example extract_malformed : extractTokenExpiration "not-a-jwt" = Time.zero.
Proof. reflexivity. Qed.

Example extract_no_exp : extractTokenExpiration "J" = Time.zero.
Proof. reflexivity. Qed.

Example blank_spaces :
  stringsx.IsBlank
    (String " " (String (ascii_of_nat 9) (String (ascii_of_nat 160) EmptyString)))
  = true.
Proof. reflexivity. Qed.

(** Buffer of two minutes, token A expires in one hour: served from the
    cache. *)
Example fresh_token_is_served :
  run getValidToken
      (Sample.world_with Sample.reader_ok (Sample.refresh_to "C") Sample.token_1h)
  = Some (Sample.world_with Sample.reader_ok (Sample.refresh_to "C") Sample.token_1h,
          [], (Sample.token_1h, None)).
Proof. reflexivity. Qed.

(** Token B expires in thirty seconds: refreshed to the new token. *)
Example stale_token_is_refreshed :
  run getValidToken
      (Sample.world_with Sample.reader_ok (Sample.refresh_to Sample.token_1h)
                         Sample.token_30s)
  = Some ({| clock := Sample.today; outside := 1%nat;
             store := Sample.store_with Sample.reader_ok
                        (Sample.refresh_to Sample.token_1h) Sample.token_1h |},
          [IdentityGet; RefreshToken Sample.identity], (Sample.token_1h, None)).
Proof. reflexivity. Qed.

Example failed_refresh_clears :
  run getValidToken
      (Sample.world_with Sample.reader_ok Sample.refresh_fails Sample.token_30s)
  = Some ({| clock := Sample.today; outside := 1%nat;
             store := Sample.store_with Sample.reader_ok Sample.refresh_fails
                        EmptyString |},
          [IdentityGet; RefreshToken Sample.identity],
          (EmptyString, Some "failed to refresh"%string)).
Proof. reflexivity. Qed.

(** A token that expires exactly at the deadline is served from the cache. *)
Example boundary_token_is_served :
  let w := Sample.world_with Sample.reader_ok (Sample.refresh_to "C") Sample.token_2m in
  tokenExpiration (store w) = deadline w
  /\ run getValidToken w = Some (w, [], (Sample.token_2m, None)).
Proof. split; reflexivity. Qed.

(** The generations of the store's own test. *)
Example generation_by_recover :
  let s0 := newInterceptorStore {| Sample.number := 0; Sample.down := false |} in
  let s1 := (recover s0 None 0).1.1 in
  let s2 := (recover s1 None 0).1.1 in
  let s3 := (recover s2 None 1).1.1 in
  (generation s0, generation s1, generation s2, generation s3) = (0, 1, 1, 2)
  /\ (recover s1 (None : option Z) 0).1.2 = [].
Proof. split; reflexivity. Qed.

(** The counter is a uint64. *)
Example generation_wraps :
  generation (recover (Sample.session_store 0 false (2 ^ 64 - 1)) None (2 ^ 64 - 1)).1.1
  = 0.
Proof. reflexivity. Qed.

(** *** Single flight *)

(** Two callers find the cache stale before either takes the lock, and the
    refresh function gives a token with no expiration the decoder can read:
    the second caller, under the lock after the first, finds the new token
    stale as well and refreshes again. *)
Lemma single_flight_needs_a_fresh_token : ~ single_flight_unconditional.
Proof.
  intros Hclaim.
  set (w0 := Sample.world_with Sample.reader_ok (Sample.refresh_to "test-token")
                               Sample.token_30s).
  set (w2 := {| clock := Sample.today; outside := 2%nat;
                store := Sample.store_with Sample.reader_ok
                           (Sample.refresh_to "test-token") "test-token" |}).
  set (turns := [0; 0; 1; 1; 0; 0; 0; 0; 0; 0; 1; 1; 1; 1; 1; 1]%nat).
  assert (Hturns :
            schedule turns (mkPool w0 (replicate 2 getValidToken))
            = Some (mkPool w2 [Ret ("test-token"%string, None);
                               Ret ("test-token"%string, None)],
                    [IdentityGet; RefreshToken Sample.identity;
                     IdentityGet; RefreshToken Sample.identity]))
    by reflexivity.
  pose proof (schedule_steps around turns _ _ _ Hturns) as Hsteps.
  assert (Hstale : tokenExpiration (store w0) < deadline w0) by by_computation.
  destruct (Hclaim Sample.unicode Sample.jwt nat w0 2%nat _ _ eq_refl Hstale Hsteps)
    as [Hle _].
  cbn in Hle. lia.
Qed.

(** The same two callers, and a refresh function whose token expires in
    one hour: the second caller finds it under the lock and returns it. *)
Lemma single_flight_witness :
  let w0 := Sample.world_with Sample.reader_ok (Sample.refresh_to Sample.token_1h)
                              Sample.token_30s in
  let w1 := {| clock := Sample.today; outside := 1%nat;
               store := Sample.store_with Sample.reader_ok
                          (Sample.refresh_to Sample.token_1h) Sample.token_1h |} in
  let lo := Sample.today in
  let hi := Sample.today + Time.Minute in
  let evs := [IdentityGet; RefreshToken Sample.identity] in
  let Q := mkPool w1 [Ret (Sample.token_1h, None); Ret (Sample.token_1h, None)] in
  pool_steps (around_within lo hi) (mkPool w0 (replicate 2 getValidToken)) evs Q
  /\ (refreshes evs <= 1)%nat
  /\ (exists newToken, forall i r,
         threads Q !! i = Some (Ret r) ->
         r = (newToken, None)
         /\ token (store (shared Q)) = newToken
         /\ refreshes evs = 1%nat
         /\ exists o identity o',
              refreshTokenFunc (store w0) o identity = (o', inl newToken))
  /\ ((exists i p, threads Q !! i = Some p /\ returned p = None) ->
      exists i p, threads Q !! i = Some p /\ enabled p (shared Q) = true)
  /\ Forall (fun p => steps_left p 8) (threads Q).
Proof.
  intros w0 w1 lo hi evs Q.
  assert (Hsteps : pool_steps (around_within lo hi)
                     (mkPool w0 (replicate 2 getValidToken)) evs Q).
  { apply (schedule_steps (around_within lo hi)
             [0; 0; 1; 1; 0; 0; 0; 0; 0; 0; 1; 1; 1]%nat).
    reflexivity. }
  split; [ exact Hsteps | ].
  apply (single_flight w0 lo hi 2 evs Q).
  - reflexivity.
  - split; by_computation.
  - by_computation.
  - intros o. exists o, Sample.identity. reflexivity.
  - intros o identity. exists (S o), Sample.token_1h.
    split; [ reflexivity | by_computation ].
  - exact Hsteps.
Defined.

(** *** The staleness rule *)

Lemma staleness_boundary_counterexample : ~ stale_at_the_deadline.
Proof.
  intros Hclaim.
  set (w := Sample.world_with Sample.reader_ok (Sample.refresh_to "C")
                              Sample.token_2m).
  destruct (Hclaim Sample.unicode Sample.jwt nat w eq_refl) as [_ Hstale].
  destruct Hstale as (w' & evs & r & Hrun); [ by_computation | ].
  change (Some (w, @nil AuthEvent, (Sample.token_2m, @None error))
          = Some (w', IdentityGet :: evs, r)) in Hrun.
  discriminate Hrun.
Qed.

Lemma getValidToken_staleness_witness :
  let wA := Sample.world_with Sample.reader_ok (Sample.refresh_to "C")
                              Sample.token_1h in
  let wB := Sample.world_with Sample.reader_ok (Sample.refresh_to Sample.token_1h)
                              Sample.token_30s in
  (refreshMu (store wA) = false
   /\ deadline wA <= tokenExpiration (store wA)
   /\ run getValidToken wA = Some (wA, [], (token (store wA), None)))
  /\ (refreshMu (store wB) = false
      /\ tokenExpiration (store wB) < deadline wB
      /\ exists w' evs r,
           run getValidToken wB = Some (w', IdentityGet :: evs, r)
           /\ match identityReader (store wB) (outside wB) with
              | (_, inl identity) => evs = [RefreshToken identity]
              | (_, inr _) => evs = []
              end).
Proof.
  intros wA wB. split.
  - split; [ reflexivity | ]. split; [ by_computation | ].
    apply (getValidToken_staleness wA); [ reflexivity | by_computation ].
  - split; [ reflexivity | ]. split; [ by_computation | ].
    apply (getValidToken_staleness wB); [ reflexivity | by_computation ].
Defined.

(** *** A failed refresh *)

Lemma failed_refresh_clears_cache_witness :
  let w := Sample.world_with Sample.reader_ok Sample.refresh_fails
                             Sample.token_30s in
  let err := "failed to refresh"%string in
  refreshMu (store w) = false
  /\ tokenExpiration (store w) < deadline w
  /\ Time.is_duration (authRefreshBuffer (store w))
  /\ refresh_fails_with w err
  /\ exists w' evs,
       run getValidToken w = Some (w', evs, (EmptyString, Some err))
       /\ token (store w') = EmptyString
       /\ tokenExpiration (store w') = Time.zero
       /\ refreshMu (store w') = false
       /\ forall t, Time.is_wall_clock t ->
            exists w'' evs' r,
              run getValidToken (with_clock w' t) = Some (w'', IdentityGet :: evs', r).
Proof.
  intros w err.
  assert (H1 : refreshMu (store w) = false) by reflexivity.
  assert (H2 : tokenExpiration (store w) < deadline w) by by_computation.
  assert (H3 : Time.is_duration (authRefreshBuffer (store w))).
  { split; by_computation. }
  assert (H4 : refresh_fails_with w err) by reflexivity.
  repeat (split; [ assumption | ]).
  apply (failed_refresh_clears_cache w err H1 H2 H3 H4).
Defined.

(** *** The cache invariant *)

Lemma cache_invariant_witness :
  let w := {| clock := Sample.today; outside := 0%nat;
              store := newRefreshableAuthStore Sample.reader_ok
                         (Sample.refresh_to Sample.token_1h) (2 * Time.Minute) |} in
  let calls := [CallSetBearerToken Sample.token_30s; CallGetValidToken] in
  let Q := mkPool (with_store w (setBearerToken (store w) Sample.token_30s))
                  (<[0%nat := Ret tt]> (map call_prog calls)) in
  cache_inv (store w)
  /\ pool_steps around (mkPool w (map call_prog calls)) [] Q
  /\ cache_inv (store (shared Q)).
Proof.
  intros w calls Q.
  assert (H1 : cache_inv (store w)).
  { apply (proj1 cache_invariant). }
  assert (H2 : pool_steps around (mkPool w (map call_prog calls)) [] Q).
  { apply (run_in_pool around (call_prog (CallSetBearerToken Sample.token_30s)) w
             (map call_prog calls) 0%nat); reflexivity. }
  split; [ exact H1 | ]. split; [ exact H2 | ].
  exact (proj2 cache_invariant w calls [] Q H1 H2).
Defined.

(** *** The generation counter *)

Lemma generation_counts_recoveries_witness :
  let i := {| Sample.number := 0; Sample.down := false |} in
  let ops : list (StoreOp nat Z) :=
    [OpRecover None 0; OpRecover None 0; OpGetGeneration; OpRecover None 1] in
  Z.of_nat (length ops) < 2 ^ 64
  /\ generation (do_ops (newInterceptorStore i) ops) = 2
  /\ generation (newInterceptorStore i) = 0
  /\ generation (do_ops (newInterceptorStore i) ops)
     = Z.of_nat (recoveries (newInterceptorStore i) ops)
  /\ forall before op after, ops = before ++ op :: after ->
       let s := do_ops (newInterceptorStore i) before in
       generation (do_op s op) = generation s + (if recovers s op then 1 else 0)
       /\ generation s <= generation (do_op s op).
Proof.
  intros i ops.
  assert (Hlen : Z.of_nat (length ops) < 2 ^ 64) by by_computation.
  split; [ exact Hlen | ]. split; [ reflexivity | ].
  apply (generation_counts_recoveries i ops Hlen).
Defined.

(** *** The retry hook *)

(** Another request's recovery lands between the hook's read and its
    [recover]. *)
Lemma recover_only_at_the_baseline_witness :
  let landed (s : interceptorStore Sample.session) :=
    {| interceptor := {| Sample.number := 1; Sample.down := false |};
       generation := generation s + 1 |} in
  let s := Sample.session_store 0 false 0 in
  let st := Sample.intercepted 0 in
  exists s' evs st',
    run_among [id; landed; id; id] (retryHook st (Some 403) None) s
    = Some (s', evs, st')
    /\ evs = [ApplyCall]
    /\ payload (request st') = 1%nat
    /\ initGen st' = 1.
Proof.
  intros landed s st.
  destruct (recover_only_at_the_baseline id landed id id s st (Some 403) None)
    as (s' & evs & st' & Hrun & _ & _ & Hskip).
  destruct Hskip as (Hevs & Hs' & Hreq & Hgen); [ reflexivity | by_computation | ].
  exists s', evs, st'. split; [ exact Hrun | ]. split; [ exact Hevs | ].
  split; [ rewrite Hreq; reflexivity | rewrite Hgen; reflexivity ].
Defined.

(** *** A failed recovery *)

Lemma failed_recovery_is_tried_again_witness :
  let s := Sample.session_store 0 true 0 in
  let st := Sample.intercepted 0 in
  let e := "recovery failed"%string in
  generation s = initGen st
  /\ (Recover (interceptor s) (Some 403)).2 = Some e
  /\ recover s (Some 403) (initGen st) = (s, [RecoverCall], Some e)
  /\ run (retryHook st (Some 403) None) s = Some (s, [RecoverCall], st)
  /\ forall st2 (resp2 : option Z) (err2 : option error),
       initGen st2 = initGen st ->
       exists s'' evs st'',
         run (retryHook st2 resp2 err2) s = Some (s'', RecoverCall :: evs, st'').
Proof.
  intros s st e.
  assert (H1 : generation s = initGen st) by reflexivity.
  assert (H2 : (Recover (interceptor s) (Some 403)).2 = Some e) by reflexivity.
  split; [ exact H1 | ]. split; [ exact H2 | ].
  apply (failed_recovery_is_tried_again s st (Some 403) None e H1 H2).
Defined.

(** *** Unknown labels *)

Lemma unknown_label_fails_at_send_witness :
  let c : Client nat Sample.session nat := NewClient 0%nat (mkOptions 0) in
  let label := "non-existent"%string in
  auths c !! label = None
  /\ interceptors c !! label = None
  /\ (exists hook : Z -> option error,
        AR c Sample.today 0%nat label = Some (OnAfterResponse (R c) hook, c, 0%nat, [])
        /\ send_error (OnAfterResponse (R c) hook) 200
           = Some "auth manager for service non-existent does not exist"%string)
  /\ (exists hook : Z -> option error,
        IR c label = (OnAfterResponse (R c) hook, None)
        /\ send_error (OnAfterResponse (R c) hook) 200
           = Some "interceptor non-existent does not exist"%string).
Proof.
  intros c label.
  assert (H1 : auths c !! label = None) by reflexivity.
  assert (H2 : interceptors c !! label = None) by reflexivity.
  split; [ exact H1 | ]. split; [ exact H2 | ].
  destruct (unknown_label_fails_at_send (Response:=Z) c Sample.today 0%nat label)
    as [HAR HIR].
  split.
  - destruct (HAR H1) as (hook & Hcall & Hsend). exists hook.
    split; [ exact Hcall | exact (proj2 (Hsend 200)) ].
  - destruct (HIR H2) as (hook & Hcall & Hsend). exists hook.
    split; [ exact Hcall | exact (proj2 (Hsend 200)) ].
Defined.

(** *** Undecodable tokens *)


(** *** The entry instant *)

(** While the caller waits for the lock, five seconds pass and the holder
    before it caches a token that expires two minutes and one second after
    the caller entered.  Read at the lock, the clock would call it stale;
    the caller returns it. *)
Lemma both_checks_use_the_entry_instant_witness :
  let w := Sample.world_with Sample.reader_ok (Sample.refresh_to Sample.token_1h)
                             Sample.token_30s in
  let before_lock (w : World nat) :=
    {| clock := clock w + 5 * Time.Second; outside := 1%nat;
       store := setBearerToken (store w) Sample.token_121s |} in
  let w3 := with_store (before_lock w) (set_refreshMu (store (before_lock w)) true) in
  tokenExpiration (store w) < Time.Add (clock w) (authRefreshBuffer (store w))
  /\ refreshMu (store (before_lock w)) = false
  /\ Time.Add (clock w) (authRefreshBuffer (store w3)) <= tokenExpiration (store w3)
  /\ tokenExpiration (store w3) < Time.Add (clock w3) (authRefreshBuffer (store w3))
  /\ run_among [id; id; before_lock; id] getValidToken w
     = Some (with_store w3 (set_refreshMu (store w3) false), [],
             (Sample.token_121s, None)).
Proof.
  intros w before_lock w3.
  assert (H1 : tokenExpiration (store w)
               < Time.Add (clock w) (authRefreshBuffer (store w))) by by_computation.
  assert (H2 : refreshMu (store (before_lock w)) = false) by reflexivity.
  assert (H3 : Time.Add (clock w) (authRefreshBuffer (store w3))
               <= tokenExpiration (store w3)) by by_computation.
  assert (H4 : tokenExpiration (store w3)
               < Time.Add (clock w3) (authRefreshBuffer (store w3))) by by_computation.
  repeat (split; [ assumption | ]).
  destruct (both_checks_use_the_entry_instant id id before_lock id w) as [_ Hslow].
  destruct (Hslow H1 H2) as [Hfresh _].
  exact (Hfresh H3).
Defined.

End on_samples.

(** * Properties of the further code *)

(** ** Blank strings *)

Section blank_facts.
Context `{Unicode}.

Lemma asciiSpace_cases (c : ascii) :
  stringsx.asciiSpace c = 1 \/ stringsx.asciiSpace c = 0.
Proof.
  unfold stringsx.asciiSpace. cbv zeta.
  destruct (_ || _); [ left | right ]; reflexivity.
Qed.

Lemma IsAsciiSpace_is_ascii (c : ascii) : IsAsciiSpace c = true -> is_ascii c = true.
Proof.
  unfold IsAsciiSpace, is_ascii, stringsx.asciiSpace, stringsx.RuneSelf. cbv zeta.
  destruct (_ || _) eqn:Hsp; [ | discriminate ]. intros _.
  apply Z.ltb_lt.
  repeat (apply orb_true_iff in Hsp; destruct Hsp as [Hsp | Hsp]);
    apply Z.eqb_eq in Hsp; lia.
Qed.

Lemma IsBlank_loop_ascii (s : string) :
  all_bytes is_ascii s = true ->
  stringsx.IsBlank_loop s = all_bytes IsAsciiSpace s.
Proof.
  induction s as [ | c rest IH]; cbn [stringsx.IsBlank_loop all_bytes];
    [ reflexivity | ].
  intros Hall. apply andb_true_iff in Hall. destruct Hall as [Hc Hrest].
  unfold is_ascii in Hc. apply Z.ltb_lt in Hc.
  destruct (Z.leb_spec stringsx.RuneSelf (stringsx.byte_val c)) as [Hge | _]; [ lia | ].
  unfold IsAsciiSpace.
  destruct (asciiSpace_cases c) as [-> | ->]; cbn [Z.eqb andb];
    [ apply IH, Hrest | reflexivity ].
Qed.

Lemma IsBlank_loop_eq (s : string) : stringsx.IsBlank s = stringsx.IsBlank_loop s.
Proof. destruct s; reflexivity. Qed.

(** X1.  On a string of ASCII bytes [IsBlank] does not depend on the
    Unicode tables: it holds exactly when every byte is one of the six
    ASCII spaces (tab, line feed, vertical tab, form feed, carriage return,
    space); in particular on the empty string. *)
Theorem IsBlank_ascii (s : string) :
  all_bytes is_ascii s = true ->
  stringsx.IsBlank s = all_bytes IsAsciiSpace s.
Proof. intros Hall. rewrite IsBlank_loop_eq. apply IsBlank_loop_ascii, Hall. Qed.

Lemma IsBlank_loop_skips (spaces rest : string) :
  all_bytes IsAsciiSpace spaces = true ->
  stringsx.IsBlank_loop (spaces +:+ rest) = stringsx.IsBlank_loop rest.
Proof.
  intros Hsp.
  induction spaces as [ | c spaces IH]; [ reflexivity | ].
  change (String c spaces +:+ rest) with (String c (spaces +:+ rest)).
  cbn [stringsx.IsBlank_loop].
  cbn [all_bytes] in Hsp. apply andb_true_iff in Hsp. destruct Hsp as [Hc Hrest].
  pose proof (IsAsciiSpace_is_ascii c Hc) as Hascii.
  unfold is_ascii in Hascii. apply Z.ltb_lt in Hascii.
  destruct (Z.leb_spec stringsx.RuneSelf (stringsx.byte_val c)) as [Hge | _]; [ lia | ].
  unfold IsAsciiSpace in Hc. apply Z.eqb_eq in Hc. rewrite Hc. cbn [Z.eqb].
  apply IH, Hrest.
Qed.

(** X2.  Leading ASCII spaces do not count: [IsBlank] of a string that
    starts with ASCII spaces is [IsBlank] of what follows them, whatever
    that is (empty, ASCII or not). *)
Theorem IsBlank_skips_ascii_spaces (spaces rest : string) :
  all_bytes IsAsciiSpace spaces = true ->
  stringsx.IsBlank (spaces +:+ rest) = stringsx.IsBlank rest.
Proof.
  intros Hsp. rewrite !IsBlank_loop_eq. apply IsBlank_loop_skips, Hsp.
Qed.

(** X3.  A byte of ASCII that is not a space, after ASCII spaces only, makes
    the string not blank, whatever follows it and whatever the Unicode
    tables say; so [UpdateIfExists] stores such a value through a pointer
    that is not nil. *)
Theorem IsBlank_false_at_ascii_letter (spaces : string) (c : ascii) (rest : string)
    (old : string) :
  all_bytes IsAsciiSpace spaces = true ->
  is_ascii c = true ->
  IsAsciiSpace c = false ->
  stringsx.IsBlank (spaces +:+ String c rest) = false
  /\ UpdateIfExists (Some old) (spaces +:+ String c rest)
     = Some (spaces +:+ String c rest).
Proof.
  intros Hsp Hascii Hc.
  assert (Hb : stringsx.IsBlank (spaces +:+ String c rest) = false).
  { rewrite IsBlank_loop_eq, (IsBlank_loop_skips spaces (String c rest) Hsp).
    cbn [stringsx.IsBlank_loop].
    unfold is_ascii in Hascii. apply Z.ltb_lt in Hascii.
    destruct (Z.leb_spec stringsx.RuneSelf (stringsx.byte_val c)) as [Hge | _]; [ lia | ].
    unfold IsAsciiSpace in Hc.
    destruct (asciiSpace_cases c) as [Hone | Hzero];
      [ rewrite Hone in Hc; discriminate | ].
    rewrite Hzero. reflexivity. }
  split; [ exact Hb | ].
  unfold UpdateIfExists, IsNotBlank. rewrite Hb. reflexivity.
Qed.

End blank_facts.

(** ** One caller of the token store, further *)

Section lone_caller.
Context `{Unicode} `{Jwt} {E : Type}.
Implicit Types (w : World E).

(** X4.  A call to [getValidToken] that no one else holds the refresh lock
    against always returns.  The token it returns is the token the cache
    holds afterwards; with an error the token is empty and the cached
    expiration is the zero instant; the lock is free again, and the clock,
    the buffer and the collaborators of the store are as before. *)
Theorem getValidToken_returns_the_cached_token w :
  refreshMu (store w) = false ->
  exists w' evs tok err,
    run getValidToken w = Some (w', evs, (tok, err))
    /\ token (store w') = tok
    /\ (is_Some err -> tok = EmptyString /\ tokenExpiration (store w') = Time.zero)
    /\ refreshMu (store w') = false
    /\ clock w' = clock w
    /\ authRefreshBuffer (store w') = authRefreshBuffer (store w)
    /\ identityReader (store w') = identityReader (store w)
    /\ refreshTokenFunc (store w') = refreshTokenFunc (store w).
Proof.
  intros Hf.
  assert (Hall : forall (w' : World E) evs tok err,
             run getValidToken w = Some (w', evs, (tok, err)) ->
             token (store w') = tok ->
             (is_Some err -> tok = EmptyString /\ tokenExpiration (store w') = Time.zero) ->
             store w' = setBearerToken (store w) tok \/ w' = w ->
             clock w' = clock w ->
             exists w' evs tok err,
               run getValidToken w = Some (w', evs, (tok, err))
               /\ token (store w') = tok
               /\ (is_Some err ->
                   tok = EmptyString /\ tokenExpiration (store w') = Time.zero)
               /\ refreshMu (store w') = false
               /\ clock w' = clock w
               /\ authRefreshBuffer (store w') = authRefreshBuffer (store w)
               /\ identityReader (store w') = identityReader (store w)
               /\ refreshTokenFunc (store w') = refreshTokenFunc (store w)).
  { intros w' evs tok err Hrun Htok Herr Hst Hclk.
    assert (Hcfg : refreshMu (store w') = false
                   /\ authRefreshBuffer (store w') = authRefreshBuffer (store w)
                   /\ identityReader (store w') = identityReader (store w)
                   /\ refreshTokenFunc (store w') = refreshTokenFunc (store w)).
    { destruct Hst as [-> | ->]; cbn; auto. }
    destruct Hcfg as (H1 & H2 & H3 & H4).
    exists w', evs, tok, err. repeat split; try assumption; apply Herr; assumption. }
  destruct (Z.lt_ge_cases (tokenExpiration (store w)) (deadline w)) as [Hd | Hd].
  - pose proof (run_stale w Hd Hf) as Hrun.
    destruct (identityReader (store w) (outside w)) as [o [identity | e]].
    + destruct (refreshTokenFunc (store w) o identity) as [o' [newToken | e]].
      * eapply Hall; [ exact Hrun | reflexivity | | left; reflexivity | reflexivity ].
        intros [? Hsome]. discriminate Hsome.
      * eapply Hall; [ exact Hrun | reflexivity | | left; reflexivity | reflexivity ].
        intros _. split; reflexivity.
    + eapply Hall; [ exact Hrun | reflexivity | | left; reflexivity | reflexivity ].
      intros _. split; reflexivity.
  - eapply Hall; [ exact (run_fresh w Hd) | reflexivity | | right; reflexivity | reflexivity ].
    intros [? Hsome]. discriminate Hsome.
Qed.

(** X5.  A refresh that succeeds, and the call after it.  The call that
    finds the cache stale fetches the identity, hands that identity to the
    refresh function together with the outside as the fetch left it, caches
    the new token with the expiration decoded from it and returns it; a
    later call, at any instant for which the new token is still fresh, is
    served that token from the cache without a call to the collaborators
    and without a change of state. *)
Theorem refresh_then_cached w (o o' : E) (identity : Identity) (newToken : string)
    (t : Time) :
  refreshMu (store w) = false ->
  tokenExpiration (store w) < deadline w ->
  identityReader (store w) (outside w) = (o, inl identity) ->
  refreshTokenFunc (store w) o identity = (o', inl newToken) ->
  Time.Add t (authRefreshBuffer (store w)) <= extractTokenExpiration newToken ->
  let w' := {| clock := clock w; outside := o';
               store := setBearerToken (store w) newToken |} in
  run getValidToken w
  = Some (w', [IdentityGet; RefreshToken identity], (newToken, None))
  /\ run getValidToken (with_clock w' t)
     = Some (with_clock w' t, [], (newToken, None)).
Proof.
  intros Hf Hd Hget Hcall Hfresh w'. split.
  - rewrite (run_stale w Hd Hf), Hget, Hcall. reflexivity.
  - apply (run_fresh (with_clock w' t)). exact Hfresh.
Qed.

End lone_caller.

(** ** The refresh lock *)

Section lock_facts.
Context `{Unicode} `{Jwt} {E : Type}.
Implicit Types (w : World E) (pt : Point) (pts : list Point).

Lemma pt_sound_outside w w' pt :
  holds pt = false -> pt_sound w pt -> pt_sound w' pt.
Proof. destruct pt; cbn; intros Hh Hs; try discriminate; exact Hs. Qed.

Lemma sound_insert w w' pts (holder : option nat) i pt' :
  (forall j q, pts !! j = Some q -> (holds q = true <-> holder = Some j)) ->
  (holder = Some i \/ holder = None \/ store w' = store w) ->
  (forall j q, pts !! j = Some q -> pt_sound w q) ->
  pt_sound w' pt' ->
  forall j q, <[i := pt']> pts !! j = Some q -> pt_sound w' q.
Proof.
  intros Hold Hcase Hsound Hnew j q Hq.
  destruct (lookup_insert_cases _ _ _ _ _ Hq) as [[-> ->] | [Hne Hj]];
    [ exact Hnew | ].
  destruct (holds q) eqn:Hh.
  - pose proof (proj1 (Hold j q Hj) Hh) as Hj'.
    destruct Hcase as [Hi | [Hnone | Hst]]; try congruence.
    specialize (Hsound j q Hj). destruct q; cbn in *; try exact Hsound.
    rewrite Hst. exact Hsound.
  - eapply pt_sound_outside; [ exact Hh | eapply Hsound, Hj ].
Qed.

(** One step of one caller keeps the lock invariant. *)
Lemma lock_step holder pts w i pt w' evs' pt' :
  lock_inv holder pts w ->
  pts !! i = Some pt ->
  next pt w = Some (w', evs', pt') ->
  exists holder', lock_inv holder' (<[i := pt']> pts) w'.
Proof.
  intros [Hlock Hholder Hhin Hsound] Hi Hnext.
  pose proof (Hholder i pt Hi) as Hhold.
  pose proof (Hsound i pt Hi) as Hs.
  assert (Hsame : forall w1 q,
             store w1 = store w -> holds q = holds pt -> pt_sound w1 q ->
             lock_inv holder (<[i := q]> pts) w1).
  { intros w1 q Hst Hh Hq. split.
    - rewrite Hst. exact Hlock.
    - eapply holder_same; eauto.
    - apply holder_in_insert, Hhin.
    - eapply (sound_insert w w1); [ exact Hholder | right; right; exact Hst
                                  | exact Hsound | exact Hq ]. }
  destruct pt as [ | now | now | now | | identity | tok r | r | r]; cbn in Hnext.
  - injection Hnext as <- <- <-. exists holder.
    apply Hsame; [ reflexivity | reflexivity | exact Logic.I ].
  - injection Hnext as <- <- <-. exists holder.
    apply Hsame; [ reflexivity | destruct (negb _); reflexivity | ].
    destruct (negb _); cbn; [ | exact Logic.I ].
    intros [? Hsome]. discriminate Hsome.
  - destruct (refreshMu (store w)) eqn:Hmu; [ discriminate | ].
    injection Hnext as <- <- <-.
    assert (Hnone : holder = None).
    { destruct holder; [ | reflexivity ].
      rewrite bool_decide_eq_true_2 in Hlock by eauto. discriminate. }
    subst holder. exists (Some i). split; cbn.
    + reflexivity.
    + intros j q Hq.
      destruct (lookup_insert_cases _ _ _ _ _ Hq) as [[-> ->] | [Hne Hj]].
      * cbn. split; reflexivity.
      * split.
        -- intros Hh. apply (Hholder j q Hj) in Hh. discriminate.
        -- intros [= Heq]. congruence.
    + intros j [= <-]. apply lookup_lt_is_Some. rewrite length_insert.
      apply lookup_lt_is_Some. eauto.
    + eapply (sound_insert w); [ exact Hholder | right; left; reflexivity
                               | exact Hsound | exact Logic.I ].
  - injection Hnext as <- <- <-. exists holder.
    apply Hsame; [ reflexivity | destruct (negb _); reflexivity | ].
    destruct (negb _); cbn; [ | exact Logic.I ].
    split; [ reflexivity | ]. intros [? Hsome]. discriminate Hsome.
  - destruct (identityReader (store w) (outside w)) as [o [identity | err]];
      injection Hnext as <- <- <-; exists holder;
      (apply Hsame; [ reflexivity | reflexivity | ]).
    + exact Logic.I.
    + cbn. split; [ reflexivity | ]. intros _. reflexivity.
  - destruct (refreshTokenFunc (store w) (outside w) identity) as [o [tok | err]];
      injection Hnext as <- <- <-; exists holder;
      (apply Hsame; [ reflexivity | reflexivity | ]).
    + cbn. split; [ reflexivity | ]. intros [? Hsome]. discriminate Hsome.
    + cbn. split; [ reflexivity | ]. intros _. reflexivity.
  - injection Hnext as <- <- <-. exists holder. split; cbn.
    + exact Hlock.
    + eapply holder_same; eauto.
    + apply holder_in_insert, Hhin.
    + eapply (sound_insert w); [ exact Hholder | left; apply Hhold; reflexivity
                               | exact Hsound | ].
      cbn in Hs. destruct Hs as [Htok Herr]. cbn. split; [ congruence | ].
      intros Hsome. rewrite (Herr Hsome) in *. split; [ congruence | reflexivity ].
  - injection Hnext as <- <- <-. exists None. split; cbn.
    + reflexivity.
    + intros j q Hq.
      destruct (lookup_insert_cases _ _ _ _ _ Hq) as [[-> ->] | [Hne Hj]].
      * cbn. split; discriminate.
      * split; [ | discriminate ].
        intros Hh. apply (Hholder j q Hj) in Hh.
        destruct Hhold as [Hme _]. rewrite (Hme eq_refl) in Hh. congruence.
    + discriminate.
    + eapply (sound_insert w); [ exact Hholder | left; apply Hhold; reflexivity
                               | exact Hsound | ].
      cbn in Hs. cbn. intros Hsome. apply Hs, Hsome.
  - discriminate.
Qed.

Lemma lock_env holder pts w w' :
  lock_inv holder pts w -> around w w' -> lock_inv holder pts w'.
Proof.
  intros [Hlock Hholder Hhin Hsound] Hst. unfold around in Hst.
  split; try assumption.
  - rewrite Hst. exact Hlock.
  - intros i pt Hi. specialize (Hsound i pt Hi).
    destruct pt; cbn in *; try exact Hsound. rewrite Hst. exact Hsound.
Qed.

Lemma lock_steps w0 (N : nat) evs Q :
  refreshMu (store w0) = false ->
  pool_steps around (mkPool w0 (replicate N getValidToken)) evs Q ->
  exists holder pts,
    threads Q = code <$> pts /\ lock_inv holder pts (shared Q).
Proof.
  intros Hmu Hsteps.
  remember (mkPool w0 (replicate N getValidToken)) as P eqn:HP.
  induction Hsteps as [P | P evs Q evs' Q' Hsteps IH Hstep].
  - subst P. exists None, (replicate N AtEntry). split.
    + cbn. rewrite fmap_replicate. reflexivity.
    + split; cbn.
      * exact Hmu.
      * intros i pt Hi. apply lookup_replicate in Hi. destruct Hi as [-> _].
        cbn. split; discriminate.
      * discriminate.
      * intros i pt Hi. apply lookup_replicate in Hi. destruct Hi as [-> _].
        exact Logic.I.
  - destruct (IH HP) as (holder & pts & Hts & Hinv). clear IH.
    destruct Hstep as [Q i f w' evs' p' Hi Hf | Q w' Henv]; cbn.
    + rewrite Hts, list_lookup_fmap in Hi.
      destruct (pts !! i) as [pt | ] eqn:Hpt; [ | discriminate ].
      cbn in Hi. injection Hi as Hcode.
      rewrite (code_next pt f (shared Q) Hcode) in Hf.
      destruct (next pt (shared Q)) as [[[w1 evs1] pt'] | ] eqn:Hnext; [ | discriminate ].
      cbn in Hf. injection Hf as <- <- <-.
      destruct (lock_step _ _ _ _ _ _ _ _ Hinv Hpt Hnext) as (holder' & Hinv').
      exists holder', (<[i := pt']> pts). split; [ | exact Hinv' ].
      rewrite Hts, list_fmap_insert. reflexivity.
    + exists holder, pts. split; [ exact Hts | ]. eapply lock_env; eauto.
Qed.

(** Only a caller under the lock calls a collaborator. *)
Lemma next_calls_under_lock pt w w' evs pt' :
  next pt w = Some (w', evs, pt') -> evs <> [] -> holds pt = true /\ holds pt' = true.
Proof.
  destruct pt as [ | now | now | now | | identity | tok r | r | r]; cbn; intros Hn Hev;
    try (injection Hn as <- <- <-; congruence).
  - destruct (refreshMu (store w)); [ discriminate | ].
    injection Hn as <- <- <-. congruence.
  - destruct (identityReader (store w) (outside w)) as [o [identity | err]];
      injection Hn as <- <- <-; split; reflexivity.
  - destruct (refreshTokenFunc (store w) (outside w) identity) as [o [tok | err]];
      injection Hn as <- <- <-; split; reflexivity.
  - discriminate.
Qed.

(** X6.  Any number of goroutines call [getValidToken] on one store whose
    refresh lock is free, with collaborators that answer as they like,
    while the clock and the outside change.  In every state they reach, in
    whatever order their steps are taken: at most one caller stands between
    [refreshMu.Lock()] and [refreshMu.Unlock()]; the lock is taken exactly
    when one does, so it is free once all have returned; a step that calls
    the identity reader or the refresh function is taken with the lock held
    and leaves it held; and as long as one caller has not returned, some
    caller can take a step. *)
Theorem refresh_lock_is_exclusive (w0 : World E) (N : nat) evs Q :
  refreshMu (store w0) = false ->
  pool_steps around (mkPool w0 (replicate N getValidToken)) evs Q ->
  exists pts,
    threads Q = code <$> pts
    /\ (forall i j pi pj, pts !! i = Some pi -> pts !! j = Some pj ->
          holds pi = true -> holds pj = true -> i = j)
    /\ (refreshMu (store (shared Q)) = true
        <-> exists i pt, pts !! i = Some pt /\ holds pt = true)
    /\ (forall evs' Q', pool_step around Q evs' Q' -> evs' <> [] ->
          refreshMu (store (shared Q)) = true
          /\ refreshMu (store (shared Q')) = true)
    /\ ((exists i p, threads Q !! i = Some p /\ returned p = None) ->
        exists i p, threads Q !! i = Some p /\ enabled p (shared Q) = true).
Proof.
  intros Hmu Hsteps.
  destruct (lock_steps w0 N evs Q Hmu Hsteps) as (holder & pts & Hts & Hinv).
  exists pts. split; [ exact Hts | ].
  assert (Hheld : refreshMu (store (shared Q)) = true
                  <-> exists i pt, pts !! i = Some pt /\ holds pt = true).
  { rewrite (lock_held _ _ _ Hinv). split.
    - intros Hb. apply bool_decide_eq_true in Hb. destruct Hb as [k Hk].
      destruct (lock_holder_in _ _ _ Hinv k Hk) as [q Hq].
      exists k, q. split; [ exact Hq | ].
      apply (lock_holder _ _ _ Hinv k q Hq), Hk.
    - intros (i & pt & Hi & Hh). apply bool_decide_eq_true.
      rewrite (proj1 (lock_holder _ _ _ Hinv i pt Hi) Hh). eauto. }
  split; [ | split; [ exact Hheld | split ] ].
  - intros i j pi pj Hi Hj Hhi Hhj.
    apply (lock_holder _ _ _ Hinv i pi Hi) in Hhi.
    apply (lock_holder _ _ _ Hinv j pj Hj) in Hhj. congruence.
  - intros evs' Q' Hstep Hev.
    destruct Hstep as [Q i f w' evs' p' Hi Hf | Q w' Henv]; [ | congruence ].
    rewrite Hts, list_lookup_fmap in Hi.
    destruct (pts !! i) as [pt | ] eqn:Hpt; [ | discriminate ].
    cbn in Hi. injection Hi as Hcode.
    rewrite (code_next pt f (shared Q) Hcode) in Hf.
    destruct (next pt (shared Q)) as [[[w1 evs1] pt'] | ] eqn:Hnext; [ | discriminate ].
    cbn in Hf. injection Hf as <- <- <-.
    destruct (next_calls_under_lock _ _ _ _ _ Hnext Hev) as [Hh Hh'].
    split.
    + apply Hheld. eauto.
    + destruct (lock_step _ _ _ _ _ _ _ _ Hinv Hpt Hnext) as (holder' & Hinv').
      cbn. rewrite (lock_held _ _ _ Hinv'). apply bool_decide_eq_true.
      assert (Hi' : <[i := pt']> pts !! i = Some pt').
      { apply list_lookup_insert_eq. eapply lookup_lt_Some, Hpt. }
      rewrite (proj1 (lock_holder _ _ _ Hinv' i pt' Hi') Hh'). eauto.
  - intros (i & p & Hi & Hret).
    rewrite Hts, list_lookup_fmap in Hi.
    destruct (pts !! i) as [pt | ] eqn:Hpt; [ | discriminate ].
    cbn in Hi. injection Hi as <-.
    assert (Hnot : forall r, pt <> AtDone r).
    { intros r ->. discriminate. }
    destruct holder as [k | ] eqn:Hholder.
    + destruct (lock_holder_in _ _ _ Hinv k eq_refl) as [q Hq].
      exists k, (code q). split.
      * rewrite Hts, list_lookup_fmap, Hq. reflexivity.
      * apply enabled_code, next_enabled.
        -- left. apply (lock_holder _ _ _ Hinv k q Hq). reflexivity.
        -- intros r ->.
           pose proof (proj2 (lock_holder _ _ _ Hinv k _ Hq) eq_refl).
           discriminate.
    + exists i, (code pt). split.
      * rewrite Hts, list_lookup_fmap, Hpt. reflexivity.
      * apply enabled_code, next_enabled; [ right | exact Hnot ].
        rewrite (lock_held _ _ _ Hinv). reflexivity.
Qed.

(** X7.  The same callers.  At the step in which a caller returns, the
    token it returns is the token the cache holds; when it returns an
    error, that token is empty and the cached expiration is the zero
    instant, whatever the other callers have done meanwhile. *)
Theorem returns_what_the_cache_holds (w0 : World E) (N : nat) evs Q evs' Q'
    (i : nat) p (r : string * option error) :
  refreshMu (store w0) = false ->
  pool_steps around (mkPool w0 (replicate N getValidToken)) evs Q ->
  pool_step around Q evs' Q' ->
  threads Q !! i = Some p ->
  returned p = None ->
  threads Q' !! i = Some (Ret r) ->
  token (store (shared Q')) = r.1
  /\ (is_Some r.2 ->
      r.1 = EmptyString /\ tokenExpiration (store (shared Q')) = Time.zero).
Proof.
  intros Hmu Hsteps Hstep Hp Hret Hdone.
  destruct (lock_steps w0 N evs Q Hmu Hsteps) as (holder & pts & Hts & Hinv).
  destruct Hstep as [Q j f w' evs' p' Hj Hf | Q w' Henv]; cbn in Hdone.
  - destruct (decide (j = i)) as [-> | Hne].
    + rewrite list_lookup_insert_eq in Hdone by (eapply lookup_lt_Some, Hj).
      injection Hdone as ->.
      rewrite Hts, list_lookup_fmap in Hj.
      destruct (pts !! i) as [pt | ] eqn:Hpt; [ | discriminate ].
      cbn in Hj. injection Hj as Hcode.
      rewrite (code_next pt f (shared Q) Hcode) in Hf.
      destruct (next pt (shared Q)) as [[[w1 evs1] pt'] | ] eqn:Hnext; [ | discriminate ].
      cbn in Hf. injection Hf as <- <- Hret'.
      apply code_returned in Hret'. subst pt'.
      pose proof (lock_sound _ _ _ Hinv i pt Hpt) as Hs.
      destruct pt as [ | now | now | now | | identity | tok r' | r' | r']; cbn in Hnext.
      * discriminate.
      * injection Hnext as <- <- Hr.
        destruct (negb _); [ | discriminate ]. injection Hr as <-. cbn.
        split; [ reflexivity | ]. intros [? Hsome]. discriminate Hsome.
      * destruct (refreshMu (store (shared Q))); discriminate.
      * injection Hnext as <- <- Hr. destruct (negb _); discriminate.
      * destruct (identityReader _ _) as [o [identity | err]]; discriminate.
      * destruct (refreshTokenFunc _ _ _) as [o [tok | err]]; discriminate.
      * discriminate.
      * injection Hnext as <- <- <-. cbn. exact Hs.
      * discriminate.
    + rewrite list_lookup_insert_ne in Hdone by exact Hne.
      rewrite Hp in Hdone. injection Hdone as ->. discriminate.
  - rewrite Hp in Hdone. injection Hdone as ->. discriminate.
Qed.

End lock_facts.

(** ** The registries *)

Section registry_facts.
Context `{Unicode} `{Jwt}.
Context {E I Payload Response : Type} `{Interceptor I Payload Response}.
Implicit Types (c : Client E I Payload) (call : ClientCall E I).

(** A lone call on a store whose cache and lock are as the methods leave
    them, leaves them so. *)
Lemma run_getValidToken_ok (w : World E) :
  refreshMu (store w) = false ->
  tokenExpiration (store w) = extractTokenExpiration (token (store w)) ->
  exists w' evs r,
    run getValidToken w = Some (w', evs, r)
    /\ authRefreshBuffer (store w') = authRefreshBuffer (store w)
    /\ refreshMu (store w') = false
    /\ tokenExpiration (store w') = extractTokenExpiration (token (store w')).
Proof.
  intros Hf Hc.
  destruct (Z.lt_ge_cases (tokenExpiration (store w)) (deadline w)) as [Hd | Hd].
  - rewrite (run_stale w Hd Hf).
    destruct (identityReader (store w) (outside w)) as [o [identity | e]].
    + destruct (refreshTokenFunc (store w) o identity) as [o' [newToken | e]];
        eexists _, _, _; (split; [ reflexivity | ]); cbn; auto.
    + eexists _, _, _; (split; [ reflexivity | ]); cbn; auto.
  - rewrite (run_fresh w Hd). eexists _, _, _; (split; [ reflexivity | ]); auto.
Qed.

Lemma registry_ok_call c call :
  registry_ok c -> registry_ok (do_call (Response:=Response) c call).
Proof.
  intros [Hpos Hstores].
  destruct call as [l reader refresh | l tok | l | l i | l | l now o]; cbn.
  - split; [ exact Hpos | ]. cbn. intros label as_ Hl.
    apply lookup_insert_Some in Hl. destruct Hl as [[_ Heq] | [_ Hl]].
    + injection Heq as <-. cbn. auto.
    + eapply Hstores, Hl.
  - split; [ exact Hpos | ]. cbn. intros label as_ Hl.
    apply lookup_insert_Some in Hl. destruct Hl as [[_ Heq] | [_ Hl]].
    + discriminate Heq.
    + eapply Hstores, Hl.
  - split; [ exact Hpos | ]. cbn. intros label as_ Hl.
    apply lookup_delete_Some in Hl. destruct Hl as [_ Hl]. eapply Hstores, Hl.
  - split; [ exact Hpos | ]. exact Hstores.
  - split; [ exact Hpos | ]. exact Hstores.
  - unfold AR. destruct (auths c !! l) as [[t | as_] | ] eqn:Hl; cbn -[run getValidToken].
    + split; [ exact Hpos | ]. cbn. intros label as' Hl'.
      apply lookup_insert_Some in Hl'. destruct Hl' as [[_ Heq] | [_ Hl']].
      * discriminate Heq.
      * eapply Hstores, Hl'.
    + destruct (Hstores l as_ Hl) as (Hbuf & Hf & Hc).
      destruct (run_getValidToken_ok {| clock := now; outside := o; store := as_ |} Hf Hc)
        as (w' & evs & [tok err] & Hrun & Hbuf' & Hf' & Hc').
      rewrite Hrun.
      assert (Hok : registry_ok
                      {| blank := blank c;
                         client_authRefreshBuffer := client_authRefreshBuffer c;
                         auths := <[l := refreshableStore (store w')]> (auths c);
                         interceptors := interceptors c |}).
      { split; [ exact Hpos | ]. cbn. intros label as' Hl'.
        apply lookup_insert_Some in Hl'. destruct Hl' as [[_ Heq] | [_ Hl']].
        - injection Heq as <-. cbn in Hbuf'. rewrite Hbuf'. auto.
        - eapply Hstores, Hl'. }
      destruct err; exact Hok.
    + split; [ exact Hpos | ]. exact Hstores.
Qed.

(** X8.  A client made by [NewClient] and written to by any sequence of
    its methods ([RegisterAuth], [RegisterToken], [UnregisterAuth],
    [RegisterInterceptor], [UnregisterInterceptor] and [AR] calls made one
    after the other).  Its refresh buffer is the one of the options, or two
    minutes when that is zero or negative, so it is positive; every
    refreshable store of the registry has that buffer, a free refresh lock
    and a cached expiration decoded from its cached token; and so an [AR]
    on it always returns. *)
Theorem registry_stays_sound (blank : Payload) (opts : Options)
    (calls : list (ClientCall E I)) :
  let c := do_calls (Response:=Response) (NewClient blank opts) calls in
  client_authRefreshBuffer c
  = (if AuthRefreshBuffer opts <=? 0 then 2 * Time.Minute else AuthRefreshBuffer opts)
  /\ registry_ok c
  /\ forall label now o, is_Some (AR (Response:=Response) c now o label).
Proof.
  cbv zeta.
  assert (Hinit : registry_ok (NewClient (E:=E) (I:=I) blank opts)
                  /\ client_authRefreshBuffer (NewClient (E:=E) (I:=I) blank opts)
                     = (if AuthRefreshBuffer opts <=? 0 then 2 * Time.Minute
                        else AuthRefreshBuffer opts)).
  { split; [ | reflexivity ]. split; cbn.
    - destruct (Z.leb_spec (AuthRefreshBuffer opts) 0); [ reflexivity | lia ].
    - intros label as_ Hl. rewrite lookup_empty in Hl. discriminate. }
  revert Hinit. generalize (NewClient (E:=E) (I:=I) blank opts) as c.
  unfold do_calls. induction calls as [ | call calls IH]; intros c [Hok Hbuf]; cbn.
  - split; [ exact Hbuf | ]. split; [ exact Hok | ].
    intros label now o. unfold AR.
    destruct (auths c !! label) as [[t | as_] | ] eqn:Hl; cbn -[run getValidToken]; eauto.
    destruct (proj2 Hok label as_ Hl) as (_ & Hf & Hc).
    destruct (run_getValidToken_ok {| clock := now; outside := o; store := as_ |} Hf Hc)
      as (w' & evs & [tok err] & Hrun & _).
    rewrite Hrun. destruct err; eauto.
  - apply IH. split; [ apply registry_ok_call, Hok | ].
    rewrite <- Hbuf. clear.
    destruct call as [l reader refresh | l tok | l | l i | l | l now o]; cbn;
      try reflexivity.
    unfold AR. destruct (auths c !! l) as [[t | as_] | ]; cbn -[run getValidToken]; try reflexivity.
    destruct (run getValidToken _) as [[[w' evs] [tok err]] | ]; [ | reflexivity ].
    destruct err; reflexivity.
Qed.

(** X9.  A fixed token.  After [RegisterToken] under a label, an [AR] for
    that label, at any instant and whatever the outside, returns a new
    request with that token as its bearer token, calls no collaborator,
    leaves the outside and the client as they are and wires no response
    hook: a fixed token is never refreshed and never fails. *)
Theorem fixed_token_is_served c (label token : string) (now : Time) (o : E) :
  AR (Response:=Response) (RegisterToken c label token) now o label
  = Some (SetBearerAuthToken (R c) token, RegisterToken c label token, o, [])
  /\ bearerAuthToken (SetBearerAuthToken (R (Response:=Response) c) token) = Some token
  /\ afterResponse (SetBearerAuthToken (R (Response:=Response) c) token) = [].
Proof.
  split; [ | split; reflexivity ].
  unfold AR, RegisterToken. cbn. rewrite lookup_insert_eq. cbn.
  rewrite insert_insert_eq. reflexivity.
Qed.

(** X10.  The labels are independent.  A method that writes to the auth
    registry under one label leaves what [AR] gives for every other label
    as it was (the request, the outside left behind and the calls made), and
    leaves [IR] as it was for all labels; a method that writes to the
    interceptor registry under one label leaves [IR] as it was for every
    other label, and [AR] as it was for all labels. *)
Theorem labels_are_independent c call (label : string) (now : Time) (o : E) :
  (auth_label call <> Some label ->
   AR_view (Response:=Response) (do_call (Response:=Response) c call) now o label
   = AR_view c now o label)
  /\ (interceptor_label call <> Some label ->
      IR (Response:=Response) (do_call (Response:=Response) c call) label = IR c label).
Proof.
  split; intros Hne.
  - assert (Hlook : auths (do_call (Response:=Response) c call) !! label
                    = auths c !! label
                    /\ blank (do_call (Response:=Response) c call) = blank c).
    { destruct call as [l reader refresh | l tok | l | l i | l | l now' o']; cbn in *;
        try (split; [ | reflexivity ]);
        try (apply lookup_insert_ne; congruence);
        try (apply lookup_delete_ne; congruence);
        try reflexivity.
      unfold AR. destruct (auths c !! l) as [[t | as_] | ]; cbn -[run getValidToken];
        try (split; reflexivity).
      - split; [ | reflexivity ]. cbn. apply lookup_insert_ne. congruence.
      - destruct (run getValidToken _) as [[[w' evs] [tok err]] | ];
          [ | split; reflexivity ].
        destruct err; (split; [ | reflexivity ]); cbn;
          apply lookup_insert_ne; congruence. }
    destruct Hlook as [Hlook Hblank].
    unfold AR_view, AR, R. rewrite Hlook, Hblank.
    destruct (auths c !! label) as [a | ]; [ | reflexivity ].
    destruct (authStore_getValidToken a now o) as [[[[a' o'] evs] [tok err]] | ];
      [ | reflexivity ].
    destruct err; reflexivity.
  - assert (Hlook : interceptors (do_call (Response:=Response) c call) !! label
                    = interceptors c !! label
                    /\ blank (do_call (Response:=Response) c call) = blank c).
    { destruct call as [l reader refresh | l tok | l | l i | l | l now' o']; cbn in *;
        try (split; reflexivity);
        try (split; [ | reflexivity ]);
        try (apply lookup_insert_ne; congruence);
        try (apply lookup_delete_ne; congruence).
      unfold AR. destruct (auths c !! l) as [[t | as_] | ]; cbn -[run getValidToken];
        try (split; reflexivity).
      destruct (run getValidToken _) as [[[w' evs] [tok err]] | ];
        [ | split; reflexivity ].
      destruct err; split; reflexivity. }
    destruct Hlook as [Hlook Hblank].
    unfold IR, R. rewrite Hlook, Hblank. reflexivity.
Qed.

End registry_facts.

(** ** Requests of the client *)

Section request_facts.
Context `{Unicode} `{Jwt}.
Context {E I Payload Response : Type} `{Interceptor I Payload Response}.
Implicit Types (c : Client E I Payload).

(** X11.  The first use of a registered refresher.  After [RegisterAuth]
    under a label, on a client whose buffer is positive, an [AR] for that
    label at an instant of the wall clock finds an empty cache, whatever
    was registered under the label before: it fetches the identity and
    refreshes.  When both succeed, the request carries the new token as
    its bearer token and the store of the registry caches it with its
    decoded expiration. *)
Theorem first_use_refreshes c (label : string)
    (reader : E -> E * (Identity + error))
    (refresh : E -> Identity -> E * (string + error))
    (now : Time) (o o1 o2 : E) (identity : Identity) (newToken : string) :
  0 < client_authRefreshBuffer c ->
  Time.is_wall_clock now ->
  reader o = (o1, inl identity) ->
  refresh o1 identity = (o2, inl newToken) ->
  exists c',
    AR (Response:=Response) (RegisterAuth c label reader refresh) now o label
    = Some (SetBearerAuthToken (R c) newToken, c', o2,
            [IdentityGet; RefreshToken identity])
    /\ auths c' !! label
       = Some (refreshableStore
                 (setBearerToken
                    (newRefreshableAuthStore reader refresh (client_authRefreshBuffer c))
                    newToken))
    /\ forall other, other <> label -> auths c' !! other = auths c !! other.
Proof.
  intros Hpos Hnow Hget Hcall.
  set (as0 := newRefreshableAuthStore reader refresh (client_authRefreshBuffer c)).
  set (w := {| clock := now; outside := o; store := as0 |}).
  assert (Hd : tokenExpiration (store w) < deadline w).
  { unfold deadline, Time.Add, Time.is_wall_clock, Time.unixEpoch, Time.Second in *.
    cbn. unfold Time.zero. lia. }
  pose proof (run_stale w Hd eq_refl) as Hrun.
  cbn [store outside w identityReader refreshTokenFunc as0 newRefreshableAuthStore]
    in Hrun.
  rewrite Hget, Hcall in Hrun.
  eexists. split; [ | split ].
  - unfold AR, RegisterAuth. cbn -[run getValidToken].
    rewrite lookup_insert_eq. cbn -[run getValidToken].
    fold as0. fold w. rewrite Hrun. cbn. reflexivity.
  - cbn. rewrite lookup_insert_eq. reflexivity.
  - intros other Hne. cbn. rewrite !lookup_insert_ne by congruence. reflexivity.
Qed.

(** X12.  A refresh that fails, seen from [AR].  The store under the label
    has a stale cache and a free lock, and the credential fetch or the
    refresh fails with an error.  Then [AR] still returns a request: it
    carries no bearer token, its send fails with that error on every
    response, and the store of the registry is left with an empty token
    and the zero expiration. *)
Theorem AR_wires_the_refresh_error c (label : string) (as_ : refreshableAuthStore E)
    (now : Time) (o : E) (err : error) :
  auths c !! label = Some (refreshableStore as_) ->
  refreshMu as_ = false ->
  tokenExpiration as_ < Time.Add now (authRefreshBuffer as_) ->
  refresh_fails_with {| clock := now; outside := o; store := as_ |} err ->
  exists r c' o' evs,
    AR (Response:=Response) c now o label = Some (r, c', o', evs)
    /\ bearerAuthToken r = None
    /\ (forall resp, send_error r resp = Some err)
    /\ auths c' !! label = Some (refreshableStore (setBearerToken as_ EmptyString))
    /\ token (setBearerToken as_ EmptyString) = EmptyString
    /\ tokenExpiration (setBearerToken as_ EmptyString) = Time.zero.
Proof.
  intros Hl Hf Hd Hfail.
  set (w := {| clock := now; outside := o; store := as_ |}) in *.
  pose proof (run_stale w Hd Hf) as Hrun.
  unfold refresh_fails_with in Hfail.
  unfold AR. rewrite Hl. cbn -[run getValidToken]. fold w.
  destruct (identityReader (store w) (outside w)) as [o1 [identity | e]].
  - destruct (refreshTokenFunc (store w) o1 identity) as [o2 [newToken | e]];
      [ contradiction | subst e ].
    rewrite Hrun. cbn. eexists _, _, _, _. split; [ reflexivity | ]. cbn.
    rewrite lookup_insert_eq. repeat split; reflexivity.
  - subst e. rewrite Hrun. cbn. eexists _, _, _, _. split; [ reflexivity | ]. cbn.
    rewrite lookup_insert_eq. repeat split; reflexivity.
Qed.

(** X13.  [IR] for a label with an interceptor.  The request is the one
    [Apply] gives on a new request, with the retry count set to
    [maxRetries] and the retry condition and the retry hook of the label
    added after those [Apply] may have put; the generation captured is the
    one of the store.  The retry count is at least 1: it is what
    [MaxRetries] gives when that is positive and 1 otherwise.  Right after
    [RegisterInterceptor] the generation captured is 0. *)
Theorem IR_wires_the_interceptor c (label : string) (s : interceptorStore I) :
  interceptors c !! label = Some s ->
  exists r : Request Payload Response,
    IR c label = (r, Some (generation s))
    /\ payload r = payload (Apply (interceptor s) (R c))
    /\ retryCount r = Some (maxRetries s)
    /\ 1 <= maxRetries s
    /\ maxRetries s
       = (if MaxRetries (interceptor s) <=? 0 then 1 else MaxRetries (interceptor s))
    /\ retryConditions r
       = retryConditions (Apply (interceptor s) (R c)) ++ [InterceptCondition label]
    /\ retryHooks r = retryHooks (Apply (interceptor s) (R c)) ++ [RecoverHook label]
    /\ afterResponse r = afterResponse (Apply (interceptor s) (R c))
    /\ forall i, (IR (Response:=Response) (RegisterInterceptor c label i) label).2 = Some 0.
Proof.
  intros Hl. unfold IR. rewrite Hl. eexists. split; [ reflexivity | ].
  cbn. repeat split.
  - unfold maxRetries, defaultMaxRetries. cbv zeta.
    destruct (Z.leb_spec (MaxRetries (interceptor s)) 0); lia.
  - intros i. rewrite lookup_insert_eq. reflexivity.
Qed.

End request_facts.

(** ** The settings of the engine and the cause of an error *)

Lemma newRetryClient_fields (opts : RetryOptions) :
  newRetryClient opts
  = mkRetryOptions
      (if RetryCount opts <? 0 then defaultRetryCount else RetryCount opts)
      (if MinBackoff opts <=? 0 then defaultMinBackoff else MinBackoff opts)
      (if MaxBackoff opts <=? 0 then defaultMaxBackoff else MaxBackoff opts)
      (if Timeout opts <=? 0 then defaultTimeout else Timeout opts).
Proof.
  destruct opts as [n lo hi t]. unfold newRetryClient.
  cbn [RetryCount MinBackoff MaxBackoff Timeout].
  destruct (n <? 0); cbn [RetryCount MinBackoff MaxBackoff Timeout];
    destruct (lo <=? 0); cbn [RetryCount MinBackoff MaxBackoff Timeout];
    destruct (hi <=? 0); cbn [RetryCount MinBackoff MaxBackoff Timeout];
    destruct (t <=? 0); reflexivity.
Qed.

(** X14.  The settings [newRetryClient] hands to the engine are always
    usable: the retry count is not negative and the two backoffs and the
    timeout are positive.  A setting that is usable is handed on as it is
    (a retry count of 0 stays 0), one that is not is replaced by its
    default (4 retries, 10 ms, 500 ms, 10 s); and putting the defaults in
    twice changes nothing more. *)
Theorem newRetryClient_settings_are_usable (opts : RetryOptions) :
  let s := newRetryClient opts in
  (0 <= RetryCount s /\ 0 < MinBackoff s /\ 0 < MaxBackoff s /\ 0 < Timeout s)
  /\ RetryCount s = (if RetryCount opts <? 0 then 4 else RetryCount opts)
  /\ MinBackoff s = (if MinBackoff opts <=? 0 then 10000000 else MinBackoff opts)
  /\ MaxBackoff s = (if MaxBackoff opts <=? 0 then 500000000 else MaxBackoff opts)
  /\ Timeout s = (if Timeout opts <=? 0 then 10000000000 else Timeout opts)
  /\ newRetryClient s = s.
Proof.
  intros s. subst s. rewrite (newRetryClient_fields (newRetryClient opts)).
  rewrite (newRetryClient_fields opts).
  destruct opts as [n lo hi t]. cbn [RetryCount MinBackoff MaxBackoff Timeout].
  change defaultRetryCount with 4. change defaultMinBackoff with 10000000.
  change defaultMaxBackoff with 500000000. change defaultTimeout with 10000000000.
  destruct (Z.ltb_spec n 0); destruct (Z.leb_spec lo 0);
    destruct (Z.leb_spec hi 0); destruct (Z.leb_spec t 0);
    repeat match goal with
           | |- context [?a <? 0] => rewrite (proj2 (Z.ltb_ge a 0)) by lia
           | |- context [?a <=? 0] => rewrite (proj2 (Z.leb_gt a 0)) by lia
           end;
    (split; [ lia | ]); repeat split; reflexivity.
Qed.

(** X15.  When a response counts as good.  [responseErrorCause] returns
    nil exactly when there is no transport error, there is a response, the
    response carries no error of its own, the engine does not call its
    status an error state, and either its content type is not exactly
    [application/json] or it has an HTTP response with a body.  A transport
    error is returned as it is, whatever the response, and after it the
    error the response carries; without either, a nil response gives
    [ErrResponseNil].  The call panics only on a response without error
    that lacks its request or its HTTP response where those are read: so
    the nil check of [rawURL] never decides anything here, the method being
    read from the request before. *)
Theorem responseErrorCause_nil (response : option HttpResponse) (err : option error) :
  (responseErrorCause response err = Returns None
   <-> err = None
       /\ exists r, response = Some r
                    /\ Err r = None
                    /\ IsErrorState r = false
                    /\ (GetContentType r <> JsonApplicationContentType
                        \/ exists http, Http r = Some http /\ hasBody http = true))
  /\ (forall e, err = Some e -> responseErrorCause response err = Returns (Some e))
  /\ (forall r e, err = None -> response = Some r -> Err r = Some e ->
      responseErrorCause response err = Returns (Some e))
  /\ (err = None -> response = None ->
      responseErrorCause response err = Returns (Some ErrResponseNil))
  /\ (responseErrorCause response err = Panics
      <-> err = None
          /\ exists r, response = Some r
                       /\ Err r = None
                       /\ (if IsErrorState r
                           then OfRequest r = None \/ Http r = None
                           else GetContentType r = JsonApplicationContentType
                                /\ Http r = None)).
Proof.
  unfold responseErrorCause.
  split; [ split | split; [ | split; [ | split; [ | split ] ] ] ].
  - intros Hnil.
    destruct err as [e | ]; [ discriminate | ]. split; [ reflexivity | ].
    destruct response as [r | ]; [ | discriminate ].
    destruct (Err r) as [e | ] eqn:He; [ discriminate | ].
    destruct (IsErrorState r) eqn:Hs.
    { destruct (OfRequest r), (Http r); discriminate. }
    exists r. split; [ reflexivity | ]. split; [ exact He | ].
    split; [ exact Hs | ].
    destruct (String.eqb_spec (GetContentType r) JsonApplicationContentType)
      as [Hct | Hct]; [ | left; exact Hct ].
    destruct (Http r) as [http | ]; [ | discriminate ].
    destruct (hasBody http) eqn:Hb; [ | discriminate ].
    right. exists http. split; [ reflexivity | exact Hb ].
  - intros [-> (r & -> & -> & -> & Hj)].
    destruct (String.eqb_spec (GetContentType r) JsonApplicationContentType)
      as [Hct | Hct]; [ | reflexivity ].
    destruct Hj as [Hne | (http & -> & ->)]; [ contradiction | reflexivity ].
  - intros e ->. reflexivity.
  - intros r e -> -> ->. reflexivity.
  - intros -> ->. reflexivity.
  - intros Hpanic.
    destruct err as [e | ]; [ discriminate | ]. split; [ reflexivity | ].
    destruct response as [r | ]; [ | discriminate ].
    destruct (Err r) as [e | ] eqn:He; [ discriminate | ].
    exists r. split; [ reflexivity | ]. split; [ exact He | ].
    destruct (IsErrorState r) eqn:Hs.
    + destruct (OfRequest r); [ | left; reflexivity ].
      destruct (Http r); [ discriminate | right; reflexivity ].
    + destruct (String.eqb_spec (GetContentType r) JsonApplicationContentType)
        as [Hct | Hct]; [ | discriminate ].
      split; [ exact Hct | ].
      destruct (Http r) as [http | ]; [ | reflexivity ].
      destruct (hasBody http); discriminate.
  - intros [-> (r & -> & -> & Hp)].
    destruct (IsErrorState r).
    + destruct Hp as [-> | ->]; [ reflexivity | ].
      destruct (OfRequest r); reflexivity.
    + destruct Hp as [-> ->]. reflexivity.
Qed.

(** ** The retry hooks of several requests *)

Section hook_facts.
Context {I Payload Response : Type} `{Interceptor I Payload Response}.
Implicit Types (s : interceptorStore I) (st : Intercepted Payload Response).
Implicit Types (pt : HookPoint (Payload:=Payload) (Response:=Response)).

Lemma recover_calls_app (evs evs' : list InterceptEvent) :
  recover_calls (evs ++ evs') = (recover_calls evs + recover_calls evs')%nat.
Proof.
  induction evs as [ | [ | ] evs IH]; cbn; [ reflexivity | | exact IH ].
  rewrite IH. reflexivity.
Qed.

(** The blocks of [retryHook] step as the points say. *)
Lemma hook_code_next pt f s :
  hook_code pt = Atom f ->
  f s = Some ((fun '(s', evs, pt') => (s', evs, hook_code pt')) (hook_next pt s)).
Proof.
  intros Hc. destruct pt as [st resp | st g | st resp g | st | r | st];
    cbn in Hc; try discriminate; injection Hc as <-; cbn.
  - destruct (negb (getGeneration s =? initGen st)); reflexivity.
  - reflexivity.
  - destruct (recover s resp g) as [[s' evs] [e | ]]; reflexivity.
  - reflexivity.
  - reflexivity.
Qed.

Lemma hook_code_returned pt st : hook_code pt = Ret st -> pt = HookDone st.
Proof.
  destruct pt; cbn; intros Hc; try discriminate. congruence.
Qed.

Lemma next_generation (g : Z) : 0 <= g < 2 ^ 64 -> (g + 1) mod 2 ^ 64 <> g.
Proof.
  intros Hg. destruct (Z.eq_dec g (2 ^ 64 - 1)) as [-> | Hne].
  - intros Heq. vm_compute in Heq. discriminate.
  - rewrite Z.mod_small; lia.
Qed.

Lemma ok_hook_recovered g pt : forall recovered,
  ok_hook g recovered pt -> ok_hook g true pt.
Proof.
  intros recovered. destruct pt; cbn; intuition.
Qed.

Lemma hook_points_insert (P : HookPoint -> Prop) (pts : list HookPoint) i pt' :
  (forall j q, pts !! j = Some q -> P q) -> P pt' ->
  forall j q, <[i := pt']> pts !! j = Some q -> P q.
Proof.
  intros Hold Hnew j q Hq. apply list_lookup_insert_Some in Hq.
  destruct Hq as [(-> & -> & _) | (Hne & Hq)]; eauto.
Qed.

(** One step of one hook keeps the invariant. *)
Lemma hook_step (good : I -> Prop) g recovered (pts : list HookPoint) s evs i pt :
  0 <= g < 2 ^ 64 ->
  (forall j resp, good j ->
     (Recover j resp).2 = None /\ good (Recover j resp).1) ->
  hook_inv good g recovered pts s evs ->
  pts !! i = Some pt ->
  exists recovered',
    hook_inv good g recovered' (<[i := (hook_next pt s).2]> pts)
             (hook_next pt s).1.1 (evs ++ (hook_next pt s).1.2).
Proof.
  intros Hg Hrec [Hgood Hgen Hcalls Hpts] Hi.
  pose proof (Hpts i pt Hi) as Hok.
  pose proof (next_generation g Hg) as Hnext.
  destruct pt as [st resp | st cur | st resp cur | st | r | st]; cbn in Hok; cbn.
  - (* the hook reads the generation *)
    exists recovered. rewrite app_nil_r. split; try assumption.
    apply hook_points_insert; [ exact Hpts | ].
    unfold getGeneration. rewrite Hgen, Hok.
    destruct recovered.
    + destruct (Z.eqb_spec ((g + 1) mod 2 ^ 64) g) as [He | _]; [ contradiction | ].
      cbn. split; reflexivity.
    + rewrite Z.eqb_refl. cbn. reflexivity.
  - destruct Hok as [-> ->]. exists true. split; try assumption.
    + rewrite recover_calls_app, Hcalls. reflexivity.
    + apply hook_points_insert; [ exact Hpts | ]. cbn. split; reflexivity.
  - (* the hook calls [recover] *)
    subst cur. unfold recover. rewrite Hgen. destruct recovered.
    + destruct (Z.eqb_spec ((g + 1) mod 2 ^ 64) g) as [He | _]; [ contradiction | ].
      cbn. exists true. rewrite app_nil_r. split; try assumption.
      apply hook_points_insert; [ exact Hpts | ]. reflexivity.
    + rewrite Z.eqb_refl. cbn.
      destruct (Hrec (interceptor s) resp Hgood) as [Hnone Hgood'].
      destruct (Recover (interceptor s) resp) as [j e]. cbn in Hnone, Hgood'.
      subst e. cbn. exists true. split.
      * exact Hgood'.
      * reflexivity.
      * rewrite recover_calls_app, Hcalls. reflexivity.
      * apply hook_points_insert; [ | reflexivity ].
        intros k q Hk. eapply ok_hook_recovered, Hpts, Hk.
  - subst recovered. exists true. split; try assumption.
    + rewrite recover_calls_app, Hcalls. reflexivity.
    + apply hook_points_insert; [ exact Hpts | ]. reflexivity.
  - subst recovered. exists true. rewrite app_nil_r. split; try assumption.
    apply hook_points_insert; [ exact Hpts | ]. cbn.
    split; [ reflexivity | exact Hgen ].
  - exists recovered. rewrite app_nil_r. split; try assumption.
    apply hook_points_insert; [ exact Hpts | exact Hok ].
Qed.

(** The invariant holds in every state the hooks reach. *)
Lemma hook_steps (good : I -> Prop) g s0
    (hooks : list (Intercepted Payload Response * option Response * option error))
    evs Q :
  0 <= g < 2 ^ 64 ->
  (forall j resp, good j ->
     (Recover j resp).2 = None /\ good (Recover j resp).1) ->
  good (interceptor s0) ->
  generation s0 = g ->
  (forall x, In x hooks -> initGen x.1.1 = g) ->
  pool_steps (same_generation good)
             (mkPool s0 ((fun x => retryHook x.1.1 x.1.2 x.2) <$> hooks)) evs Q ->
  exists recovered pts,
    threads Q = hook_code <$> pts
    /\ hook_inv good g recovered pts (shared Q) evs.
Proof.
  intros Hg Hrec Hgood Hgen Hbase Hsteps.
  remember (mkPool s0 ((fun x => retryHook x.1.1 x.1.2 x.2) <$> hooks)) as P eqn:HP.
  induction Hsteps as [P | P evs Q evs' Q' Hsteps IH Hstep].
  - subst P. exists false, ((fun x => HookEntry x.1.1 x.1.2) <$> hooks). split.
    + cbn. rewrite <- list_fmap_compose. reflexivity.
    + split; try assumption; try reflexivity.
      intros i pt Hi. rewrite list_lookup_fmap in Hi.
      destruct (hooks !! i) as [x | ] eqn:Hx; [ | discriminate ].
      cbn in Hi. injection Hi as <-. cbn. apply Hbase.
      eapply list_elem_of_In, list_elem_of_lookup_2, Hx.
  - destruct (IH HP) as (recovered & pts & Hts & Hinv). clear IH.
    destruct Hstep as [Q i f s' evs' p' Hi Hf | Q s' Henv]; cbn.
    + rewrite Hts, list_lookup_fmap in Hi.
      destruct (pts !! i) as [pt | ] eqn:Hpt; [ | discriminate ].
      cbn in Hi. injection Hi as Hcode.
      rewrite (hook_code_next pt f (shared Q) Hcode) in Hf.
      destruct (hook_step good g recovered pts (shared Q) evs i pt Hg Hrec Hinv Hpt)
        as (recovered' & Hinv').
      destruct (hook_next pt (shared Q)) as [[s1 evs1] pt'].
      cbn in Hf, Hinv'. injection Hf as <- <- <-.
      exists recovered', (<[i := pt']> pts). split; [ | exact Hinv' ].
      rewrite Hts, list_fmap_insert. reflexivity.
    + rewrite app_nil_r. exists recovered, pts. split; [ exact Hts | ].
      destruct Hinv as [Hgood' Hgen' Hcalls Hpts]. destruct Henv as [Hsame Hkeep].
      split; auto. rewrite Hsame. exact Hgen'.
Qed.

(** X16.  Requests that fail together recover once.  The retry hooks of any
    number of requests that all captured the generation [g] of the store
    run at once, in any interleaving, while nothing else changes the
    generation and [Interceptor.Recover] succeeds when called.  Then in
    every state they reach, [Recover] has been called at most once; a hook
    that has returned has found it called, exactly once, and has taken the
    new generation [(g + 1) mod 2^64] as the baseline of its request; and
    no hook is ever kept waiting. *)
Theorem hooks_recover_once (good : I -> Prop) (g : Z) s0
    (hooks : list (Intercepted Payload Response * option Response * option error))
    evs Q :
  0 <= g < 2 ^ 64 ->
  (forall j resp, good j ->
     (Recover j resp).2 = None /\ good (Recover j resp).1) ->
  good (interceptor s0) ->
  generation s0 = g ->
  (forall x, In x hooks -> initGen x.1.1 = g) ->
  pool_steps (same_generation good)
             (mkPool s0 ((fun x => retryHook x.1.1 x.1.2 x.2) <$> hooks)) evs Q ->
  (recover_calls evs <= 1)%nat
  /\ (forall i st', threads Q !! i = Some (Ret st') ->
        recover_calls evs = 1%nat
        /\ generation (shared Q) = (g + 1) mod 2 ^ 64
        /\ initGen st' = generation (shared Q))
  /\ (recover_calls evs = 0%nat -> generation (shared Q) = g)
  /\ (forall i p, threads Q !! i = Some p -> returned p = None ->
        enabled p (shared Q) = true).
Proof.
  intros Hg Hrec Hgood Hgen Hbase Hsteps.
  destruct (hook_steps good g s0 hooks evs Q Hg Hrec Hgood Hgen Hbase Hsteps)
    as (recovered & pts & Hts & [Hgood' Hgen' Hcalls Hpts]).
  assert (Hdone : forall i st', threads Q !! i = Some (Ret st') ->
                  recovered = true /\ initGen st' = (g + 1) mod 2 ^ 64).
  { intros i st' Hi. rewrite Hts, list_lookup_fmap in Hi.
    destruct (pts !! i) as [pt | ] eqn:Hpt; [ | discriminate ].
    cbn in Hi. injection Hi as Hc. apply hook_code_returned in Hc. subst pt.
    exact (Hpts i _ Hpt). }
  split; [ | split; [ | split ] ].
  - rewrite Hcalls. destruct recovered; lia.
  - intros i st' Hi. destruct (Hdone i st' Hi) as [-> Hb].
    split; [ exact Hcalls | ]. split; [ exact Hgen' | ].
    rewrite Hgen'. exact Hb.
  - intros Hzero. rewrite Hcalls in Hzero. destruct recovered; [ discriminate | ].
    exact Hgen'.
  - intros i p Hp Hret. rewrite Hts, list_lookup_fmap in Hp.
    destruct (pts !! i) as [pt | ] eqn:Hpt; [ | discriminate ].
    cbn in Hp. injection Hp as <-.
    destruct (hook_code pt) as [r | f] eqn:Hc; [ discriminate | ].
    cbn. rewrite (hook_code_next pt f (shared Q) Hc). reflexivity.
Qed.

(** A hook at the baseline whose [Recover] succeeds, alone on the store. *)
Lemma run_retryHook_recovers s st (resp : option Response) (err : option error) :
  initGen st = generation s ->
  (Recover (interceptor s) resp).2 = None ->
  let s1 := {| interceptor := (Recover (interceptor s) resp).1;
               generation := (generation s + 1) mod 2 ^ 64 |} in
  run (retryHook st resp err) s
  = Some (s1, [RecoverCall; ApplyCall],
          {| request := apply s1 (request st); initGen := generation s1 |}).
Proof.
  intros Hbase Hnone s1. unfold retryHook. cbn -[Z.pow Z.modulo].
  unfold getGeneration. rewrite Hbase, Z.eqb_refl. cbn -[Z.pow Z.modulo].
  unfold recover. rewrite Z.eqb_refl. cbn -[Z.pow Z.modulo].
  subst s1. destruct (Recover (interceptor s) resp) as [j e]. cbn in Hnone. subst e.
  reflexivity.
Qed.

(** X17.  One request, one failure after the other.  A request whose
    baseline is the generation of the store runs its hook once for each
    failed attempt, nothing else touching the store, and
    [Interceptor.Recover] succeeds when called.  Then each hook calls
    [Recover], so there are as many calls as attempts; the generation has
    moved by one for each of them; and the baseline of the request is again
    the generation of the store, so that the next failure recovers too. *)
Theorem lone_request_recovers_each_time (good : I -> Prop)
    (attempts : list (option Response * option error)) : forall s st,
  (forall j resp, good j ->
     (Recover j resp).2 = None /\ good (Recover j resp).1) ->
  good (interceptor s) ->
  0 <= generation s < 2 ^ 64 ->
  initGen st = generation s ->
  exists s' evs st',
    run_hooks attempts st s = Some (s', evs, st')
    /\ recover_calls evs = length attempts
    /\ generation s' = (generation s + Z.of_nat (length attempts)) mod 2 ^ 64
    /\ initGen st' = generation s'
    /\ good (interceptor s').
Proof.
  induction attempts as [ | [resp err] rest IH]; intros s st Hrec Hgood Hrange Hbase.
  - exists s, [], st. cbn [run_hooks length recover_calls Z.of_nat].
    rewrite Z.add_0_r, Z.mod_small by lia. auto.
  - cbn [run_hooks].
    destruct (Hrec (interceptor s) resp Hgood) as [Hnone Hgood'].
    rewrite (run_retryHook_recovers s st resp err Hbase Hnone).
    set (s1 := {| interceptor := (Recover (interceptor s) resp).1;
                  generation := (generation s + 1) mod 2 ^ 64 |}).
    set (st1 := {| request := apply s1 (request st); initGen := generation s1 |}).
    destruct (IH s1 st1 Hrec Hgood') as (s' & evs & st' & Hrun & Hcount & Hgen & Hb & Hg').
    { cbn [generation s1]. apply Z.mod_pos_bound. lia. }
    { reflexivity. }
    rewrite Hrun. exists s', ([RecoverCall; ApplyCall] ++ evs), st'.
    split; [ reflexivity | ]. repeat split; try assumption.
    + cbn [recover_calls app length]. rewrite Hcount. reflexivity.
    + rewrite Hgen. cbn [generation s1 length].
      rewrite Zplus_mod_idemp_l. f_equal. lia.
Qed.

End hook_facts.

(** ** The identity manager *)

Section manager_facts.
Context {S : Type} `{cred.IdentityProvider S}.
Implicit Types (s : S) (content : S -> gmap string string).

(** What [Get] returns on a storage, by what it holds under the two keys. *)
Lemma Get_by_content content s :
  cred.key_value_store content ->
  content (cred.Get s).1 = content s
  /\ match content s !! cred.userKey, content s !! cred.secretKey with
     | Some user, Some secret =>
         (cred.Get s).2 = inl {| User := user; Secret := secret |}
     | _, _ => exists e, (cred.Get s).2 = inr e
     end.
Proof.
  intros [Hkeep Hfound Hmissing _ _]. unfold cred.Get.
  pose proof (Hkeep s cred.userKey) as Hk1.
  pose proof (Hfound s cred.userKey) as Hf1.
  pose proof (Hmissing s cred.userKey) as Hm1.
  destruct (cred.providerGet s cred.userKey) as [s1 user]. cbn in Hk1, Hf1, Hm1.
  pose proof (Hkeep s1 cred.secretKey) as Hk2.
  pose proof (Hfound s1 cred.secretKey) as Hf2.
  pose proof (Hmissing s1 cred.secretKey) as Hm2.
  rewrite Hk1 in Hf2, Hm2.
  destruct (content s !! cred.userKey) as [u | ] eqn:Hu.
  - rewrite (Hf1 u eq_refl).
    destruct (cred.providerGet s1 cred.secretKey) as [s2 secret].
    cbn in Hk2, Hf2, Hm2.
    split; [ destruct secret; cbn; congruence | ].
    destruct (content s !! cred.secretKey) as [v | ] eqn:Hv.
    + rewrite (Hf2 v eq_refl). reflexivity.
    + destruct (Hm2 eq_refl) as [e ->]. exists e. reflexivity.
  - destruct (Hm1 eq_refl) as [e ->]. cbn. split; [ exact Hk1 | ].
    exists e. reflexivity.
Qed.

(** X18.  Writing an identity and reading it back.  On a storage that
    behaves as a key-value storage, when [SetAll] returns no error a [Get]
    that follows returns the identity written, user and secret each under
    its own key, and changes nothing; what the storage holds under other
    keys is as before. *)
Theorem SetAll_then_Get content s (identity : Identity) :
  cred.key_value_store content ->
  (cred.SetAll s identity).2 = None ->
  let s' := (cred.SetAll s identity).1 in
  (cred.Get s').2 = inl identity
  /\ content (cred.Get s').1 = content s'
  /\ content s' = <[cred.secretKey := Secret identity]>
                    (<[cred.userKey := User identity]> (content s)).
Proof.
  intros Hstore Hok s'.
  assert (Hs' : content s' = <[cred.secretKey := Secret identity]>
                               (<[cred.userKey := User identity]> (content s))).
  { subst s'. unfold cred.SetAll in *.
    pose proof (cred.set_done content Hstore s cred.userKey (User identity)) as Hset.
    destruct (cred.providerSet s cred.userKey (User identity)) as [s1 [e | ]];
      [ discriminate | ].
    cbn in Hset. rewrite <- (Hset eq_refl).
    apply (cred.set_done content Hstore). exact Hok. }
  destruct (Get_by_content content s' Hstore) as [Hkeep Hget].
  rewrite Hs' in Hget.
  rewrite lookup_insert_ne in Hget by discriminate.
  rewrite !lookup_insert_eq in Hget.
  split; [ | split; [ exact Hkeep | exact Hs' ] ].
  rewrite Hget. destruct identity. reflexivity.
Qed.

(** X19.  Updating some of the fields.  On a key-value storage that holds
    an identity, when [Set] with a payload returns no error a [Get] that
    follows returns the identity with the fields that are present in the
    payload replaced and the others as they were; with an empty payload
    [Set] returns no error and does not touch the storage. *)
Theorem Set_updates_the_fields_present content s (old : Identity)
    (payload : cred.IdentityPayload) :
  cred.key_value_store content ->
  (cred.Get s).2 = inl old ->
  (cred.SetPayload s payload).2 = None ->
  (cred.Get (cred.SetPayload s payload).1).2
  = inl {| User := default (User old) (cred.payloadUser payload);
           Secret := default (Secret old) (cred.payloadSecret payload) |}
  /\ forall s0, cred.SetPayload s0 (cred.mkIdentityPayload None None) = (s0, None).
Proof.
  intros Hstore Hold Hok. split; [ | reflexivity ].
  destruct (Get_by_content content s Hstore) as [_ Hget].
  destruct (content s !! cred.userKey) as [u | ] eqn:Hu;
    [ | destruct Hget as [e He]; congruence ].
  destruct (content s !! cred.secretKey) as [v | ] eqn:Hv;
    [ | destruct Hget as [e He]; congruence ].
  rewrite Hold in Hget. injection Hget as ->.
  set (s' := (cred.SetPayload s payload).1).
  assert (Hs' : content s' !! cred.userKey
                = Some (default u (cred.payloadUser payload))
                /\ content s' !! cred.secretKey
                   = Some (default v (cred.payloadSecret payload))).
  { subst s'. unfold cred.SetPayload in *. destruct payload as [[user | ] [secret | ]];
      cbn [cred.payloadUser cred.payloadSecret default] in *.
    - pose proof (cred.set_done content Hstore s cred.userKey user) as Hset.
      destruct (cred.providerSet s cred.userKey user) as [s1 [e | ]];
        [ discriminate | ].
      cbn in Hset. rewrite (cred.set_done content Hstore _ _ _ Hok), (Hset eq_refl).
      rewrite lookup_insert_ne by discriminate.
      rewrite !lookup_insert_eq. split; reflexivity.
    - pose proof (cred.set_done content Hstore s cred.userKey user) as Hset.
      destruct (cred.providerSet s cred.userKey user) as [s1 [e | ]];
        [ discriminate | ].
      cbn in Hset. cbn. rewrite (Hset eq_refl).
      rewrite lookup_insert_eq, lookup_insert_ne by discriminate.
      split; [ reflexivity | exact Hv ].
    - rewrite (cred.set_done content Hstore _ _ _ Hok).
      rewrite lookup_insert_ne by discriminate. rewrite lookup_insert_eq.
      split; [ exact Hu | reflexivity ].
    - cbn. split; assumption. }
  destruct Hs' as [Hu' Hv'].
  destruct (Get_by_content content s' Hstore) as [_ Hget].
  rewrite Hu', Hv' in Hget. exact Hget.
Qed.

End manager_facts.

Section manager_as_reader.
Context `{Unicode} `{Jwt} {S : Type} `{cred.IdentityProvider S}.
Implicit Types (s : S) (content : S -> gmap string string).

(** X20.  Credentials that were removed.  On a key-value storage, after a
    [Delete] that returned no error [Get] fails.  A [getValidToken] whose
    identity reader is this manager and whose cache is stale then asks the
    manager once, does not call the refresh function, returns the error of
    the manager with an empty token, clears the cache, and leaves the
    storage as it was. *)
Theorem deleted_credentials_fail_the_refresh content s
    (as_ : refreshableAuthStore S) (now : Time) :
  cred.key_value_store content ->
  (cred.Delete s).2 = None ->
  identityReader as_ = cred.Get ->
  refreshMu as_ = false ->
  tokenExpiration as_ < Time.Add now (authRefreshBuffer as_) ->
  let s' := (cred.Delete s).1 in
  exists e,
    (cred.Get s').2 = inr e
    /\ content (cred.Get s').1 = content s'
    /\ run getValidToken {| clock := now; outside := s'; store := as_ |}
       = Some ({| clock := now; outside := (cred.Get s').1;
                  store := setBearerToken as_ EmptyString |},
               [IdentityGet], (EmptyString, Some e)).
Proof.
  intros Hstore Hok Hreader Hmu Hstale s'.
  assert (Hs' : content s' !! cred.userKey = None).
  { subst s'. unfold cred.Delete in *.
    pose proof (cred.delete_done content Hstore s cred.userKey) as Hdel.
    destruct (cred.providerDelete s cred.userKey) as [s1 [e | ]]; [ discriminate | ].
    cbn in Hdel. rewrite (cred.delete_done content Hstore _ _ Hok), (Hdel eq_refl).
    rewrite lookup_delete_ne by discriminate. apply lookup_delete_eq. }
  destruct (Get_by_content content s' Hstore) as [Hkeep Hget].
  rewrite Hs' in Hget. destruct Hget as [e He].
  exists e. split; [ exact He | split; [ exact Hkeep | ] ].
  set (w := {| clock := now; outside := s'; store := as_ |}).
  rewrite (run_stale w Hstale Hmu). cbn [store outside w]. rewrite Hreader.
  destruct (cred.Get s') as [o r]. cbn in He. subst r. reflexivity.
Qed.

End manager_as_reader.

(** ** The names of the environment *)

Section env_names.
Context `{cred.UnicodeCase}.

Lemma all_bytes_app (test : ascii -> bool) (s t : string) :
  all_bytes test (s +:+ t) = all_bytes test s && all_bytes test t.
Proof.
  induction s as [ | c s IH]; [ reflexivity | ].
  change (String c s +:+ t) with (String c (s +:+ t)). cbn [all_bytes].
  rewrite IH, andb_assoc. reflexivity.
Qed.

Lemma upper_bytes_app (s t : string) :
  cred.upper_bytes (s +:+ t) = cred.upper_bytes s +:+ cred.upper_bytes t.
Proof.
  induction s as [ | c s IH]; [ reflexivity | ].
  change (String c s +:+ t) with (String c (s +:+ t)). cbn [cred.upper_bytes].
  rewrite IH. reflexivity.
Qed.

Lemma length_string_app (s t : string) :
  String.length (s +:+ t) = (String.length s + String.length t)%nat.
Proof.
  induction s as [ | c s IH]; [ reflexivity | ].
  change (String c s +:+ t) with (String c (s +:+ t)). cbn [String.length].
  rewrite IH. reflexivity.
Qed.

(** Two strings that end in tails of one length are equal part by part. *)
Lemma app_inj_tail (s1 : string) : forall s2 t1 t2,
  String.length t1 = String.length t2 ->
  s1 +:+ t1 = s2 +:+ t2 -> s1 = s2 /\ t1 = t2.
Proof.
  induction s1 as [ | c s1 IH]; intros [ | d s2] t1 t2 Hlen Heq.
  - split; [ reflexivity | exact Heq ].
  - exfalso. apply (f_equal String.length) in Heq.
    change (EmptyString +:+ t1) with t1 in Heq.
    rewrite length_string_app in Heq. cbn [String.length] in Heq. lia.
  - exfalso. apply (f_equal String.length) in Heq.
    change (EmptyString +:+ t2) with t2 in Heq.
    rewrite length_string_app in Heq. cbn [String.length] in Heq. lia.
  - change (String c s1 +:+ t1) with (String c (s1 +:+ t1)) in Heq.
    change (String d s2 +:+ t2) with (String d (s2 +:+ t2)) in Heq.
    injection Heq as -> Heq. destruct (IH s2 t1 t2 Hlen Heq) as [-> ->].
    split; reflexivity.
Qed.

Lemma upper_byte_ascii (c : ascii) : is_ascii c = true -> is_ascii (cred.upper_byte c) = true.
Proof.
  destruct c as [[ | ] [ | ] [ | ] [ | ] [ | ] [ | ] [ | ] [ | ]];
    vm_compute; intros Hc; exact Hc.
Qed.

Lemma upper_byte_twice (c : ascii) : cred.upper_byte (cred.upper_byte c) = cred.upper_byte c.
Proof.
  destruct c as [[ | ] [ | ] [ | ] [ | ] [ | ] [ | ] [ | ] [ | ]]; reflexivity.
Qed.

Lemma upper_bytes_ascii (s : string) :
  all_bytes is_ascii s = true ->
  all_bytes is_ascii (cred.upper_bytes s) = true
  /\ cred.upper_bytes (cred.upper_bytes s) = cred.upper_bytes s.
Proof.
  induction s as [ | c s IH]; [ split; reflexivity | ].
  cbn [all_bytes cred.upper_bytes]. intros Hall.
  apply andb_true_iff in Hall. destruct Hall as [Hc Hs].
  destruct (IH Hs) as [Ha Hi]. rewrite (upper_byte_ascii c Hc), Ha, Hi, upper_byte_twice.
  split; reflexivity.
Qed.

Lemma toEnvVarName_ascii (credLabel key : string) :
  all_bytes is_ascii credLabel = true ->
  all_bytes is_ascii key = true ->
  cred.toEnvVarName credLabel key
  = cred.upper_bytes credLabel +:+ String "_" (cred.upper_bytes key).
Proof.
  intros Hl Hk. unfold cred.toEnvVarName, cred.ToUpper.
  rewrite all_bytes_app, Hl. cbn [all_bytes andb]. rewrite Hk.
  change (is_ascii "_") with true. cbn [andb].
  rewrite upper_bytes_app. reflexivity.
Qed.

(** X21.  The variables of a label.  For a label of ASCII bytes the name
    of the variable of a key is the label in upper case, an underscore and
    the key in upper case: [LABEL_USERNAME] and [LABEL_PASSWORD] for the two
    keys of the manager.  So two labels name the same variable for a key
    exactly when they are equal up to the case of their letters, and the
    variable of the user of one label is never the variable of the secret
    of another. *)
Theorem labels_share_variables_up_to_case (label1 label2 : string) :
  all_bytes is_ascii label1 = true ->
  all_bytes is_ascii label2 = true ->
  cred.toEnvVarName label1 cred.userKey = cred.upper_bytes label1 +:+ "_USERNAME"
  /\ cred.toEnvVarName label1 cred.secretKey = cred.upper_bytes label1 +:+ "_PASSWORD"
  /\ (cred.toEnvVarName label1 cred.userKey = cred.toEnvVarName label2 cred.userKey
      <-> cred.upper_bytes label1 = cred.upper_bytes label2)
  /\ (cred.toEnvVarName label1 cred.secretKey = cred.toEnvVarName label2 cred.secretKey
      <-> cred.upper_bytes label1 = cred.upper_bytes label2)
  /\ cred.toEnvVarName label1 cred.userKey <> cred.toEnvVarName label2 cred.secretKey
  /\ cred.toEnvVarName (cred.upper_bytes label1) cred.userKey
     = cred.toEnvVarName label1 cred.userKey.
Proof.
  intros Hl1 Hl2.
  destruct (upper_bytes_ascii label1 Hl1) as [Hu1 Hi1].
  rewrite !(toEnvVarName_ascii label1), !(toEnvVarName_ascii label2),
    (toEnvVarName_ascii (cred.upper_bytes label1)) by (assumption || reflexivity).
  rewrite Hi1.
  change (cred.upper_bytes cred.userKey) with "USERNAME"%string.
  change (cred.upper_bytes cred.secretKey) with "PASSWORD"%string.
  split; [ reflexivity | ]. split; [ reflexivity | ].
  split; [ | split; [ | split; [ | reflexivity ] ] ].
  - split; [ | intros ->; reflexivity ].
    intros Heq. apply app_inj_tail in Heq; [ apply Heq | reflexivity ].
  - split; [ | intros ->; reflexivity ].
    intros Heq. apply app_inj_tail in Heq; [ apply Heq | reflexivity ].
  - intros Heq. apply app_inj_tail in Heq; [ | reflexivity ].
    destruct Heq as [_ Heq]. discriminate.
Qed.

End env_names.

(** ** The further properties on the stand-ins *)

Section further_on_samples.
#[local] Existing Instances Sample.unicode Sample.jwt Sample.session_interceptor.
#[local] Existing Instances SampleCred.map_provider SampleCred.unicode_case.

Local Ltac computed :=
  first [ vm_compute; reflexivity
        | vm_compute; let Hc := fresh in intro Hc; discriminate Hc ].

(** A step a caller can fire is a step of the pool. *)
Lemma fire_step {W Ev R : Type} (env : W -> W -> Prop) (i : nat)
    (P Q : Pool W Ev R) (evs : list Ev) :
  fire i P = Some (Q, evs) -> pool_step env P evs Q.
Proof.
  unfold fire. intros Hfire.
  destruct (threads P !! i) as [[r | f] | ] eqn:Hi; try discriminate.
  destruct (f (shared P)) as [[[w' evs'] p'] | ] eqn:Hf; [ | discriminate ].
  injection Hfire as <- <-.
  apply (step_thread env P i f w' evs' p' Hi Hf).
Qed.

(** The storage that is a map behaves as a key-value storage. *)
Lemma map_provider_is_a_store :
  cred.key_value_store (S:=gmap string string) (fun s => s).
Proof.
  split.
  - intros s k. cbn. destruct (s !! k); reflexivity.
  - intros s k v Hk. cbn. rewrite Hk. reflexivity.
  - intros s k Hk. cbn. rewrite Hk. eexists. reflexivity.
  - intros s k v _. reflexivity.
  - intros s k _. reflexivity.
Qed.

(** *** Blank strings *)

Lemma IsBlank_ascii_witness :
  let s := " a "%string in
  all_bytes is_ascii s = true
  /\ stringsx.IsBlank s = all_bytes IsAsciiSpace s
  /\ stringsx.IsBlank s = false.
Proof.
  intros s.
  assert (Hs : all_bytes is_ascii s = true) by reflexivity.
  split; [ exact Hs | ]. split; [ exact (IsBlank_ascii s Hs) | ].
  rewrite (IsBlank_ascii s Hs). reflexivity.
Defined.

Lemma IsBlank_skips_ascii_spaces_witness :
  let spaces := "  "%string in
  let rest := "x "%string in
  all_bytes IsAsciiSpace spaces = true
  /\ stringsx.IsBlank (spaces +:+ rest) = stringsx.IsBlank rest.
Proof.
  intros spaces rest.
  assert (Hs : all_bytes IsAsciiSpace spaces = true) by reflexivity.
  split; [ exact Hs | exact (IsBlank_skips_ascii_spaces spaces rest Hs) ].
Defined.

Lemma IsBlank_false_at_ascii_letter_witness :
  let spaces := " "%string in
  let value := (spaces +:+ String "a" " b")%string in
  stringsx.IsBlank value = false
  /\ UpdateIfExists (Some "old"%string) value = Some value.
Proof.
  intros spaces value.
  apply (IsBlank_false_at_ascii_letter spaces "a" " b" "old"); reflexivity.
Defined.

(** *** One caller *)

Lemma getValidToken_returns_the_cached_token_witness :
  let w := Sample.world_with Sample.reader_ok (Sample.refresh_to Sample.token_1h)
                             Sample.token_30s in
  refreshMu (store w) = false
  /\ exists w' evs tok err,
       run getValidToken w = Some (w', evs, (tok, err))
       /\ token (store w') = tok
       /\ (is_Some err -> tok = EmptyString /\ tokenExpiration (store w') = Time.zero)
       /\ refreshMu (store w') = false
       /\ clock w' = clock w
       /\ authRefreshBuffer (store w') = authRefreshBuffer (store w)
       /\ identityReader (store w') = identityReader (store w)
       /\ refreshTokenFunc (store w') = refreshTokenFunc (store w).
Proof.
  intros w.
  assert (Hmu : refreshMu (store w) = false) by reflexivity.
  split; [ exact Hmu | exact (getValidToken_returns_the_cached_token w Hmu) ].
Defined.

Lemma refresh_then_cached_witness :
  let w := Sample.world_with Sample.reader_ok (Sample.refresh_to Sample.token_1h)
                             Sample.token_30s in
  let t := Sample.today + 30 * Time.Minute in
  let w' := {| clock := Sample.today; outside := 1%nat;
               store := setBearerToken (store w) Sample.token_1h |} in
  run getValidToken w
  = Some (w', [IdentityGet; RefreshToken Sample.identity], (Sample.token_1h, None))
  /\ run getValidToken (with_clock w' t)
     = Some (with_clock w' t, [], (Sample.token_1h, None)).
Proof.
  intros w t w'.
  apply (refresh_then_cached w 0%nat 1%nat Sample.identity Sample.token_1h t);
    computed.
Defined.

(** *** The refresh lock *)

(** Two callers on a stale cache: the first has taken the lock, the second
    is about to ask for it. *)
Lemma refresh_lock_is_exclusive_witness :
  let w0 := Sample.world_with Sample.reader_ok (Sample.refresh_to Sample.token_1h)
                              Sample.token_30s in
  let P := mkPool w0 (replicate 2 getValidToken) in
  let turns := [0; 0; 0; 1; 1]%nat in
  let Q := match schedule turns P with Some (Q, _) => Q | None => P end in
  let evs := match schedule turns P with Some (_, evs) => evs | None => [] end in
  pool_steps around P evs Q
  /\ refreshMu (store (shared Q)) = true
  /\ exists pts,
       threads Q = code <$> pts
       /\ (forall i j pi pj, pts !! i = Some pi -> pts !! j = Some pj ->
             holds pi = true -> holds pj = true -> i = j)
       /\ (refreshMu (store (shared Q)) = true
           <-> exists i pt, pts !! i = Some pt /\ holds pt = true)
       /\ (forall evs' Q', pool_step around Q evs' Q' -> evs' <> [] ->
             refreshMu (store (shared Q)) = true
             /\ refreshMu (store (shared Q')) = true)
       /\ ((exists i p, threads Q !! i = Some p /\ returned p = None) ->
           exists i p, threads Q !! i = Some p /\ enabled p (shared Q) = true).
Proof.
  intros w0 P turns Q evs.
  assert (Hsteps : pool_steps around P evs Q).
  { apply (schedule_steps around turns). reflexivity. }
  split; [ exact Hsteps | ]. split; [ reflexivity | ].
  apply (refresh_lock_is_exclusive w0 2 evs Q); [ reflexivity | exact Hsteps ].
Defined.

(** One caller on a stale cache, at the step that returns. *)
Lemma returns_what_the_cache_holds_witness :
  let w0 := Sample.world_with Sample.reader_ok (Sample.refresh_to Sample.token_1h)
                              Sample.token_30s in
  let P := mkPool w0 (replicate 1 getValidToken) in
  let turns := [0; 0; 0; 0; 0; 0; 0]%nat in
  let Q := match schedule turns P with Some (Q, _) => Q | None => P end in
  let evs := match schedule turns P with Some (_, evs) => evs | None => [] end in
  let Q' := match fire 0 Q with Some (Q', _) => Q' | None => Q end in
  let r : string * option error := (Sample.token_1h, None) in
  pool_steps around P evs Q
  /\ pool_step around Q [] Q'
  /\ threads Q' !! 0%nat = Some (Ret r)
  /\ token (store (shared Q')) = r.1
  /\ (is_Some r.2 ->
      r.1 = EmptyString /\ tokenExpiration (store (shared Q')) = Time.zero).
Proof.
  intros w0 P turns Q evs Q' r.
  assert (Hsteps : pool_steps around P evs Q).
  { apply (schedule_steps around turns). vm_compute. reflexivity. }
  assert (Hstep : pool_step around Q [] Q').
  { apply (fire_step around 0). vm_compute. reflexivity. }
  assert (Hret : threads Q' !! 0%nat = Some (Ret r)) by (vm_compute; reflexivity).
  split; [ exact Hsteps | ]. split; [ exact Hstep | ]. split; [ exact Hret | ].
  apply (returns_what_the_cache_holds w0 1 evs Q [] Q' 0
           (default (Ret r) (threads Q !! 0%nat)) r);
    [ reflexivity | exact Hsteps | exact Hstep | vm_compute; reflexivity
    | vm_compute; reflexivity | exact Hret ].
Defined.

(** *** The registries *)

Lemma labels_are_independent_witness :
  let c : Client nat Sample.session nat := NewClient 0%nat (mkOptions 0) in
  let call : ClientCall nat Sample.session := CallRegisterToken "billing" "secret" in
  let label := "search"%string in
  AR_view (Response:=Z) (do_call (Response:=Z) c call) Sample.today 0%nat label
  = AR_view c Sample.today 0%nat label
  /\ IR (Response:=Z) (do_call (Response:=Z) c call) label = IR c label.
Proof.
  intros c call label.
  destruct (labels_are_independent (Response:=Z) c call label Sample.today 0%nat)
    as [Hauth Hint].
  split; [ apply Hauth | apply Hint ]; discriminate.
Defined.

Lemma first_use_refreshes_witness :
  let c : Client nat Sample.session nat := NewClient 0%nat (mkOptions 0) in
  let label := "billing"%string in
  let reader := Sample.reader_ok in
  let refresh := Sample.refresh_to Sample.token_1h in
  0 < client_authRefreshBuffer c
  /\ Time.is_wall_clock Sample.today
  /\ exists c',
       AR (Response:=Z) (RegisterAuth c label reader refresh) Sample.today 0%nat label
       = Some (SetBearerAuthToken (R c) Sample.token_1h, c', 1%nat,
               [IdentityGet; RefreshToken Sample.identity])
       /\ auths c' !! label
          = Some (refreshableStore
                    (setBearerToken
                       (newRefreshableAuthStore reader refresh
                          (client_authRefreshBuffer c))
                       Sample.token_1h))
       /\ forall other, other <> label -> auths c' !! other = auths c !! other.
Proof.
  intros c label reader refresh.
  assert (Hbuf : 0 < client_authRefreshBuffer c) by computed.
  assert (Hnow : Time.is_wall_clock Sample.today) by computed.
  split; [ exact Hbuf | ]. split; [ exact Hnow | ].
  apply (first_use_refreshes (Response:=Z) c label reader refresh Sample.today
           0%nat 0%nat 1%nat Sample.identity Sample.token_1h Hbuf Hnow);
    reflexivity.
Defined.

Lemma AR_wires_the_refresh_error_witness :
  let c0 : Client nat Sample.session nat := NewClient 0%nat (mkOptions 0) in
  let label := "billing"%string in
  let c := RegisterAuth c0 label Sample.reader_fails Sample.refresh_fails in
  let as_ := newRefreshableAuthStore Sample.reader_fails Sample.refresh_fails
               (2 * Time.Minute) in
  let err := "credential not found"%string in
  auths c !! label = Some (refreshableStore as_)
  /\ exists r c' o' evs,
       AR (Response:=Z) c Sample.today 0%nat label = Some (r, c', o', evs)
       /\ bearerAuthToken r = None
       /\ (forall resp, send_error r resp = Some err)
       /\ auths c' !! label = Some (refreshableStore (setBearerToken as_ EmptyString))
       /\ token (setBearerToken as_ EmptyString) = EmptyString
       /\ tokenExpiration (setBearerToken as_ EmptyString) = Time.zero.
Proof.
  intros c0 label c as_ err.
  assert (Hl : auths c !! label = Some (refreshableStore as_)) by reflexivity.
  split; [ exact Hl | ].
  apply (AR_wires_the_refresh_error (Response:=Z) c label as_ Sample.today 0%nat err Hl);
    [ reflexivity | computed | reflexivity ].
Defined.

Lemma IR_wires_the_interceptor_witness :
  let c0 : Client nat Sample.session nat := NewClient 0%nat (mkOptions 0) in
  let label := "session"%string in
  let i := {| Sample.number := 7; Sample.down := false |} in
  let c := RegisterInterceptor c0 label i in
  let s := newInterceptorStore i in
  interceptors c !! label = Some s
  /\ exists r : Request nat Z,
       IR c label = (r, Some 0)
       /\ payload r = 7%nat
       /\ retryCount r = Some 1.
Proof.
  intros c0 label i c s.
  assert (Hl : interceptors c !! label = Some s) by reflexivity.
  split; [ exact Hl | ].
  destruct (IR_wires_the_interceptor (Response:=Z) c label s Hl)
    as (r & HIR & Hpayload & Hcount & _).
  exists r. split; [ exact HIR | ]. split; [ exact Hpayload | exact Hcount ].
Defined.

(** *** The retry hooks *)

(** Two requests fail together at generation 0 and their hooks take turns. *)
Lemma hooks_recover_once_witness :
  let good (i : Sample.session) := Sample.down i = false in
  let s0 := Sample.session_store 0 false 0 in
  let hooks : list (Intercepted nat Z * option Z * option error) :=
    [(Sample.intercepted 0, Some 403, None); (Sample.intercepted 0, Some 403, None)] in
  let P := mkPool s0 ((fun x => retryHook x.1.1 x.1.2 x.2) <$> hooks) in
  let turns := [0; 1; 0; 1; 0; 1; 0; 1]%nat in
  let Q := match schedule turns P with Some (Q, _) => Q | None => P end in
  let evs := match schedule turns P with Some (_, evs) => evs | None => [] end in
  pool_steps (same_generation good) P evs Q
  /\ evs = [RecoverCall; ApplyCall; ApplyCall]
  /\ (recover_calls evs <= 1)%nat
  /\ (forall i st', threads Q !! i = Some (Ret st') ->
        recover_calls evs = 1%nat
        /\ generation (shared Q) = (0 + 1) mod 2 ^ 64
        /\ initGen st' = generation (shared Q))
  /\ (recover_calls evs = 0%nat -> generation (shared Q) = 0)
  /\ (forall i p, threads Q !! i = Some p -> returned p = None ->
        enabled p (shared Q) = true).
Proof.
  intros good s0 hooks P turns Q evs.
  assert (Hsteps : pool_steps (same_generation good) P evs Q).
  { apply (schedule_steps (same_generation good) turns). vm_compute. reflexivity. }
  split; [ exact Hsteps | ]. split; [ vm_compute; reflexivity | ].
  apply (hooks_recover_once good 0 s0 hooks evs Q).
  - lia.
  - intros [n d] resp Hd. change (d = false) in Hd. subst d. split; reflexivity.
  - reflexivity.
  - reflexivity.
  - intros x [<- | [<- | []]]; reflexivity.
  - exact Hsteps.
Defined.

Lemma lone_request_recovers_each_time_witness :
  let good (i : Sample.session) := Sample.down i = false in
  let s := Sample.session_store 0 false 0 in
  let st := Sample.intercepted 0 in
  let attempts : list (option Z * option error) :=
    [(Some 403, None); (Some 403, None); (Some 403, None)] in
  exists s' evs st',
    run_hooks attempts st s = Some (s', evs, st')
    /\ recover_calls evs = 3%nat
    /\ generation s' = (0 + 3) mod 2 ^ 64
    /\ initGen st' = generation s'
    /\ good (interceptor s').
Proof.
  intros good s st attempts.
  apply (lone_request_recovers_each_time good attempts s st).
  - intros [n d] resp Hd. change (d = false) in Hd. subst d. split; reflexivity.
  - reflexivity.
  - cbn. lia.
  - reflexivity.
Defined.

(** *** The identity manager *)

Lemma SetAll_then_Get_witness :
  let s : gmap string string := ∅ in
  let s' := (cred.SetAll s Sample.identity).1 in
  (cred.SetAll s Sample.identity).2 = None
  /\ (cred.Get s').2 = inl Sample.identity
  /\ (cred.Get s').1 = s'
  /\ s' = <[cred.secretKey := "testsecret"%string]>
            (<[cred.userKey := "testuser"%string]> s).
Proof.
  intros s s'.
  assert (Hok : (cred.SetAll s Sample.identity).2 = None) by reflexivity.
  split; [ exact Hok | ].
  apply (SetAll_then_Get (fun s => s) s Sample.identity map_provider_is_a_store Hok).
Defined.

Lemma Set_updates_the_fields_present_witness :
  let s : gmap string string :=
    <[cred.secretKey := "old-secret"%string]> (<[cred.userKey := "user"%string]> ∅) in
  let old := {| User := "user"; Secret := "old-secret" |} in
  let payload := cred.mkIdentityPayload None (Some "new-secret"%string) in
  (cred.Get s).2 = inl old
  /\ (cred.SetPayload s payload).2 = None
  /\ (cred.Get (cred.SetPayload s payload).1).2
     = inl {| User := "user"; Secret := "new-secret" |}.
Proof.
  intros s old payload.
  assert (Hold : (cred.Get s).2 = inl old) by (vm_compute; reflexivity).
  assert (Hok : (cred.SetPayload s payload).2 = None) by reflexivity.
  split; [ exact Hold | ]. split; [ exact Hok | ].
  exact (proj1 (Set_updates_the_fields_present (fun s => s) s old payload
                  map_provider_is_a_store Hold Hok)).
Defined.

Lemma deleted_credentials_fail_the_refresh_witness :
  let s : gmap string string :=
    <[cred.secretKey := "secret"%string]> (<[cred.userKey := "user"%string]> ∅) in
  let refresh (o : gmap string string) (_ : Identity)
    : gmap string string * (string + error) := (o, inl Sample.token_1h) in
  let as_ := newRefreshableAuthStore cred.Get refresh (2 * Time.Minute) in
  let s' := (cred.Delete s).1 in
  (cred.Delete s).2 = None
  /\ exists e,
       (cred.Get s').2 = inr e
       /\ (cred.Get s').1 = s'
       /\ run getValidToken {| clock := Sample.today; outside := s'; store := as_ |}
          = Some ({| clock := Sample.today; outside := (cred.Get s').1;
                     store := setBearerToken as_ EmptyString |},
                  [IdentityGet], (EmptyString, Some e)).
Proof.
  intros s refresh as_ s'.
  assert (Hok : (cred.Delete s).2 = None) by reflexivity.
  split; [ exact Hok | ].
  apply (deleted_credentials_fail_the_refresh (fun s => s) s as_ Sample.today
           map_provider_is_a_store Hok); [ reflexivity | reflexivity | computed ].
Defined.

(** *** The names of the environment *)

Lemma labels_share_variables_up_to_case_witness :
  let label1 := "my-svc"%string in
  let label2 := "My-Svc"%string in
  cred.toEnvVarName label1 cred.userKey = "MY-SVC_USERNAME"%string
  /\ cred.toEnvVarName label1 cred.userKey = cred.toEnvVarName label2 cred.userKey
  /\ cred.toEnvVarName label1 cred.userKey <> cred.toEnvVarName label2 cred.secretKey.
Proof.
  intros label1 label2.
  destruct (labels_share_variables_up_to_case label1 label2 eq_refl eq_refl)
    as (Huser & _ & Hsame & _ & Hnot & _).
  split; [ exact Huser | ]. split; [ apply Hsame; reflexivity | exact Hnot ].
Defined.

End further_on_samples.
